(** * DevEvents: slug generation, date/time normalisation, booking integrity

    A shallow embedding of the event and booking models of the DevEvents
    application (database/event.model.ts, database/booking.model.ts and
    lib/actions/event.actions.ts) together with the properties that the
    design document states about them.

    Conventions.
    - A JavaScript string is the list of its UTF-16 code units ([jsstring]).
    - A function that can [throw] returns a [result].
    - The collections of the document store are lists of records, in
      insertion order; a hook or an action that reads the store takes it as
      an argument, one that writes returns the new store.
    - A save is not one step: the events that other requests store
      between the queries of the hook and the write are an argument of the
      save. *)

From Stdlib Require Import List NArith ZArith Bool Lia String Ascii.
From Stdlib Require Import DecimalN.
Import ListNotations.

Local Open Scope N_scope.

(** ** JavaScript strings *)

Module JS.

Definition jsstring := list N.

(** [str "abc"] is the JavaScript literal "abc" (one code unit per
    character of the literal). *)
Definition str (s : string) : jsstring :=
  map N_of_ascii (list_ascii_of_string s).

Definition eqb_str (a b : jsstring) : bool :=
  if list_eq_dec N.eq_dec a b then true else false.

Definition inRange (lo hi c : N) : bool := (lo <=? c) && (c <=? hi).

(** [\d] *)
Definition isDigit (c : N) : bool := inRange 48 57 c.
Definition isUpper (c : N) : bool := inRange 65 90 c.
Definition isLower (c : N) : bool := inRange 97 122 c.
Definition hyphen : N := 45.
Definition underscore : N := 95.
Definition colon : N := 58.
Definition isHyphen (c : N) : bool := c =? hyphen.

(** [\w], no [u] or [i] flag: [A-Za-z0-9_] *)
Definition isWord (c : N) : bool :=
  isUpper c || isLower c || isDigit c || (c =? underscore).

(** [\s], and what [String.prototype.trim] removes: WhiteSpace and
    LineTerminator of ECMAScript. *)
Definition isSpace (c : N) : bool :=
  inRange 9 13 c || (c =? 32) || (c =? 160) || (c =? 5760)
  || inRange 8192 8202 c || (c =? 8232) || (c =? 8233) || (c =? 8239)
  || (c =? 8287) || (c =? 12288) || (c =? 65279).

Fixpoint dropWhile (p : N -> bool) (s : jsstring) : jsstring :=
  match s with
  | [] => []
  | c :: t => if p c then dropWhile p t else s
  end.

Definition trimStart (s : jsstring) : jsstring := dropWhile isSpace s.
Definition trimEnd (s : jsstring) : jsstring := rev (dropWhile isSpace (rev s)).
Definition trim (s : jsstring) : jsstring := trimEnd (trimStart s).

(** Case mapping.  On Basic Latin [toLowerCase] and [toUpperCase] are the
    usual maps on letters.  Outside it they follow the Unicode tables of
    the host, which enter as the two functions of [UnicodeCase]: the image
    of a code unit above U+007F, as a sequence of code units (U+212A KELVIN
    SIGN lowers to "k", U+00DF upper-cases to "SS").  The one law is that
    lowering never yields an upper-case Basic Latin letter. *)
Class UnicodeCase := {
  lowerOther : N -> jsstring;
  upperOther : N -> jsstring;
  lowerOther_not_upper :
    forall c d, 128 <= c -> In d (lowerOther c) -> isUpper d = false
}.

Section CaseMapping.
Context {uc : UnicodeCase}.

Definition lowerUnit (c : N) : jsstring :=
  if isUpper c then [c + 32]
  else if c <? 128 then [c]
  else lowerOther c.

Definition upperUnit (c : N) : jsstring :=
  if isLower c then [c - 32]
  else if c <? 128 then [c]
  else upperOther c.

Definition toLowerCase (s : jsstring) : jsstring := flat_map lowerUnit s.
Definition toUpperCase (s : jsstring) : jsstring := flat_map upperUnit s.
End CaseMapping.

(** A host that leaves every code unit outside Basic Latin as it is; used
    to evaluate the functions on Basic Latin inputs. *)
#[export] Instance basicLatin : UnicodeCase :=
  {| lowerOther c := [c];
     upperOther c := [c];
     lowerOther_not_upper := ltac:(
       intros c d Hc [<- | []]; unfold isUpper, inRange;
       apply andb_false_iff; right; apply N.leb_gt; lia) |}.

(** [s.replace(/[p]+/g, r)]: every maximal run of units satisfying [p]
    is replaced by [r].  [inRun] tells that the previous unit belonged to
    the run, whose replacement is already emitted. *)
Fixpoint replaceRuns (p : N -> bool) (r : jsstring) (inRun : bool)
    (s : jsstring) : jsstring :=
  match s with
  | [] => []
  | c :: t =>
      if p c then
        (if inRun then replaceRuns p r true t else r ++ replaceRuns p r true t)
      else c :: replaceRuns p r false t
  end.

(** [Number.prototype.toString] on a non-negative integer: its decimal
    digits, most significant first. *)
Fixpoint digitsOf (d : Decimal.uint) : jsstring :=
  match d with
  | Decimal.Nil => []
  | Decimal.D0 r => 48 :: digitsOf r
  | Decimal.D1 r => 49 :: digitsOf r
  | Decimal.D2 r => 50 :: digitsOf r
  | Decimal.D3 r => 51 :: digitsOf r
  | Decimal.D4 r => 52 :: digitsOf r
  | Decimal.D5 r => 53 :: digitsOf r
  | Decimal.D6 r => 54 :: digitsOf r
  | Decimal.D7 r => 55 :: digitsOf r
  | Decimal.D8 r => 56 :: digitsOf r
  | Decimal.D9 r => 57 :: digitsOf r
  end.

Definition toString (n : N) : jsstring := digitsOf (N.to_uint n).

(** [parseInt(s, 10)] on a string of decimal digits. *)
Definition parseInt (s : jsstring) : N :=
  fold_left (fun acc c => 10 * acc + (c - 48)) s 0.

(** [s.padStart(n, "0")] *)
Definition padStart0 (n : nat) (s : jsstring) : jsstring :=
  repeat 48 (n - List.length s)%nat ++ s.

End JS.
Import JS.

(** ** Errors

    The code throws [Error] objects told apart by their message; the store
    adds its own.  The constructors carry the names of the design document:
    - [InvalidFormat]: "Invalid date format: ..." / "Invalid time format: ..."
    - [ReferentialIntegrityViolation]: "Event with ID ... does not exist."
    - [DuplicateBooking]: the duplicate-key error of the unique index
    - [ValidationFailed]: the validation error of the schema
    - [StorageUnavailable]: a failure of the connection or of a query. *)
Inductive error : Type :=
| InvalidFormat (input : jsstring)
| ReferentialIntegrityViolation (eventId : N)
| DuplicateBooking
| DuplicateSlug
| ValidationFailed
| StorageUnavailable.

Inductive result (A : Type) : Type :=
| Ok (a : A)
| Err (e : error).
Arguments Ok {A} a.
Arguments Err {A} e.

Definition bind {A B} (r : result A) (k : A -> result B) : result B :=
  match r with
  | Ok a => k a
  | Err e => Err e
  end.

Notation "x <- r ;; k" := (bind r (fun x => k))
  (at level 61, r at next level, right associativity).

(** ** database/event.model.ts: generateSlug *)

Section Slug.
Context {uc : UnicodeCase}.

(** [.replace(/[^\w\s-]/g, "")] *)
Definition removeSpecial (s : jsstring) : jsstring :=
  filter (fun c => isWord c || isSpace c || isHyphen c) s.

(** [.replace(/\s+/g, "-")] *)
Definition spacesToHyphen (s : jsstring) : jsstring :=
  replaceRuns isSpace [hyphen] false s.

(** [.replace(/-+/g, "-")] *)
Definition collapseHyphens (s : jsstring) : jsstring :=
  replaceRuns isHyphen [hyphen] false s.

Definition dropLeadingHyphen (s : jsstring) : jsstring :=
  match s with
  | c :: t => if isHyphen c then t else s
  | [] => []
  end.

(** [.replace(/^-|-$/g, "")]: the first unit goes when it is a hyphen,
    and then the last unit of what remains. *)
Definition stripHyphenEnds (s : jsstring) : jsstring :=
  rev (dropLeadingHyphen (rev (dropLeadingHyphen s))).

Definition generateSlug (title : jsstring) : jsstring :=
  stripHyphenEnds
    (collapseHyphens
       (spacesToHyphen
          (removeSpecial
             (trim (toLowerCase title))))).
End Slug.

(** ** database/event.model.ts: normalizeTime *)

Section Time.
Context {uc : UnicodeCase}.

(** The prefix [^(\d{1,2}):(\d{2})] shared by both patterns, with the
    hour digits, the minute digits and the rest of the string; first
    with one hour digit, then with two. *)
Definition hourMinute1 (s : jsstring)
  : option (jsstring * jsstring * jsstring) :=
  match s with
  | h :: c :: m1 :: m2 :: rest =>
      if isDigit h && (c =? colon) && isDigit m1 && isDigit m2
      then Some ([h], [m1; m2], rest)
      else None
  | _ => None
  end.

Definition hourMinute2 (s : jsstring)
  : option (jsstring * jsstring * jsstring) :=
  match s with
  | h1 :: h2 :: c :: m1 :: m2 :: rest =>
      if isDigit h1 && isDigit h2 && (c =? colon) && isDigit m1 && isDigit m2
      then Some ([h1; h2], [m1; m2], rest)
      else None
  | _ => None
  end.

(** The quantifier [{1,2}] is greedy: two hour digits are tried first. *)
Definition matchHourMinute (s : jsstring)
  : option (jsstring * jsstring * jsstring) :=
  match hourMinute2 s with
  | Some r => Some r
  | None => hourMinute1 s
  end.

(** [trimmed.match(/^(\d{1,2}):(\d{2})$/)] *)
Definition time24Match (s : jsstring) : option (jsstring * jsstring) :=
  match matchHourMinute s with
  | Some (h, m, []) => Some (h, m)
  | _ => None
  end.

Definition AM : jsstring := [65; 77].
Definition PM : jsstring := [80; 77].

(** [trimmed.match(/^(\d{1,2}):(\d{2})\s*(AM|PM)$/)] *)
Definition time12Match (s : jsstring)
  : option (jsstring * jsstring * jsstring) :=
  match matchHourMinute s with
  | Some (h, m, rest) =>
      let period := dropWhile isSpace rest in
      if eqb_str period AM || eqb_str period PM
      then Some (h, m, period)
      else None
  | None => None
  end.

(** [`${hours.toString().padStart(2, "0")}:${minutes}`] *)
Definition formatTime (hours : N) (minutes : jsstring) : jsstring :=
  padStart0 2 (toString hours) ++ colon :: minutes.

(** The first [if]: [Some] is its [return], [None] falls through. *)
Definition normalizeTime24 (trimmed : jsstring) : option jsstring :=
  match time24Match trimmed with
  | Some (h, minutes) =>
      let hours := parseInt h in
      if (0 <=? hours) && (hours <=? 23)
      then Some (formatTime hours minutes)
      else None
  | None => None
  end.

Definition to24Hour (hours : N) (period : jsstring) : N :=
  if eqb_str period PM && negb (hours =? 12) then hours + 12
  else if eqb_str period AM && (hours =? 12) then 0
  else hours.

Definition normalizeTime (timeStr : jsstring) : result jsstring :=
  let trimmed := toUpperCase (trim timeStr) in
  match normalizeTime24 trimmed with
  | Some r => Ok r
  | None =>
      match time12Match trimmed with
      | Some (h, minutes, period) =>
          Ok (formatTime (to24Hour (parseInt h) period) minutes)
      | None => Err (InvalidFormat timeStr)
      end
  end.
End Time.

(** ** The built-in [Date]

    Time values are milliseconds since 1970-01-01T00:00:00Z.  The
    calendar functions are those of ECMAScript (Day, DayFromYear,
    YearFromTime, MonthFromTime, DateFromTime). *)

Module JSDate.
Local Open Scope Z_scope.

Definition msPerDay : Z := 86400000.
Definition maxTime : Z := 8640000000000000.

Definition Day (t : Z) : Z := t / msPerDay.
Definition TimeWithinDay (t : Z) : Z := t mod msPerDay.

Definition isLeap (y : Z) : bool :=
  (y mod 4 =? 0) && (negb (y mod 100 =? 0) || (y mod 400 =? 0)).

Definition DaysInYear (y : Z) : Z := if isLeap y then 366 else 365.

Definition DayFromYear (y : Z) : Z :=
  365 * (y - 1970) + (y - 1969) / 4 - (y - 1901) / 100 + (y - 1601) / 400.

(** The largest [y] with [DayFromYear y <= d]: an estimate from the mean
    length of a year, corrected by at most one. *)
Definition YearFromDay (d : Z) : Z :=
  let y0 := 1970 + (400 * d) / 146097 in
  if d <? DayFromYear y0 then y0 - 1
  else if DayFromYear (y0 + 1) <=? d then y0 + 1
  else y0.

Definition YearFromTime (t : Z) : Z := YearFromDay (Day t).
Definition InLeapYear (t : Z) : Z := if isLeap (YearFromTime t) then 1 else 0.
Definition DayWithinYear (t : Z) : Z := Day t - DayFromYear (YearFromTime t).

(** Day of the year on which month [m] (0 = January) begins. *)
Definition monthStart (leap m : Z) : Z :=
  match m with
  | 0 => 0
  | 1 => 31
  | 2 => 59 + leap
  | 3 => 90 + leap
  | 4 => 120 + leap
  | 5 => 151 + leap
  | 6 => 181 + leap
  | 7 => 212 + leap
  | 8 => 243 + leap
  | 9 => 273 + leap
  | 10 => 304 + leap
  | 11 => 334 + leap
  | _ => 365 + leap
  end.

Definition monthOfDay (leap d : Z) : Z :=
  if d <? 31 then 0
  else if d <? 59 + leap then 1
  else if d <? 90 + leap then 2
  else if d <? 120 + leap then 3
  else if d <? 151 + leap then 4
  else if d <? 181 + leap then 5
  else if d <? 212 + leap then 6
  else if d <? 243 + leap then 7
  else if d <? 273 + leap then 8
  else if d <? 304 + leap then 9
  else if d <? 334 + leap then 10
  else 11.

Definition MonthFromTime (t : Z) : Z :=
  monthOfDay (InLeapYear t) (DayWithinYear t).

Definition DateFromTime (t : Z) : Z :=
  DayWithinYear t - monthStart (InLeapYear t) (MonthFromTime t) + 1.

Definition HourFromTime (t : Z) : Z := (TimeWithinDay t / 3600000) mod 24.
Definition MinFromTime (t : Z) : Z := (TimeWithinDay t / 60000) mod 60.
Definition SecFromTime (t : Z) : Z := (TimeWithinDay t / 1000) mod 60.
Definition msFromTime (t : Z) : Z := TimeWithinDay t mod 1000.

Definition pad (n : nat) (v : Z) : jsstring := padStart0 n (toString (Z.to_N v)).

(** Years 0 to 9999 print with four digits, the others with a sign and
    six. *)
Definition isoYear (y : Z) : jsstring :=
  if (0 <=? y) && (y <=? 9999) then pad 4 y
  else (if y <? 0 then 45%N else 43%N) :: pad 6 (Z.abs y).

(** [Date.prototype.toISOString] of a valid time value:
    YYYY-MM-DDTHH:mm:ss.sssZ *)
Definition toISOString (t : Z) : jsstring :=
  isoYear (YearFromTime t) ++ hyphen :: pad 2 (MonthFromTime t + 1)
    ++ hyphen :: pad 2 (DateFromTime t)
    ++ 84%N :: pad 2 (HourFromTime t) ++ colon :: pad 2 (MinFromTime t)
    ++ colon :: pad 2 (SecFromTime t) ++ 46%N :: pad 3 (msFromTime t)
    ++ [90%N].

(** The date part of [toISOString], from the day number. *)
Definition isoDate (d : Z) : jsstring :=
  let y := YearFromDay d in
  let leap := if isLeap y then 1 else 0 in
  let n := d - DayFromYear y in
  let m := monthOfDay leap n in
  isoYear y ++ hyphen :: pad 2 (m + 1) ++ hyphen :: pad 2 (n - monthStart leap m + 1).

(** [MakeDay] for a month in 1..12 and a day of that month. *)
Definition daysInMonth (y m : Z) : Z :=
  let leap := if isLeap y then 1 else 0 in
  monthStart leap m - monthStart leap (m - 1).

Definition MakeDay (y m d : Z) : Z :=
  DayFromYear y + monthStart (if isLeap y then 1 else 0) (m - 1) + d - 1.

Definition TimeClip (t : Z) : option Z :=
  if Z.abs t <=? maxTime then Some t else None.

(** The date-only forms of the ECMAScript date-time string format,
    YYYY-MM-DD and (expanded years) +YYYYYY-MM-DD or -YYYYYY-MM-DD, for a
    day that exists in the calendar; they denote midnight UTC. *)
Definition digitsValue (s : jsstring) : option Z :=
  if forallb isDigit s then Some (Z.of_N (parseInt s)) else None.

Definition civilTime (y : Z) (ms ds : jsstring) : option Z :=
  match digitsValue ms, digitsValue ds with
  | Some m, Some d =>
      if (1 <=? m) && (m <=? 12) && (1 <=? d) && (d <=? daysInMonth y m)
      then TimeClip (MakeDay y m d * msPerDay)
      else None
  | _, _ => None
  end.

Definition parseISODate (s : jsstring) : option Z :=
  match s with
  | [y1; y2; y3; y4; h1; m1; m2; h2; d1; d2] =>
      if (h1 =? hyphen)%N && (h2 =? hyphen)%N then
        match digitsValue [y1; y2; y3; y4] with
        | Some y => civilTime y [m1; m2] [d1; d2]
        | None => None
        end
      else None
  | [sg; y1; y2; y3; y4; y5; y6; h1; m1; m2; h2; d1; d2] =>
      if ((sg =? 43) || (sg =? 45))%N && (h1 =? hyphen)%N && (h2 =? hyphen)%N
      then
        match digitsValue [y1; y2; y3; y4; y5; y6] with
        | Some y =>
            if (sg =? 45)%N then
              (if y =? 0 then None else civilTime (- y) [m1; m2] [d1; d2])
            else civilTime y [m1; m2] [d1; d2]
        | None => None
        end
      else None
  | _ => None
  end.

(** What [new Date(s)] does with every other string is left to the host
    by ECMAScript (other forms of the format, implementation-defined
    formats such as "March 3, 2025", the local time zone): [hostParse]
    gives the time value, [None] for an invalid date. *)
Class DateHost := { hostParse : jsstring -> option Z }.

Section Parse.
Context {dh : DateHost}.

(** [new Date(s).getTime()], [None] standing for NaN. *)
Definition parse (s : jsstring) : option Z :=
  match parseISODate s with
  | Some t => Some t
  | None =>
      match hostParse s with
      | Some t => TimeClip t
      | None => None
      end
  end.
End Parse.

End JSDate.

(** ** database/event.model.ts: normalizeDate *)

Section Date.
Context {dh : JSDate.DateHost}.

(** [s.split("T")[0]] *)
Fixpoint beforeT (s : jsstring) : jsstring :=
  match s with
  | [] => []
  | c :: t => if c =? 84 then [] else c :: beforeT t
  end.

Definition normalizeDate (dateStr : jsstring) : result jsstring :=
  match JSDate.parse dateStr with
  | None => Err (InvalidFormat dateStr)
  | Some t => Ok (beforeT (JSDate.toISOString t))
  end.
End Date.

(** A host that knows no format of its own. *)
Definition isoOnly : JSDate.DateHost := {| JSDate.hostParse := fun _ => None |}.

(** ** database/event.model.ts: the Event model

    [IEvent] without its time stamps, which no operation below reads.  An
    ObjectId is a number.  An element of a [[String]] array is a string
    or [null] ([None]): the schema casts [null] to [null], its validators
    look at the length of the array only, and the route that creates
    events passes on what [JSON.parse] gives. *)

Record Event := {
  _id : N;
  title : jsstring;
  slug : jsstring;
  description : jsstring;
  overview : jsstring;
  image : jsstring;
  venue : jsstring;
  location : jsstring;
  date : jsstring;
  time : jsstring;
  mode : jsstring;
  audience : jsstring;
  agenda : list (option jsstring);
  organizer : jsstring;
  tags : list (option jsstring)
}.

Definition set_slug (e : Event) (s : jsstring) : Event :=
  {| _id := _id e; title := title e; slug := s;
     description := description e; overview := overview e; image := image e;
     venue := venue e; location := location e; date := date e; time := time e;
     mode := mode e; audience := audience e; agenda := agenda e;
     organizer := organizer e; tags := tags e |}.

Definition set_date (e : Event) (d : jsstring) : Event :=
  {| _id := _id e; title := title e; slug := slug e;
     description := description e; overview := overview e; image := image e;
     venue := venue e; location := location e; date := d; time := time e;
     mode := mode e; audience := audience e; agenda := agenda e;
     organizer := organizer e; tags := tags e |}.

Definition set_time (e : Event) (t : jsstring) : Event :=
  {| _id := _id e; title := title e; slug := slug e;
     description := description e; overview := overview e; image := image e;
     venue := venue e; location := location e; date := date e; time := t;
     mode := mode e; audience := audience e; agenda := agenda e;
     organizer := organizer e; tags := tags e |}.

(** A document in memory: its fields, whether it was never saved, and the
    paths changed since it was loaded. *)
Record EventDoc := {
  this : Event;
  isNew : bool;
  modifiedPaths : list jsstring
}.

Definition isModified (path : string) (d : EventDoc) : bool :=
  existsb (eqb_str (str path)) (modifiedPaths d).

(** The schema: [required] (a string must not be empty), [minlength],
    [enum] and the two array validators. *)
Definition required (s : jsstring) : bool := negb (eqb_str s []).

Definition validateEvent (e : Event) : bool :=
  required (title e) && (3 <=? List.length (title e))%nat
  && required (description e) && required (overview e) && required (image e)
  && required (venue e) && required (location e)
  && required (date e) && required (time e)
  && (eqb_str (mode e) (str "online") || eqb_str (mode e) (str "offline")
      || eqb_str (mode e) (str "hybrid"))
  && required (audience e)
  && (0 <? List.length (agenda e))%nat
  && required (organizer e)
  && (0 <? List.length (tags e))%nat.

(** [Event.findOne({ slug, _id: { $ne: id } })] *)
Definition findOneSlugNotId (events : list Event) (s : jsstring) (id : N)
  : option Event :=
  find (fun e => eqb_str (slug e) s && negb (_id e =? id)) events.

(** [`${baseSlug}-${counter}`] *)
Definition candidate (baseSlug : jsstring) (counter : N) : jsstring :=
  baseSlug ++ hyphen :: toString counter.

(** The [while] loop of the hook.  [fuel] bounds the number of queries;
    [None] means that the loop is still running when it is used up. *)
Fixpoint slugLoop (fuel : nat) (events : list Event) (id : N)
    (baseSlug slug : jsstring) (counter : N) : option jsstring :=
  match fuel with
  | O => None
  | S fuel' =>
      match findOneSlugNotId events slug id with
      | Some _ =>
          slugLoop fuel' events id baseSlug (candidate baseSlug counter)
            (counter + 1)
      | None => Some slug
      end
  end.

Section EventHook.
Context {uc : UnicodeCase} {dh : JSDate.DateHost}.

Definition uniqueSlug (fuel : nat) (events : list Event) (e : Event)
  : option jsstring :=
  let baseSlug := generateSlug (title e) in
  slugLoop fuel events (_id e) baseSlug baseSlug 1.

(** [EventSchema.pre("save", ...)]: the document after the hook, or the
    error it throws. *)
Definition preSaveEvent (fuel : nat) (events : list Event) (d : EventDoc)
  : option (result Event) :=
  let e0 := this d in
  match
    (if isModified "title" d || isNew d
     then option_map (set_slug e0) (uniqueSlug fuel events e0)
     else Some e0)
  with
  | None => None
  | Some e1 =>
      Some (
        e2 <- (if isModified "date" d || isNew d
               then bind (normalizeDate (date e1)) (fun v => Ok (set_date e1 v))
               else Ok e1) ;;
        e3 <- (if isModified "time" d || isNew d
               then bind (normalizeTime (time e2)) (fun v => Ok (set_time e2 v))
               else Ok e2) ;;
        Ok e3)
  end.

(** The collection has unique indexes on [_id] and on [slug]. *)
Definition insertEvent (events : list Event) (e : Event)
  : result (list Event) :=
  if existsb (fun x => (_id x =? _id e) || eqb_str (slug x) (slug e)) events
  then Err DuplicateSlug
  else Ok (events ++ [e]).

Definition replaceEvent (events : list Event) (e : Event)
  : result (list Event) :=
  if existsb (fun x => negb (_id x =? _id e) && eqb_str (slug x) (slug e))
       events
  then Err DuplicateSlug
  else Ok (map (fun x => if _id x =? _id e then e else x) events).

(** [doc.save()]: validation, then the hook, then the write.  The hook
    is [async] and awaits each of its queries, so that other requests run
    before the write.  [events] is the collection as the last query of
    the hook reads it (requests add events and remove none: what the
    queries before it found is still there), [others] the events that
    other requests insert after that query and before this write, which
    meets the collection [events ++ others].  When nothing comes in
    between, [others] is [[]].  The outcome comes with the collection as
    it is afterwards. *)
Definition saveEvent (fuel : nat) (events others : list Event) (d : EventDoc)
  : option (result Event * list Event) :=
  let stored := events ++ others in
  if validateEvent (this d) then
    match preSaveEvent fuel events d with
    | None => None
    | Some (Err err) => Some (Err err, stored)
    | Some (Ok e) =>
        match (if isNew d then insertEvent stored e
               else replaceEvent stored e) with
        | Ok events' => Some (Ok e, events')
        | Err err => Some (Err err, stored)
        end
    end
  else Some (Err ValidationFailed, stored).

(** The paths that [Event.create] sets, all of them modified in the new
    document. *)
Definition eventPaths : list jsstring :=
  [str "title"; str "description"; str "overview"; str "image"; str "venue";
   str "location"; str "date"; str "time"; str "mode"; str "audience";
   str "agenda"; str "organizer"; str "tags"].

(** [Event.create(fields)]: a new document whose [_id] is [id]; the
    schema trims the strings marked [trim: true]. *)
Definition newEvent (id : N) (fields : Event) : EventDoc :=
  {| this :=
       {| _id := id; title := trim (title fields); slug := slug fields;
          description := trim (description fields);
          overview := trim (overview fields); image := trim (image fields);
          venue := trim (venue fields); location := trim (location fields);
          date := date fields; time := time fields; mode := mode fields;
          audience := trim (audience fields); agenda := agenda fields;
          organizer := trim (organizer fields); tags := tags fields |};
     isNew := true;
     modifiedPaths := eventPaths |}.

Definition createEvent (fuel : nat) (events others : list Event) (id : N)
    (fields : Event) : option (result Event * list Event) :=
  saveEvent fuel events others (newEvent id fields).
End EventHook.

(** ** database/booking.model.ts: the Booking model *)

Record Booking := {
  eventId : N;
  email : jsstring
}.

(** [EMAIL_REGEX = /^[^\s@]+@[^\s@]+\.[^\s@]+$/].  A unit of a part is
    neither white space nor "@"; the string is a part, "@", and a part
    with a "." that is neither its first nor its last unit. *)
Definition at_sign : N := 64.
Definition dot : N := 46.
Definition isPartUnit (c : N) : bool := negb (isSpace c) && negb (c =? at_sign).

Fixpoint takeWhile (p : N -> bool) (s : jsstring) : jsstring :=
  match s with
  | [] => []
  | c :: t => if p c then c :: takeWhile p t else []
  end.

Definition hasInnerDot (s : jsstring) : bool :=
  match s with
  | [] => false
  | _ :: t => existsb (fun c => c =? dot) (removelast t)
  end.

Definition EMAIL_REGEX_test (s : jsstring) : bool :=
  let local := takeWhile isPartUnit s in
  match dropWhile isPartUnit s with
  | c :: domain =>
      negb (eqb_str local []) && (c =? at_sign)
      && forallb isPartUnit domain && hasInnerDot domain
  | [] => false
  end.

Definition findById (events : list Event) (id : N) : option Event :=
  find (fun e => _id e =? id) events.

Section BookingHook.
Context {uc : UnicodeCase}.

Definition validateBooking (b : Booking) : bool :=
  required (email b) && EMAIL_REGEX_test (email b).

(** [BookingSchema.pre("save", ...)] *)
Definition preSaveBooking (events : list Event) (isNewDoc modifiedEventId : bool)
    (b : Booking) : result unit :=
  if modifiedEventId || isNewDoc then
    match findById events (eventId b) with
    | None => Err (ReferentialIntegrityViolation (eventId b))
    | Some _ => Ok tt
    end
  else Ok tt.

(** The write under [BookingSchema.index({ eventId: 1, email: 1 },
    { unique: true })]. *)
Definition sameBooking (a b : Booking) : bool :=
  (eventId a =? eventId b) && eqb_str (email a) (email b).

Definition insertBooking (bookings : list Booking) (b : Booking)
  : result (list Booking) :=
  if existsb (sameBooking b) bookings then Err DuplicateBooking
  else Ok (bookings ++ [b]).

(** [Booking.create({ eventId, email })]: the schema lower-cases and
    trims the address; then validation, the hook and the write. *)
Definition createBooking (events : list Event) (bookings : list Booking)
    (id : N) (address : jsstring) : result Booking * list Booking :=
  let b := {| eventId := id; email := trim (toLowerCase address) |} in
  if validateBooking b then
    match preSaveBooking events true false b with
    | Err err => (Err err, bookings)
    | Ok _ =>
        match insertBooking bookings b with
        | Ok bookings' => (Ok b, bookings')
        | Err err => (Err err, bookings)
        end
    end
  else (Err ValidationFailed, bookings).
End BookingHook.

(** ** lib/actions/event.actions.ts *)

Definition eqb_tag (a b : option jsstring) : bool :=
  match a, b with
  | Some x, Some y => eqb_str x y
  | None, None => true
  | _, _ => false
  end.

(** [_id: { $ne: id }], where [id] is [undefined] ([None]) when there is
    no event to take it from: every stored [_id] differs from that. *)
Definition idNe (id : option N) (e : Event) : bool :=
  match id with
  | Some i => negb (_id e =? i)
  | None => true
  end.

(** [tags: { $in: values }]: an element of the stored array is one of
    [values]. *)
Definition tagsIn (values : list (option jsstring)) (e : Event) : bool :=
  existsb (fun t => existsb (eqb_tag t) values) (tags e).

Definition sharesTag (a b : Event) : bool := tagsIn (tags b) a.

(** [getSimilarEventsBySlug].  [db] is the collection, or the error of
    [dbConnect] or of a query, which the [catch] turns into [[]].  There
    is no return between the two queries.  When [findOne] finds nothing,
    [event?._id] and [event?.tags] are [undefined]; Mongoose casts
    [$in: undefined] to the list of that one value, which reaches the
    collection as [null]: the second query then selects the events that
    have [null] among their tags. *)
Definition getSimilarEventsBySlug (db : result (list Event)) (slug0 : jsstring)
  : list Event :=
  match db with
  | Err _ => []
  | Ok events =>
      let event := find (fun e => eqb_str (slug e) slug0) events in
      let values :=
        match event with
        | Some ev => tags ev
        | None => [None]
        end in
      filter (fun e => idNe (option_map _id event) e && tagsIn values e) events
  end.

(** ** The vocabulary of the properties *)

(** [a-z0-9-] *)
Definition slugUnit (c : N) : bool := isLower c || isDigit c || isHyphen c.

(** A slug over the alphabet [ok]: lower-case, no unit outside [ok], no
    hyphen in front, none at the end, no two in a row. *)
Record WellFormedSlug (ok : N -> bool) (s : jsstring) : Prop := {
  wf_units : Forall (fun c => ok c = true) s;
  wf_lower : Forall (fun c => isUpper c = false) s;
  wf_lead : forall l, s <> hyphen :: l;
  wf_trail : forall l, s <> l ++ [hyphen];
  wf_double : forall l1 l2, s <> l1 ++ hyphen :: hyphen :: l2
}.

Definition noDouble (s : jsstring) : Prop :=
  forall l1 l2, s <> l1 ++ hyphen :: hyphen :: l2.

(** The hour of the 24-hour clock for hour [h] of the 12-hour clock. *)
Definition hour24 (h : N) (pm : bool) : N :=
  h mod 12 + (if pm then 12 else 0).

Definition isPM (a : N) : bool := (a =? 80) || (a =? 112).

Definition digits (s : jsstring) : Prop := Forall (fun c => isDigit c = true) s.

(** YYYY-MM-DD: four digits, a hyphen, two digits, a hyphen, two digits. *)
Definition isYMD (s : jsstring) : bool :=
  match s with
  | [y1; y2; y3; y4; h1; m1; m2; h2; d1; d2] =>
      forallb isDigit [y1; y2; y3; y4; m1; m2; d1; d2]
      && isHyphen h1 && isHyphen h2
  | _ => false
  end.

(** A host in the UTC zone, as far as the example of the design document
    goes: "March 3, 2025" is midnight of that day. *)
Definition utcHost : JSDate.DateHost :=
  {| JSDate.hostParse := fun s =>
       if eqb_str s (str "March 3, 2025") then Some 1740960000000%Z else None |}.

(** No event other than the one with identifier [id] has slug [s]. *)
Definition slugFree (events : list Event) (id : N) (s : jsstring) : Prop :=
  forall e, In e events -> _id e <> id -> slug e <> s.

(** [s] is the slug that the resolution picks for [base]: [base] when no
    other event has it, and otherwise the first of base-1, base-2, ...
    that no other event has. *)
Definition firstFree (events : list Event) (id : N) (base s : jsstring)
  : Prop :=
  (slugFree events id base /\ s = base) \/
  (~ slugFree events id base /\
   exists k, 1 <= k /\ s = candidate base k /\
     slugFree events id (candidate base k) /\
     forall j, 1 <= j < k -> ~ slugFree events id (candidate base j)).

(** The fields of a conference with the title "DevCon". *)
Definition devCon : Event :=
  {| _id := 0; title := str "DevCon"; slug := [];
     description := str "A conference"; overview := str "Talks";
     image := str "https://img/devcon.png"; venue := str "Hall 1";
     location := str "Berlin"; date := str "2025-03-03"; time := str "9:30 AM";
     mode := str "offline"; audience := str "Developers";
     agenda := [Some (str "Keynote")]; organizer := str "DevOrg";
     tags := [Some (str "ai"); Some (str "cloud")] |}.

(** The bookings for the pair of [b]. *)
Definition bookingsFor (b : Booking) (bookings : list Booking) : list Booking :=
  filter (sameBooking b) bookings.

(** Stored events to evaluate the operations on. *)
Definition sampleEvent (id : N) (name slug0 day clock : string)
    (labels : list (option jsstring)) : Event :=
  {| _id := id; title := str name; slug := str slug0;
     description := str "A conference"; overview := str "Talks";
     image := str "https://img/event.png"; venue := str "Hall 1";
     location := str "Berlin"; date := str day; time := str clock;
     mode := str "offline"; audience := str "Developers";
     agenda := [Some (str "Keynote")]; organizer := str "DevOrg";
     tags := labels |}.

Definition devConStored : Event :=
  sampleEvent 1 "DevCon" "devcon" "2025-03-03" "09:30"
    [Some (str "ai"); Some (str "cloud")].
Definition cloudDay : Event :=
  sampleEvent 2 "Cloud Day" "cloud-day" "2025-05-20" "10:00"
    [Some (str "cloud"); Some (str "devops")].
Definition rustFest : Event :=
  sampleEvent 3 "Rust Fest" "rust-fest" "2025-06-01" "18:00"
    [Some (str "rust")].

(** An event as the route stores it for the tags ["web", null]. *)
Definition webNight : Event :=
  sampleEvent 5 "Web Night" "web-night" "2025-07-10" "19:00"
    [Some (str "web"); None].

(** ** app/api/events/[slug]/route.ts *)

(** The JSON body of a response: the error body of the guards and of the
    404, the body of the [catch] (whose [error] is the message of what was
    thrown, here the thrown error itself), and the success body. *)
Inductive ResponseBody : Type :=
| ErrorBody (message errorText : jsstring)
| FailureBody (message : jsstring) (thrown : error)
| SuccessBody (message : jsstring) (event : Event).

Record Response := {
  status : N;
  body : ResponseBody
}.

Definition bodyEvent (r : Response) : option Event :=
  match body r with
  | SuccessBody _ e => Some e
  | _ => None
  end.

Section SlugRoute.
Context {uc : UnicodeCase}.

(** [slug.trim().toLowerCase()] *)
Definition sanitizeSlug (slug0 : jsstring) : jsstring :=
  toLowerCase (trim slug0).

(** [GET].  [slug0] is the route parameter, [None] when it is not a
    string; [db] is the collection, or what [dbConnect] or [findOne]
    throws. *)
Definition GET (db : result (list Event)) (slug0 : option jsstring)
  : Response :=
  match slug0 with
  | None | Some [] =>
      {| status := 400;
         body := ErrorBody (str "Invalid request")
                   (str "Slug parameter is required") |}
  | Some s =>
      let sanitizedSlug := sanitizeSlug s in
      if (List.length sanitizedSlug =? 0)%nat then
        {| status := 400;
           body := ErrorBody (str "Invalid request")
                     (str "Slug cannot be empty") |}
      else
        match db with
        | Err thrown =>
            {| status := 500;
               body := FailureBody (str "Failed to fetch event") thrown |}
        | Ok events =>
            match find (fun e => eqb_str (slug e) sanitizedSlug) events with
            | None =>
                {| status := 404;
                   body := ErrorBody (str "Event not found")
                             (str "No event exists with slug: "
                                ++ sanitizedSlug) |}
            | Some event =>
                {| status := 200;
                   body := SuccessBody (str "Event fetched successfully")
                             event |}
            end
        end
  end.
End SlugRoute.

(** ** app/events/[slug]/page.tsx *)

(** What the page comes to: an exception, the not-found page, or the
    details of [event] with the list of similar events. *)
Inductive PageResult : Type :=
| PageThrows
| PageNotFound
| PageRenders (event : Event) (similarEvents : list Event).

Section EventPage.
Context {uc : UnicodeCase}.

(** [EventDetailsPage].  The page fetches the slug route with its own
    parameter and gets the body that [GET] answers.  The body is
    destructured as [{ event: { description, ... } }], which throws when
    it has no [event]; an empty [description] leads to [notFound()]. *)
Definition EventDetailsPage (db : result (list Event)) (slug0 : jsstring)
  : PageResult :=
  match bodyEvent (GET db (Some slug0)) with
  | None => PageThrows
  | Some e =>
      if eqb_str (description e) [] then PageNotFound
      else PageRenders e (getSimilarEventsBySlug db slug0)
  end.
End EventPage.

(** ** lib/mongodb.ts *)

(** A promise of [mongoose.connect] with what it settles to: a Mongoose
    instance (a number) or a rejection. *)
Inductive Settled : Type :=
| Fulfilled (instance : N)
| Rejected (reason : N).

Record MongooseCache := {
  conn : option N;
  promise : option Settled
}.

Inductive ConnectError : Type :=
| MissingURI
| ConnectRejected (reason : N).

(** [dbConnect].  [connect] is what the promise of [mongoose.connect]
    settles to if the call is made.  The result comes with the cache as
    it is afterwards and with the number of calls of [mongoose.connect]. *)
Definition dbConnect (MONGODB_URI : option jsstring) (connect : Settled)
    (cached : MongooseCache) : (ConnectError + N) * MongooseCache * nat :=
  match MONGODB_URI with
  | None | Some [] => (inl MissingURI, cached, 0%nat)
  | Some _ =>
      match conn cached with
      | Some c => (inr c, cached, 0%nat)
      | None =>
          let (p, calls) :=
            match promise cached with
            | Some p => (p, 0%nat)
            | None => (connect, 1%nat)
            end in
          match p with
          | Fulfilled c =>
              (inr c, {| conn := Some c; promise := Some p |}, calls)
          | Rejected reason =>
              (inl (ConnectRejected reason),
               {| conn := None; promise := None |}, calls)
          end
      end
  end.

(** Calls of [dbConnect] one after the other, each with the outcome that
    [mongoose.connect] would have at that moment: the results, the last
    cache and the number of calls of [mongoose.connect]. *)
Fixpoint dbConnectAll (uri : option jsstring) (outcomes : list Settled)
    (cached : MongooseCache) : list (ConnectError + N) * MongooseCache * nat :=
  match outcomes with
  | [] => ([], cached, 0%nat)
  | o :: rest =>
      let '(r, cached1, n1) := dbConnect uri o cached in
      let '(rs, cached2, n2) := dbConnectAll uri rest cached1 in
      (r :: rs, cached2, (n1 + n2)%nat)
  end.

Definition emptyCache : MongooseCache := {| conn := None; promise := None |}.

(** ** More on saving events *)

Definition extUnit (c : N) : bool := slugUnit c || (c =? underscore).

(** The identifiers and the slugs of the collection are pairwise
    different. *)
Definition uniqueKeys (events : list Event) : Prop :=
  NoDup (map _id events) /\ NoDup (map slug events).

(** The second event with the title "DevCon", as it is stored. *)
Definition devConSecond : Event :=
  set_time
    (set_date (set_slug (this (newEvent 2 devCon)) (str "devcon-1"))
       (str "2025-03-03"))
    (str "09:30").

(** The route parameter is missing, empty, or nothing is left of it
    after trimming and lower-casing. *)
Definition blankSlug {uc : UnicodeCase} (slug0 : option jsstring) : Prop :=
  match slug0 with
  | None => True
  | Some s => sanitizeSlug s = []
  end.

(** An event whose title has no word character. *)
Definition bangEvent : Event :=
  {| _id := 0; title := str "!!!"; slug := [];
     description := str "A conference"; overview := str "Talks";
     image := str "https://img/bang.png"; venue := str "Hall 1";
     location := str "Berlin"; date := str "2025-03-03"; time := str "9:30 AM";
     mode := str "offline"; audience := str "Developers";
     agenda := [Some (str "Keynote")]; organizer := str "DevOrg";
     tags := [Some (str "ai")] |}.

Definition bangStored : Event :=
  set_time
    (set_date (set_slug (this (newEvent 4 bangEvent)) [])
       (str "2025-03-03"))
    (str "09:30").

(** Every booking is for a stored event. *)
Definition bookingsRefer (events : list Event) (bookings : list Booking)
  : Prop :=
  forall b, In b bookings -> findById events (eventId b) <> None.

(** The declarative reading of [EMAIL_REGEX]: a part, "@", a part, ".",
    a part, where a part is a non-empty string without white space and
    without "@". *)
Definition emailPart (s : jsstring) : Prop :=
  s <> [] /\ Forall (fun c => isPartUnit c = true) s.

Definition emailShape (s : jsstring) : Prop :=
  exists a b c, emailPart a /\ emailPart b /\ emailPart c /\
    s = a ++ at_sign :: b ++ dot :: c.

(** What calls of [dbConnect] one after the other are expected to
    return, from the empty cache: the rejection of each attempt up to the
    first connection, and that connection from then on. *)
Fixpoint expectedResults (outcomes : list Settled) : list (ConnectError + N) :=
  match outcomes with
  | [] => []
  | Rejected reason :: rest =>
      inl (ConnectRejected reason) :: expectedResults rest
  | Fulfilled c :: rest => inr c :: map (fun _ => inr c) rest
  end.

Fixpoint attempts (outcomes : list Settled) : nat :=
  match outcomes with
  | [] => 0
  | Rejected _ :: rest => S (attempts rest)
  | Fulfilled _ :: _ => 1
  end.

Fixpoint firstConnection (outcomes : list Settled) : option N :=
  match outcomes with
  | [] => None
  | Rejected _ :: rest => firstConnection rest
  | Fulfilled c :: _ => Some c
  end.

(** * Properties *)

(** ** Evaluations

    Closed terms are evaluated on the host [basicLatin]. *)

Example generateSlug_hello :
  generateSlug (str "Hello, World!  2025") = str "hello-world-2025".
Proof. reflexivity. Qed.
Example normalizeTime_ex1 : normalizeTime (str "2:30 PM") = Ok (str "14:30").
Proof. reflexivity. Qed.
Example normalizeTime_ex2 :
  normalizeTime (str "25:00") = Err (InvalidFormat (str "25:00")).
Proof. reflexivity. Qed.
Example normalizeTime_ex3 : normalizeTime (str "13:00 PM") = Ok (str "25:00").
Proof. reflexivity. Qed.
Example normalizeTime_ex4 : normalizeTime (str " 9:05pm ") = Ok (str "21:05").
Proof. reflexivity. Qed.
Example normalizeTime_ex5 : normalizeTime (str "10:99") = Ok (str "10:99").
Proof. reflexivity. Qed.
Example normalizeTime_ex6 : normalizeTime (str "12:00 AM") = Ok (str "00:00").
Proof. reflexivity. Qed.
Example EMAIL_REGEX_ex1 : EMAIL_REGEX_test (str "ada@example.com") = true.
Proof. reflexivity. Qed.
Example EMAIL_REGEX_ex2 : EMAIL_REGEX_test (str "ada@example.") = false.
Proof. reflexivity. Qed.
Example EMAIL_REGEX_ex3 : EMAIL_REGEX_test (str "ada@@example.com") = false.
Proof. reflexivity. Qed.
Example EMAIL_REGEX_ex4 : EMAIL_REGEX_test (str "a da@example.com") = false.
Proof. reflexivity. Qed.
Example toISOString_ex1 :
  JSDate.toISOString 1740960000000 = str "2025-03-03T00:00:00.000Z".
Proof. reflexivity. Qed.
Example toISOString_ex2 :
  JSDate.toISOString (-1) = str "1969-12-31T23:59:59.999Z".
Proof. reflexivity. Qed.
Example toISOString_ex3 :
  JSDate.toISOString 951782400000 = str "2000-02-29T00:00:00.000Z".
Proof. reflexivity. Qed.
Example toISOString_ex4 :
  JSDate.toISOString 8640000000000000 = str "+275760-09-13T00:00:00.000Z".
Proof. reflexivity. Qed.
Example toISOString_ex5 :
  JSDate.toISOString (-62198755200000) = str "-000001-01-01T00:00:00.000Z".
Proof. reflexivity. Qed.
Example normalizeDate_ex1 :
  @normalizeDate isoOnly (str "2024-12-31") = Ok (str "2024-12-31").
Proof. reflexivity. Qed.
Example normalizeDate_ex2 :
  @normalizeDate isoOnly (str "+010000-01-01") = Ok (str "+010000-01-01").
Proof. reflexivity. Qed.

(** ** Strings *)

Lemma inRange_spec (lo hi c : N) : inRange lo hi c = true <-> lo <= c <= hi.
Proof.
  unfold inRange. rewrite andb_true_iff, !N.leb_le. tauto.
Qed.

Lemma eqb_str_spec (a b : jsstring) : eqb_str a b = true <-> a = b.
Proof.
  unfold eqb_str. destruct (list_eq_dec N.eq_dec a b); split; congruence.
Qed.

Lemma eqb_str_refl (a : jsstring) : eqb_str a a = true.
Proof. apply eqb_str_spec; reflexivity. Qed.

Lemma eqb_str_neq (a b : jsstring) : eqb_str a b = false <-> a <> b.
Proof.
  unfold eqb_str. destruct (list_eq_dec N.eq_dec a b); split; congruence.
Qed.

Lemma dropWhile_suffix (p : N -> bool) (s : jsstring) :
  exists l, s = l ++ dropWhile p s /\ Forall (fun c => p c = true) l.
Proof.
  induction s as [|c t [l [Hl Hp]]]; simpl.
  - exists []; split; [reflexivity | constructor].
  - destruct (p c) eqn:E.
    + exists (c :: l); split; [simpl; congruence | constructor; assumption].
    + exists []; split; [reflexivity | constructor].
Qed.

Lemma dropWhile_Forall (P : N -> Prop) (p : N -> bool) (s : jsstring) :
  Forall P s -> Forall P (dropWhile p s).
Proof.
  intros H. destruct (dropWhile_suffix p s) as [l [Hl _]].
  rewrite Hl in H. apply Forall_app in H. tauto.
Qed.

Lemma dropWhile_head (p : N -> bool) (s : jsstring) (c : N) (t : jsstring) :
  dropWhile p s = c :: t -> p c = false.
Proof.
  induction s as [|a s IH]; simpl; [discriminate|].
  destruct (p a) eqn:E; [assumption|]. intros H; congruence.
Qed.

Lemma dropWhile_none (p : N -> bool) (s : jsstring) :
  match s with [] => True | c :: _ => p c = false end -> dropWhile p s = s.
Proof. destruct s; simpl; [reflexivity|]. intros ->; reflexivity. Qed.

Lemma dropWhile_app_all (p : N -> bool) (l s : jsstring) :
  Forall (fun c => p c = true) l -> dropWhile p (l ++ s) = dropWhile p s.
Proof.
  induction 1 as [|c l Hc _ IH]; simpl; [reflexivity|]. rewrite Hc; exact IH.
Qed.

Lemma Forall_rev_iff (P : N -> Prop) (s : jsstring) :
  Forall P (rev s) <-> Forall P s.
Proof.
  rewrite !Forall_forall. split; intros H x Hx; apply H.
  - apply in_rev in Hx; exact Hx.
  - apply in_rev; exact Hx.
Qed.

Lemma trim_Forall (P : N -> Prop) (s : jsstring) :
  Forall P s -> Forall P (trim s).
Proof.
  intros H. unfold trim, trimEnd, trimStart.
  apply Forall_rev_iff, dropWhile_Forall, Forall_rev_iff, dropWhile_Forall, H.
Qed.

(** ** generateSlug *)

Section SlugFacts.
Context {uc : UnicodeCase}.

Lemma lowerUnit_not_upper (c d : N) :
  In d (lowerUnit c) -> isUpper d = false.
Proof.
  unfold lowerUnit. destruct (isUpper c) eqn:Eu.
  - intros [<- | []]. apply inRange_spec in Eu.
    unfold isUpper, inRange. apply andb_false_iff; right.
    apply N.leb_gt. lia.
  - destruct (c <? 128) eqn:El.
    + intros [<- | []]; assumption.
    + apply lowerOther_not_upper. apply N.ltb_ge in El. exact El.
Qed.

Lemma toLowerCase_not_upper (s : jsstring) :
  Forall (fun c => isUpper c = false) (toLowerCase s).
Proof.
  apply Forall_forall. intros d Hd. unfold toLowerCase in Hd.
  apply in_flat_map in Hd. destruct Hd as [c [_ Hc]].
  eapply lowerUnit_not_upper; eassumption.
Qed.

Lemma replaceRuns_Forall (P : N -> Prop) (p : N -> bool) (r : jsstring)
    (b : bool) (s : jsstring) :
  Forall P r -> Forall (fun c => p c = false -> P c) s ->
  Forall P (replaceRuns p r b s).
Proof.
  intros Hr Hs. revert b.
  induction Hs as [|c t Hc _ IH]; intros b; simpl; [constructor|].
  destruct (p c) eqn:E.
  - destruct b; [apply IH | apply Forall_app; split; [exact Hr | apply IH]].
  - constructor; [apply Hc; reflexivity | apply IH].
Qed.

(** After [collapseHyphens] no hyphen follows a hyphen. *)
Lemma replaceRuns_hyphen_head (b : bool) (s : jsstring) (l : jsstring) :
  replaceRuns isHyphen [hyphen] b s = hyphen :: l ->
  b = false /\ forall l', l <> hyphen :: l'.
Proof.
  revert b l. induction s as [|c t IH]; intros b l; simpl; [discriminate|].
  destruct (isHyphen c) eqn:E.
  - destruct b.
    + intros H. apply IH in H. destruct H; discriminate.
    + simpl. intros H. injection H as H. split; [reflexivity|].
      intros l' ->. apply IH in H. destruct H; discriminate.
  - intros H. injection H as H _. subst c. discriminate.
Qed.

Lemma replaceRuns_hyphen_double (b : bool) (s l1 l2 : jsstring) :
  replaceRuns isHyphen [hyphen] b s <> l1 ++ hyphen :: hyphen :: l2.
Proof.
  revert b l1. induction s as [|c t IH]; intros b l1; simpl.
  - destruct l1; discriminate.
  - destruct (isHyphen c) eqn:E.
    + destruct b; [apply IH|]. simpl.
      destruct l1 as [|a l1]; simpl.
      * intros H. injection H as H.
        apply replaceRuns_hyphen_head in H. destruct H; discriminate.
      * intros H. injection H as _ H. eapply IH; eassumption.
    + destruct l1 as [|a l1]; simpl.
      * intros H. injection H as H _. subst c. discriminate.
      * intros H. injection H as _ H. eapply IH; eassumption.
Qed.

Lemma noDouble_rev (s : jsstring) : noDouble s -> noDouble (rev s).
Proof.
  intros H l1 l2 E. apply (f_equal (@rev N)) in E.
  rewrite rev_involutive in E. rewrite rev_app_distr in E. simpl in E.
  rewrite <- !app_assoc in E. simpl in E. eapply H; eassumption.
Qed.

Lemma noDouble_tail (c : N) (s : jsstring) : noDouble (c :: s) -> noDouble s.
Proof. intros H l1 l2 E. apply (H (c :: l1) l2). simpl; congruence. Qed.

Lemma dropLeadingHyphen_cases (s : jsstring) :
  (s = hyphen :: dropLeadingHyphen s) \/
  (dropLeadingHyphen s = s /\ forall l, s <> hyphen :: l).
Proof.
  destruct s as [|c t]; simpl.
  - right; split; [reflexivity | discriminate].
  - destruct (isHyphen c) eqn:E.
    + left. apply N.eqb_eq in E. congruence.
    + right; split; [reflexivity|]. intros l H. injection H as H _.
      subst c. discriminate.
Qed.

Lemma dropLeadingHyphen_noDouble (s : jsstring) :
  noDouble s -> noDouble (dropLeadingHyphen s).
Proof.
  intros H. destruct (dropLeadingHyphen_cases s) as [E | [E _]].
  - rewrite E in H. eapply noDouble_tail; eassumption.
  - rewrite E; exact H.
Qed.

Lemma dropLeadingHyphen_head (s : jsstring) :
  noDouble s -> forall l, dropLeadingHyphen s <> hyphen :: l.
Proof.
  intros H l E. destruct (dropLeadingHyphen_cases s) as [E' | [E' Hn]].
  - rewrite E in E'. apply (H [] l). exact E'.
  - rewrite E' in E. eapply Hn; eassumption.
Qed.

Lemma dropLeadingHyphen_Forall (P : N -> Prop) (s : jsstring) :
  Forall P s -> Forall P (dropLeadingHyphen s).
Proof.
  intros H. destruct s as [|c t]; simpl; [constructor|].
  destruct (isHyphen c); [inversion H; assumption | exact H].
Qed.

Lemma stripHyphenEnds_Forall (P : N -> Prop) (s : jsstring) :
  Forall P s -> Forall P (stripHyphenEnds s).
Proof.
  intros H. unfold stripHyphenEnds.
  apply Forall_rev_iff, dropLeadingHyphen_Forall, Forall_rev_iff,
    dropLeadingHyphen_Forall, H.
Qed.

Lemma stripHyphenEnds_noDouble (s : jsstring) :
  noDouble s -> noDouble (stripHyphenEnds s).
Proof.
  intros H. unfold stripHyphenEnds.
  apply noDouble_rev, dropLeadingHyphen_noDouble, noDouble_rev,
    dropLeadingHyphen_noDouble, H.
Qed.

Lemma stripHyphenEnds_trail (s : jsstring) :
  noDouble s -> forall l, stripHyphenEnds s <> l ++ [hyphen].
Proof.
  intros H l E. unfold stripHyphenEnds in E.
  apply (f_equal (@rev N)) in E. rewrite rev_involutive in E.
  rewrite rev_app_distr in E. simpl in E.
  revert E. apply dropLeadingHyphen_head.
  apply noDouble_rev, dropLeadingHyphen_noDouble, H.
Qed.

Lemma stripHyphenEnds_lead (s : jsstring) :
  noDouble s -> forall l, stripHyphenEnds s <> hyphen :: l.
Proof.
  intros H l E. unfold stripHyphenEnds in E.
  pose proof (dropLeadingHyphen_head s H) as Hs1.
  set (s1 := dropLeadingHyphen s) in *.
  destruct (dropLeadingHyphen_cases (rev s1)) as [E' | [E' _]].
  - apply (f_equal (@rev N)) in E'. rewrite rev_involutive in E'.
    simpl in E'. rewrite E in E'. simpl in E'. eapply Hs1; eassumption.
  - rewrite E', rev_involutive in E. eapply Hs1; eassumption.
Qed.
End SlugFacts.

Section SlugTheorems.
Context {uc : UnicodeCase}.

Lemma removeSpecial_units (s : jsstring) :
  Forall (fun c => isUpper c = false) s ->
  Forall (fun c => isSpace c = false ->
            (slugUnit c || (c =? underscore)) = true /\ isUpper c = false)
    (removeSpecial s).
Proof.
  intros H. unfold removeSpecial. apply Forall_forall. intros c Hc.
  apply filter_In in Hc. destruct Hc as [Hin Hk].
  rewrite Forall_forall in H. specialize (H c Hin).
  intros Hs. split; [|exact H].
  unfold isWord in Hk. rewrite H, Hs in Hk. simpl in Hk.
  unfold slugUnit. 
  destruct (isLower c), (isDigit c), (isHyphen c), (c =? underscore);
    simpl in *; congruence.
Qed.

(** C1, as amended: for every title, [generateSlug] returns a lower-case
    string over [a-z0-9_-] (the underscore is a word character, so it
    stays) with no hyphen in front, none at the end and no two hyphens in
    a row. *)
Theorem generateSlug_well_formed (title : jsstring) :
  WellFormedSlug (fun c => slugUnit c || (c =? underscore)) (generateSlug title).
Proof.
  unfold generateSlug.
  set (s3 := removeSpecial (trim (toLowerCase title))).
  assert (H3 : Forall (fun c => isSpace c = false ->
            (slugUnit c || (c =? underscore)) = true /\ isUpper c = false) s3).
  { apply removeSpecial_units, trim_Forall, toLowerCase_not_upper. }
  assert (H4 : Forall (fun c => (slugUnit c || (c =? underscore)) = true
                                /\ isUpper c = false) (spacesToHyphen s3)).
  { unfold spacesToHyphen. apply replaceRuns_Forall.
    - repeat constructor.
    - exact H3. }
  assert (H5 : Forall (fun c => (slugUnit c || (c =? underscore)) = true
                                /\ isUpper c = false)
                 (collapseHyphens (spacesToHyphen s3))).
  { unfold collapseHyphens. apply replaceRuns_Forall.
    - repeat constructor.
    - eapply Forall_impl; [|exact H4]. intros c Hc _; exact Hc. }
  assert (Hd : noDouble (collapseHyphens (spacesToHyphen s3))).
  { intros l1 l2. apply replaceRuns_hyphen_double. }
  apply (stripHyphenEnds_Forall _ _) in H5.
  constructor.
  - eapply Forall_impl; [|exact H5]. intros c [Hc _]; exact Hc.
  - eapply Forall_impl; [|exact H5]. intros c [_ Hc]; exact Hc.
  - apply stripHyphenEnds_lead, Hd.
  - apply stripHyphenEnds_trail, Hd.
  - apply stripHyphenEnds_noDouble, Hd.
Qed.
End SlugTheorems.

(** C1, as stated, fails: the underscore of "a_b" is kept, and it is not
    in [a-z0-9-]. *)
Lemma generateSlug_keeps_underscore :
  generateSlug (str "a_b") = str "a_b" /\
  ~ WellFormedSlug slugUnit (generateSlug (str "a_b")).
Proof.
  split; [reflexivity|]. intros [H _ _ _ _].
  change (generateSlug (str "a_b")) with [97; 95; 98] in H.
  inversion H as [|? ? _ H']; subst. inversion H' as [|? ? Hu _]; subst.
  discriminate Hu.
Qed.

(** ** normalizeTime *)

Lemma isDigit_cases (c : N) :
  isDigit c = true -> In c [48; 49; 50; 51; 52; 53; 54; 55; 56; 57].
Proof.
  intros H. apply inRange_spec in H. simpl.
  assert (c = 48 \/ c = 49 \/ c = 50 \/ c = 51 \/ c = 52 \/ c = 53 \/ c = 54
          \/ c = 55 \/ c = 56 \/ c = 57) by lia.
  intuition auto.
Qed.

Lemma isDigit_plain (c : N) :
  isDigit c = true -> isSpace c = false /\ isLower c = false /\ (c <? 128) = true.
Proof.
  intros H. apply isDigit_cases in H. simpl in H.
  repeat (destruct H as [<- | H]; [repeat split; reflexivity|]). destruct H.
Qed.

Lemma isSpace_basic (c : N) :
  isSpace c = true -> (c <? 128) = true -> c <= 32.
Proof.
  unfold isSpace. rewrite !orb_true_iff, !inRange_spec, !N.eqb_eq, N.ltb_lt. lia.
Qed.

Lemma trim_fixed (a : N) (m : jsstring) (b : N) :
  isSpace a = false -> isSpace b = false ->
  trim (a :: m ++ [b]) = a :: m ++ [b].
Proof.
  intros Ha Hb. unfold trim, trimStart, trimEnd. simpl. rewrite Ha.
  replace (rev (a :: m ++ [b])) with (b :: rev m ++ [a]).
  - simpl. rewrite Hb. simpl. rewrite rev_app_distr, rev_involutive. reflexivity.
  - simpl. rewrite rev_app_distr. reflexivity.
Qed.

Section TimeFacts.
Context {uc : UnicodeCase}.

Lemma toUpperCase_app (a b : jsstring) :
  toUpperCase (a ++ b) = toUpperCase a ++ toUpperCase b.
Proof. apply flat_map_app. Qed.

Lemma toUpperCase_fixed (s : jsstring) :
  Forall (fun c => isLower c = false /\ (c <? 128) = true) s ->
  toUpperCase s = s.
Proof.
  induction 1 as [|c t [Hl Ha] _ IH]; [reflexivity|].
  unfold toUpperCase in *. simpl. unfold upperUnit at 1.
  rewrite Hl, Ha. simpl. congruence.
Qed.

Lemma toUpperCase_digits (s : jsstring) : digits s -> toUpperCase s = s.
Proof.
  intros H. apply toUpperCase_fixed. eapply Forall_impl; [|exact H].
  intros c Hc. apply isDigit_plain in Hc. tauto.
Qed.

Lemma matchHourMinute_spec (hs : jsstring) (m1 m2 : N) (rest : jsstring) :
  digits hs -> (1 <= List.length hs <= 2)%nat ->
  isDigit m1 = true -> isDigit m2 = true ->
  matchHourMinute (hs ++ colon :: m1 :: m2 :: rest) = Some (hs, [m1; m2], rest).
Proof.
  intros Hd Hl H1 H2.
  destruct hs as [|h1 [|h2 [|h3 hs]]]; simpl in Hl; try lia.
  - inversion Hd as [|? ? Hh _]; subst.
    unfold matchHourMinute. 
    assert (E : hourMinute2 ([h1] ++ colon :: m1 :: m2 :: rest) = None).
    { simpl. destruct rest; [reflexivity|]. rewrite Hh. reflexivity. }
    rewrite E. simpl. rewrite Hh, H1, H2. reflexivity.
  - inversion Hd as [|? ? Hh1 Hd']; subst.
    inversion Hd' as [|? ? Hh2 _]; subst.
    unfold matchHourMinute. simpl. rewrite Hh1, Hh2, H1, H2. reflexivity.
Qed.

(** The text of the time after [trim] and [toUpperCase], for an input
    made of hour digits, ":", two minute digits and an optional tail. *)
Lemma normalizeTime_24_shape (hs : jsstring) (m1 m2 : N) :
  digits hs -> (1 <= List.length hs <= 2)%nat ->
  isDigit m1 = true -> isDigit m2 = true ->
  toUpperCase (trim (hs ++ [colon; m1; m2])) = hs ++ [colon; m1; m2].
Proof.
  intros Hd Hl H1 H2.
  assert (Hall : digits (hs ++ [m1; m2])).
  { apply Forall_app; split; [exact Hd | repeat constructor; assumption]. }
  assert (E : trim (hs ++ [colon; m1; m2]) = hs ++ [colon; m1; m2]).
  { destruct hs as [|h hs]; [simpl in Hl; lia|].
    inversion Hd as [|? ? Hh _]; subst.
    replace ((h :: hs) ++ [colon; m1; m2]) with (h :: (hs ++ [colon; m1]) ++ [m2])
      by (simpl; rewrite <- app_assoc; reflexivity).
    rewrite trim_fixed.
    - reflexivity.
    - apply isDigit_plain in Hh; tauto.
    - apply isDigit_plain in H2; tauto. }
  rewrite E. apply toUpperCase_fixed.
  apply Forall_app; split.
  - eapply Forall_impl; [|exact Hd]. intros c Hc; apply isDigit_plain in Hc; tauto.
  - repeat constructor; try (apply isDigit_plain in H1; tauto);
      apply isDigit_plain in H2; tauto.
Qed.

(** 24-hour input with an hour up to 23: the first branch returns. *)
Lemma normalizeTime_24 (hs : jsstring) (m1 m2 : N) :
  digits hs -> (1 <= List.length hs <= 2)%nat ->
  isDigit m1 = true -> isDigit m2 = true ->
  parseInt hs <= 23 ->
  normalizeTime (hs ++ [colon; m1; m2]) = Ok (formatTime (parseInt hs) [m1; m2]).
Proof.
  intros Hd Hl H1 H2 Hh. unfold normalizeTime.
  rewrite normalizeTime_24_shape by assumption.
  unfold normalizeTime24, time24Match.
  rewrite (matchHourMinute_spec hs m1 m2 []) by assumption.
  assert (H0 : (0 <=? parseInt hs) = true) by (apply N.leb_le; lia).
  apply N.leb_le in Hh. rewrite H0, Hh. reflexivity.
Qed.

(** 12-hour input: the second branch returns, whatever the hour. *)
Lemma normalizeTime_12 (hs : jsstring) (m1 m2 : N) (ws : jsstring) (a m : N) :
  digits hs -> (1 <= List.length hs <= 2)%nat ->
  isDigit m1 = true -> isDigit m2 = true ->
  Forall (fun c => isSpace c = true /\ (c <? 128) = true) ws ->
  In a [65; 97; 80; 112] -> In m [77; 109] ->
  normalizeTime (hs ++ colon :: m1 :: m2 :: ws ++ [a; m]) =
  Ok (formatTime
        (to24Hour (parseInt hs) (if isPM a then PM else AM)) [m1; m2]).
Proof.
  intros Hd Hl H1 H2 Hws Ha Hm. unfold normalizeTime.
  set (p := if isPM a then PM else AM).
  assert (Hp : toUpperCase [a; m] = p /\ isSpace m = false).
  { simpl in Ha, Hm. subst p.
    destruct Ha as [<- | [<- | [<- | [<- | []]]]];
      destruct Hm as [<- | [<- | []]]; split; reflexivity. }
  destruct Hp as [Hp Hms].
  assert (E : toUpperCase (trim (hs ++ colon :: m1 :: m2 :: ws ++ [a; m]))
              = hs ++ colon :: m1 :: m2 :: ws ++ p).
  { destruct hs as [|h hs]; [simpl in Hl; lia|].
    inversion Hd as [|? ? Hh Hd']; subst.
    replace ((h :: hs) ++ colon :: m1 :: m2 :: ws ++ [a; m])
      with (h :: (hs ++ colon :: m1 :: m2 :: ws ++ [a]) ++ [m])
      by (simpl; rewrite <- !app_assoc; simpl; rewrite <- !app_assoc; reflexivity).
    rewrite trim_fixed; [| apply isDigit_plain in Hh; tauto | exact Hms].
    replace (h :: (hs ++ colon :: m1 :: m2 :: ws ++ [a]) ++ [m])
      with (((h :: hs) ++ [colon; m1; m2]) ++ ws ++ [a; m])
      by (simpl; rewrite <- !app_assoc; simpl; rewrite <- !app_assoc; reflexivity).
    rewrite !toUpperCase_app, Hp.
    rewrite (toUpperCase_digits (h :: hs)) by exact Hd.
    rewrite (toUpperCase_fixed [colon; m1; m2]).
    - rewrite (toUpperCase_fixed ws).
      + rewrite <- app_assoc. reflexivity.
      + eapply Forall_impl; [|exact Hws]. intros c [Hc1 Hc2]. split; [|exact Hc2].
        pose proof (isSpace_basic c Hc1 Hc2). unfold isLower, inRange.
        apply andb_false_iff; left. apply N.leb_gt. lia.
    - repeat constructor; try (apply isDigit_plain in H1; tauto);
        apply isDigit_plain in H2; tauto. }
  rewrite E.
  assert (Hne : ws ++ p <> []).
  { subst p. destruct (isPM a); destruct ws; discriminate. }
  assert (E24 : normalizeTime24 (hs ++ colon :: m1 :: m2 :: ws ++ p) = None).
  { unfold normalizeTime24, time24Match.
    rewrite matchHourMinute_spec by assumption.
    destruct (ws ++ p); [contradiction Hne; reflexivity | reflexivity]. }
  rewrite E24. unfold time12Match.
  rewrite matchHourMinute_spec by assumption.
  rewrite dropWhile_app_all
    by (eapply Forall_impl; [|exact Hws]; intros c Hc; exact (proj1 Hc)).
  assert (Edw : dropWhile isSpace p = p) by (subst p; destruct (isPM a); reflexivity).
  rewrite Edw.
  assert (Eeq : eqb_str p AM || eqb_str p PM = true)
    by (subst p; destruct (isPM a); reflexivity).
  rewrite Eeq. reflexivity.
Qed.

Lemma to24Hour_hour24 (h : N) (pm : bool) :
  1 <= h <= 12 -> to24Hour h (if pm then PM else AM) = hour24 h pm.
Proof.
  intros Hh. unfold to24Hour, hour24.
  destruct (N.eq_dec h 12) as [-> | Hne].
  - destruct pm; reflexivity.
  - assert (E : (h =? 12) = false) by (apply N.eqb_neq; exact Hne).
    rewrite N.mod_small by lia.
    destruct pm; simpl; rewrite E; simpl; [reflexivity | lia].
Qed.
End TimeFacts.

Ltac digit_cases H :=
  apply isDigit_cases in H; simpl in H;
  repeat (destruct H as [<- | H]); try (destruct H).

Section TimeTheorems.
Context {uc : UnicodeCase}.

Lemma formatTime_one_digit (h m1 m2 : N) :
  isDigit h = true -> formatTime (parseInt [h]) [m1; m2] = [48; h; colon; m1; m2].
Proof. intros H. digit_cases H; reflexivity. Qed.

Lemma formatTime_two_digits (h1 h2 m1 m2 : N) :
  isDigit h1 = true -> isDigit h2 = true ->
  formatTime (parseInt [h1; h2]) [m1; m2] = [h1; h2; colon; m1; m2].
Proof. intros H1 H2. digit_cases H1; digit_cases H2; reflexivity. Qed.

(** C7: a valid time comes back as the zero-padded 24-hour HH:MM.
    24-hour input with one hour digit gains a leading zero, with two hour
    digits (hour at most 23) it is returned as it is; 12-hour input with
    an hour from 1 to 12 is converted, AM or PM in either case, midnight
    being 00 and noon 12. *)
Theorem normalizeTime_valid :
  (forall h m1 m2,
     isDigit h = true -> isDigit m1 = true -> isDigit m2 = true ->
     parseInt [m1; m2] <= 59 ->
     normalizeTime [h; colon; m1; m2] = Ok [48; h; colon; m1; m2]) /\
  (forall h1 h2 m1 m2,
     isDigit h1 = true -> isDigit h2 = true ->
     isDigit m1 = true -> isDigit m2 = true ->
     parseInt [h1; h2] <= 23 -> parseInt [m1; m2] <= 59 ->
     normalizeTime [h1; h2; colon; m1; m2] = Ok [h1; h2; colon; m1; m2]) /\
  (forall hs m1 m2 ws a m,
     digits hs -> (1 <= List.length hs <= 2)%nat ->
     isDigit m1 = true -> isDigit m2 = true ->
     1 <= parseInt hs <= 12 -> parseInt [m1; m2] <= 59 ->
     Forall (fun c => isSpace c = true /\ (c <? 128) = true) ws ->
     In a [65; 97; 80; 112] -> In m [77; 109] ->
     normalizeTime (hs ++ colon :: m1 :: m2 :: ws ++ [a; m]) =
     Ok (padStart0 2 (toString (hour24 (parseInt hs) (isPM a)))
           ++ [colon; m1; m2])) /\
  normalizeTime (str "2:30") = Ok (str "02:30") /\
  normalizeTime (str "2:30 PM") = Ok (str "14:30") /\
  normalizeTime (str "12:00 AM") = Ok (str "00:00") /\
  normalizeTime (str "12:00 PM") = Ok (str "12:00").
Proof.
  repeat split; try reflexivity.
  - intros h m1 m2 Hh H1 H2 _.
    rewrite (normalizeTime_24 [h] m1 m2); simpl; try lia; try assumption.
    + rewrite formatTime_one_digit by assumption. reflexivity.
    + repeat constructor; assumption.
    + digit_cases Hh; vm_compute; discriminate.
  - intros h1 h2 m1 m2 Hh1 Hh2 H1 H2 Hle _.
    rewrite (normalizeTime_24 [h1; h2] m1 m2); simpl; try lia; try assumption.
    + rewrite formatTime_two_digits by assumption. reflexivity.
    + repeat constructor; assumption.
  - intros hs m1 m2 ws a m Hd Hl H1 H2 Hh _ Hws Ha Hm.
    rewrite normalizeTime_12 by assumption.
    rewrite <- (to24Hour_hour24 (parseInt hs) (isPM a) Hh).
    reflexivity.
Qed.

(** C10: the minutes are not range-checked.  24-hour input with an hour
    up to 23 succeeds whatever its two minute digits are, and they come
    back as they are, after the two digits of the hour; "10:99" gives
    "10:99". *)
Theorem normalizeTime_minutes_verbatim :
  (forall hs m1 m2,
     digits hs -> (1 <= List.length hs <= 2)%nat ->
     isDigit m1 = true -> isDigit m2 = true ->
     parseInt hs <= 23 ->
     normalizeTime (hs ++ [colon; m1; m2]) =
     Ok (padStart0 2 (toString (parseInt hs)) ++ [colon; m1; m2])) /\
  normalizeTime (str "10:99") = Ok (str "10:99").
Proof.
  split; [|reflexivity].
  intros hs m1 m2 Hd Hl H1 H2 Hh.
  rewrite normalizeTime_24 by assumption. reflexivity.
Qed.

(** The 12-hour branch has no check of the hour: with "PM" every hour
    other than 12 gets 12 more. *)
Lemma normalizeTime_12_unchecked (h1 h2 m1 m2 : N) :
  isDigit h1 = true -> isDigit h2 = true ->
  isDigit m1 = true -> isDigit m2 = true ->
  parseInt [h1; h2] <> 12 ->
  normalizeTime ([h1; h2; colon; m1; m2] ++ str " PM") =
  Ok (formatTime (parseInt [h1; h2] + 12) [m1; m2]).
Proof.
  intros Hh1 Hh2 H1 H2 Hne.
  change ([h1; h2; colon; m1; m2] ++ str " PM")
    with ([h1; h2] ++ colon :: m1 :: m2 :: [32] ++ [80; 77]).
  rewrite normalizeTime_12; simpl; try lia; try tauto.
  - unfold to24Hour. apply N.eqb_neq in Hne. cbn [isPM N.eqb Pos.eqb orb].
    rewrite eqb_str_refl, Hne. reflexivity.
  - repeat constructor; assumption.
  - repeat constructor.
Qed.
End TimeTheorems.

(** [normalizeTime] fails when neither pattern accepts the trimmed,
    upper-cased input, and only then; the error carries the input. *)
Lemma normalizeTime_Err_iff {uc : UnicodeCase} (s : jsstring) (e : error) :
  normalizeTime s = Err e <->
  e = InvalidFormat s /\
  normalizeTime24 (toUpperCase (trim s)) = None /\
  time12Match (toUpperCase (trim s)) = None.
Proof.
  unfold normalizeTime.
  destruct (normalizeTime24 (toUpperCase (trim s))).
  - split; [discriminate | intros [_ [H _]]; discriminate H].
  - destruct (time12Match (toUpperCase (trim s))) as [[[h m] p]|].
    + split; [discriminate | intros [_ [_ H]]; discriminate H].
    + split; [intros H; injection H as <-; auto | intros [-> _]; reflexivity].
Qed.

(** C2 at "13:00 PM": the claim has the call fail with InvalidFormat, the
    code returns "25:00" ("25:00" itself is refused, as the claim says). *)
Theorem normalizeTime_13_00_PM :
  normalizeTime (str "13:00 PM") = Ok (str "25:00") /\
  normalizeTime (str "25:00") = Err (InvalidFormat (str "25:00")).
Proof. split; reflexivity. Qed.

Lemma normalizeTime_valid_witness :
  normalizeTime (str "7:45") = Ok (str "07:45") /\
  normalizeTime (str "23:59") = Ok (str "23:59") /\
  normalizeTime (str "11:05  pm") = Ok (str "23:05").
Proof.
  destruct (@normalizeTime_valid basicLatin) as [Ha [Hb [Hc _]]].
  split; [|split].
  - apply (Ha 55 52 53); try reflexivity. vm_compute; discriminate.
  - apply (Hb 50 51 53 57); try reflexivity; vm_compute; discriminate.
  - apply (Hc [49; 49] 48 53 [32; 32] 112 109).
    + repeat constructor.
    + simpl; lia.
    + reflexivity.
    + reflexivity.
    + vm_compute. split; discriminate.
    + vm_compute; discriminate.
    + repeat constructor.
    + simpl; tauto.
    + simpl; tauto.
Defined.

Lemma normalizeTime_minutes_verbatim_witness :
  normalizeTime (str "9:75") = Ok (str "09:75").
Proof.
  apply (proj1 (@normalizeTime_minutes_verbatim basicLatin) [57] 55 53).
  - repeat constructor.
  - simpl; lia.
  - reflexivity.
  - reflexivity.
  - vm_compute; discriminate.
Defined.

(** ** The calendar of [Date] and normalizeDate *)

Module JSDateFacts.
Import JSDate.
Local Open Scope Z_scope.

Lemma below_forallb (k : nat) (p : Z -> bool) :
  forallb p (map Z.of_nat (seq 0 k)) = true ->
  forall v, 0 <= v < Z.of_nat k -> p v = true.
Proof.
  intros H v Hv. rewrite forallb_forall in H. apply H.
  apply in_map_iff. exists (Z.to_nat v). split; [lia|].
  apply in_seq. lia.
Qed.

(** The calendar repeats every 400 years, which are 146097 days. *)
Lemma DayFromYear_period (q r : Z) :
  DayFromYear (400 * q + r) = 146097 * q + DayFromYear r.
Proof. unfold DayFromYear. Z.div_mod_to_equations. lia. Qed.

Lemma isLeap_period (q r : Z) : isLeap (400 * q + r) = isLeap r.
Proof.
  unfold isLeap.
  replace ((400 * q + r) mod 4) with (r mod 4) by (Z.div_mod_to_equations; lia).
  replace ((400 * q + r) mod 100) with (r mod 100)
    by (Z.div_mod_to_equations; lia).
  replace ((400 * q + r) mod 400) with (r mod 400)
    by (Z.div_mod_to_equations; lia).
  reflexivity.
Qed.

Lemma DayFromYear_next (y : Z) :
  DayFromYear (y + 1) = DayFromYear y + DaysInYear y.
Proof.
  pose proof (Z.div_mod y 400 ltac:(lia)) as E.
  pose proof (Z.mod_pos_bound y 400 ltac:(lia)) as Hr.
  set (q := y / 400) in *. set (r := y mod 400) in *. rewrite E.
  replace (400 * q + r + 1) with (400 * q + (r + 1)) by lia.
  unfold DaysInYear. rewrite !DayFromYear_period, isLeap_period.
  enough (H : DayFromYear (r + 1) = DayFromYear r + (if isLeap r then 366 else 365))
    by lia.
  apply Z.eqb_eq.
  apply (below_forallb (Z.to_nat 400)
           (fun v => DayFromYear (v + 1) =?
                     DayFromYear v + (if isLeap v then 366 else 365))).
  - vm_compute. reflexivity.
  - exact Hr.
Qed.

Lemma YearFromDay_bracket (d : Z) :
  DayFromYear (YearFromDay d) <= d < DayFromYear (YearFromDay d + 1).
Proof.
  unfold YearFromDay. cbv zeta.
  set (y0 := 1970 + 400 * d / 146097).
  assert (Hlo : DayFromYear (y0 - 1) <= d)
    by (subst y0; unfold DayFromYear; Z.div_mod_to_equations; lia).
  assert (Hhi : d < DayFromYear (y0 + 2))
    by (subst y0; unfold DayFromYear; Z.div_mod_to_equations; lia).
  destruct (Z.ltb_spec d (DayFromYear y0)).
  - replace (y0 - 1 + 1) with y0 by lia. lia.
  - destruct (Z.leb_spec (DayFromYear (y0 + 1)) d).
    + replace (y0 + 1 + 1) with (y0 + 2) by lia. lia.
    + lia.
Qed.

(** [YearFromDay d] is the year that ECMAScript defines: the largest
    [y] whose first day is not after [d]. *)
Lemma DayFromYear_mono (y y' : Z) : y <= y' -> DayFromYear y <= DayFromYear y'.
Proof. unfold DayFromYear. intros H. Z.div_mod_to_equations. lia. Qed.

Lemma YearFromDay_largest (d y : Z) :
  DayFromYear y <= d -> y <= YearFromDay d.
Proof.
  intros H. destruct (Z.le_gt_cases y (YearFromDay d)) as [Hle | Hgt]; [exact Hle|].
  pose proof (YearFromDay_bracket d) as [_ Hb].
  pose proof (DayFromYear_mono (YearFromDay d + 1) y). lia.
Qed.

Lemma dayWithinYear_range (d : Z) :
  0 <= d - DayFromYear (YearFromDay d) < DaysInYear (YearFromDay d).
Proof.
  pose proof (YearFromDay_bracket d) as H.
  rewrite DayFromYear_next in H. lia.
Qed.

Lemma month_date_range (leap n : Z) :
  (leap = 0 \/ leap = 1) -> 0 <= n < 365 + leap ->
  0 <= monthOfDay leap n <= 11 /\
  1 <= n - monthStart leap (monthOfDay leap n) + 1 <= 31.
Proof.
  intros Hl Hn. unfold monthOfDay.
  repeat match goal with
         | |- context [if ?a <? ?b then _ else _] =>
             destruct (Z.ltb_spec a b); [unfold monthStart; lia|]
         end.
  unfold monthStart; lia.
Qed.

Lemma digitsOf_digits (u : Decimal.uint) : digits (digitsOf u).
Proof. induction u; simpl; constructor; auto; reflexivity. Qed.

Lemma pad_digits (k : nat) (v : Z) : digits (pad k v).
Proof.
  unfold pad, padStart0. apply Forall_app; split.
  - apply Forall_forall. intros c Hc. apply repeat_spec in Hc. subst; reflexivity.
  - apply digitsOf_digits.
Qed.

Lemma pad2_length (v : Z) : 0 <= v < 100 -> List.length (pad 2 v) = 2%nat.
Proof.
  intros H. apply Nat.eqb_eq.
  apply (below_forallb (Z.to_nat 100) (fun n => Nat.eqb (List.length (pad 2 n)) 2)).
  - vm_compute. reflexivity.
  - exact H.
Qed.

Lemma pad4_length (v : Z) : 0 <= v < 10000 -> List.length (pad 4 v) = 4%nat.
Proof.
  intros H. apply Nat.eqb_eq.
  apply (below_forallb (Z.to_nat 10000) (fun n => Nat.eqb (List.length (pad 4 n)) 4)).
  - vm_compute. reflexivity.
  - exact H.
Qed.

Lemma isoYear_noT (y : Z) : Forall (fun c => (c =? 84)%N = false) (isoYear y).
Proof.
  assert (Hp : forall k v, Forall (fun c => (c =? 84)%N = false) (pad k v)).
  { intros k v. eapply Forall_impl; [|apply pad_digits].
    intros c Hc. apply inRange_spec in Hc. apply N.eqb_neq. lia. }
  unfold isoYear. destruct ((0 <=? y) && (y <=? 9999)); [apply Hp|].
  constructor; [destruct (y <? 0); reflexivity | apply Hp].
Qed.

Lemma isoDate_noT (d : Z) : Forall (fun c => (c =? 84)%N = false) (isoDate d).
Proof.
  assert (Hp : forall k v, Forall (fun c => (c =? 84)%N = false) (pad k v)).
  { intros k v. eapply Forall_impl; [|apply pad_digits].
    intros c Hc. apply inRange_spec in Hc. apply N.eqb_neq. lia. }
  unfold isoDate. cbv zeta.
  apply Forall_app; split; [apply isoYear_noT|].
  constructor; [reflexivity|]. apply Forall_app; split; [apply Hp|].
  constructor; [reflexivity | apply Hp].
Qed.

Lemma beforeT_app (a b : jsstring) :
  Forall (fun c => (c =? 84)%N = false) a -> beforeT (a ++ 84%N :: b) = a.
Proof.
  induction 1 as [|c t Hc _ IH]; simpl; [reflexivity|].
  rewrite Hc, IH. reflexivity.
Qed.

Lemma beforeT_toISOString (t : Z) : beforeT (toISOString t) = isoDate (Day t).
Proof.
  unfold toISOString.
  replace (isoYear (YearFromTime t) ++ hyphen :: pad 2 (MonthFromTime t + 1) ++
           hyphen :: pad 2 (DateFromTime t) ++ 84%N :: pad 2 (HourFromTime t) ++
           colon :: pad 2 (MinFromTime t) ++ colon :: pad 2 (SecFromTime t) ++
           46%N :: pad 3 (msFromTime t) ++ [90%N])
    with (isoDate (Day t) ++ 84%N :: pad 2 (HourFromTime t) ++
           colon :: pad 2 (MinFromTime t) ++ colon :: pad 2 (SecFromTime t) ++
           46%N :: pad 3 (msFromTime t) ++ [90%N]).
  - apply beforeT_app, isoDate_noT.
  - unfold isoDate, DateFromTime, MonthFromTime, DayWithinYear, InLeapYear,
      YearFromTime. cbv zeta.
    rewrite <- !app_assoc. simpl. rewrite <- !app_assoc. simpl.
    destruct (isLeap (YearFromDay (Day t))); reflexivity.
Qed.

(** For a year from 0 to 9999 the date part is YYYY-MM-DD, with a month
    from 01 to 12 and a day from 01 to 31. *)
Lemma isoDate_YMD (d : Z) :
  0 <= YearFromDay d <= 9999 -> isYMD (isoDate d) = true.
Proof.
  intros Hy. unfold isoDate. cbv zeta.
  set (y := YearFromDay d) in *.
  set (leap := if isLeap y then 1 else 0).
  set (n := d - DayFromYear y).
  assert (Hn : 0 <= n < 365 + leap).
  { pose proof (dayWithinYear_range d) as H. fold y in H. fold n in H.
    unfold DaysInYear in H. subst leap. destruct (isLeap y); lia. }
  assert (Hl : leap = 0 \/ leap = 1) by (subst leap; destruct (isLeap y); auto).
  destruct (month_date_range leap n Hl Hn) as [Hm Hd].
  set (m := monthOfDay leap n) in *.
  unfold isoYear.
  assert (E : (0 <=? y) && (y <=? 9999) = true)
    by (apply andb_true_iff; split; apply Z.leb_le; lia).
  rewrite E.
  pose proof (pad4_length y ltac:(lia)) as L4.
  pose proof (pad2_length (m + 1) ltac:(lia)) as L2.
  pose proof (pad2_length (n - monthStart leap m + 1) ltac:(lia)) as L2'.
  pose proof (pad_digits 4 y) as D4.
  pose proof (pad_digits 2 (m + 1)) as D2.
  pose proof (pad_digits 2 (n - monthStart leap m + 1)) as D2'.
  destruct (pad 4 y) as [|y1 [|y2 [|y3 [|y4 [|? ?]]]]]; try discriminate L4.
  destruct (pad 2 (m + 1)) as [|m1 [|m2 [|? ?]]]; try discriminate L2.
  destruct (pad 2 (n - monthStart leap m + 1)) as [|d1 [|d2 [|? ?]]];
    try discriminate L2'.
  simpl.
  repeat match goal with
         | H : digits (_ :: _) |- _ => inversion H; subst; clear H
         | H : Forall _ (_ :: _) |- _ => inversion H; subst; clear H
         end.
  repeat match goal with
         | H : isDigit _ = true |- _ => rewrite H; clear H
         end.
  reflexivity.
Qed.

Lemma YearFromDay_unique (d y : Z) :
  DayFromYear y <= d < DayFromYear (y + 1) -> YearFromDay d = y.
Proof.
  intros [Hlo Hhi]. pose proof (YearFromDay_largest d y Hlo) as H1.
  pose proof (YearFromDay_bracket d) as [Hb _].
  destruct (Z.le_gt_cases (YearFromDay d) y) as [H2 | H2]; [lia|].
  pose proof (DayFromYear_mono (y + 1) (YearFromDay d) ltac:(lia)). lia.
Qed.

Ltac month_cases m :=
  let Hc := fresh "Hc" in
  assert (Hc : m = 1 \/ m = 2 \/ m = 3 \/ m = 4 \/ m = 5 \/ m = 6 \/ m = 7 \/
               m = 8 \/ m = 9 \/ m = 10 \/ m = 11 \/ m = 12) by lia;
  repeat (destruct Hc as [-> | Hc]); try subst m;
  repeat match goal with
         | H : context [monthStart _ (?k - 1)] |- _ =>
             let v := eval compute in (k - 1) in change (k - 1) with v in H
         | |- context [monthStart _ (?k - 1)] =>
             let v := eval compute in (k - 1) in change (k - 1) with v
         end;
  unfold monthStart in *; cbv beta iota in *.

Lemma monthOfDay_monthStart (leap m d : Z) :
  (leap = 0 \/ leap = 1) -> 1 <= m <= 12 ->
  1 <= d <= monthStart leap m - monthStart leap (m - 1) ->
  monthOfDay leap (monthStart leap (m - 1) + d - 1) = m - 1.
Proof.
  intros Hl Hm Hd. month_cases m; unfold monthOfDay;
    repeat match goal with
           | |- context [if ?a <? ?b then _ else _] =>
               destruct (Z.ltb_spec a b); try lia
           end; try lia.
Qed.

Lemma pad4_value (v : Z) :
  0 <= v < 10000 ->
  exists a b c d, pad 4 v = [a; b; c; d] /\ digitsValue [a; b; c; d] = Some v.
Proof.
  intros H.
  assert (E : match pad 4 v with
              | [a; b; c; d] =>
                  match digitsValue [a; b; c; d] with
                  | Some v' => v' =? v
                  | None => false
                  end
              | _ => false
              end = true).
  { apply (below_forallb (Z.to_nat 10000)
             (fun v => match pad 4 v with
              | [a; b; c; d] =>
                  match digitsValue [a; b; c; d] with
                  | Some v' => v' =? v
                  | None => false
                  end
              | _ => false
              end)); [vm_compute; reflexivity | exact H]. }
  destruct (pad 4 v) as [|a [|b [|c [|d [|? ?]]]]]; try discriminate E.
  destruct (digitsValue [a; b; c; d]) as [v'|] eqn:Ev; [|discriminate E].
  apply Z.eqb_eq in E. subst v'. exists a, b, c, d. auto.
Qed.

Lemma pad2_value (v : Z) :
  0 <= v < 100 ->
  exists a b, pad 2 v = [a; b] /\ digitsValue [a; b] = Some v.
Proof.
  intros H.
  assert (E : match pad 2 v with
              | [a; b] =>
                  match digitsValue [a; b] with
                  | Some v' => v' =? v
                  | None => false
                  end
              | _ => false
              end = true).
  { apply (below_forallb (Z.to_nat 100)
             (fun v => match pad 2 v with
              | [a; b] =>
                  match digitsValue [a; b] with
                  | Some v' => v' =? v
                  | None => false
                  end
              | _ => false
              end)); [vm_compute; reflexivity | exact H]. }
  destruct (pad 2 v) as [|a [|b [|? ?]]]; try discriminate E.
  destruct (digitsValue [a; b]) as [v'|] eqn:Ev; [|discriminate E].
  apply Z.eqb_eq in E. subst v'. exists a, b. auto.
Qed.

Lemma daysInMonth_range (y m : Z) :
  1 <= m <= 12 -> 28 <= daysInMonth y m <= 31.
Proof.
  intros Hm. unfold daysInMonth. destruct (isLeap y); month_cases m; lia.
Qed.

Lemma MakeDay_in_year (y m d : Z) :
  1 <= m <= 12 -> 1 <= d <= daysInMonth y m ->
  DayFromYear y <= MakeDay y m d < DayFromYear (y + 1).
Proof.
  intros Hm Hd. rewrite DayFromYear_next. unfold MakeDay, DaysInYear.
  unfold daysInMonth in Hd. destruct (isLeap y); month_cases m; lia.
Qed.

Lemma monthOfDay_bounds (leap n : Z) :
  (leap = 0 \/ leap = 1) -> 0 <= n < 365 + leap ->
  0 <= monthOfDay leap n <= 11 /\
  monthStart leap (monthOfDay leap n) <= n
    < monthStart leap (monthOfDay leap n + 1).
Proof.
  intros Hl Hn. unfold monthOfDay.
  repeat match goal with
         | |- context [if ?a <? ?b then _ else _] =>
             destruct (Z.ltb_spec a b)
         end;
    repeat match goal with
           | |- context [monthStart _ (?k + 1)] =>
               let v := eval compute in (k + 1) in change (k + 1) with v
           end;
    unfold monthStart; cbv beta iota; lia.
Qed.


End JSDateFacts.

Section DateTheorems.
Context {dh : JSDate.DateHost}.
Import JSDate JSDateFacts.
Local Open Scope Z_scope.

Lemma normalizeDate_parsed (s : jsstring) (t : Z) :
  parse s = Some t -> normalizeDate s = Ok (isoDate (Day t)).
Proof.
  intros H. unfold normalizeDate. rewrite H, beforeT_toISOString. reflexivity.
Qed.

(** A calendar date written YYYY-MM-DD, with a year from 0 to 9999, is
    parsed on every host and comes back as it is. *)
Lemma normalizeDate_canonical (y m d : Z) :
  0 <= y <= 9999 -> 1 <= m <= 12 -> 1 <= d <= daysInMonth y m ->
  let s := pad 4 y ++ hyphen :: pad 2 m ++ hyphen :: pad 2 d in
  isYMD s = true /\ normalizeDate s = Ok s.
Proof.
  intros Hy Hm Hd s.
  pose proof (daysInMonth_range y m Hm) as Hdim.
  destruct (pad4_value y ltac:(lia)) as [y1 [y2 [y3 [y4 [Ey Vy]]]]].
  destruct (pad2_value m ltac:(lia)) as [m1 [m2 [Em Vm]]].
  destruct (pad2_value d ltac:(lia)) as [d1 [d2 [Ed Vd]]].
  pose proof (MakeDay_in_year y m d Hm Hd) as Hin.
  assert (Hyear : YearFromDay (MakeDay y m d) = y)
    by (apply YearFromDay_unique, Hin).
  assert (Hiso : isoDate (MakeDay y m d) = s).
  { unfold isoDate. cbv zeta. rewrite Hyear.
    set (leap := if isLeap y then 1 else 0).
    assert (Hl : leap = 0 \/ leap = 1) by (subst leap; destruct (isLeap y); auto).
    replace (MakeDay y m d - DayFromYear y)
      with (monthStart leap (m - 1) + d - 1) by (unfold MakeDay; subst leap; lia).
    rewrite monthOfDay_monthStart; [| exact Hl | exact Hm | exact Hd].
    unfold isoYear.
    assert (E : (0 <=? y) && (y <=? 9999) = true)
      by (apply andb_true_iff; split; apply Z.leb_le; lia).
    rewrite E. subst s.
    replace (m - 1 + 1) with m by lia.
    replace (monthStart leap (m - 1) + d - 1 - monthStart leap (m - 1) + 1)
      with d by lia.
    reflexivity. }
  split.
  - rewrite <- Hiso. apply isoDate_YMD. rewrite Hyear. exact Hy.
  - assert (Hp : parse s = Some (MakeDay y m d * msPerDay)).
    { unfold parse. subst s. rewrite Ey, Em, Ed. cbn [app].
      unfold parseISODate. rewrite N.eqb_refl. cbn [andb].
      rewrite Vy. unfold civilTime. rewrite Vm, Vd.
      assert (E : (1 <=? m) && (m <=? 12) && (1 <=? d) && (d <=? daysInMonth y m)
                  = true).
      { rewrite !andb_true_iff, !Z.leb_le. lia. }
      rewrite E. unfold TimeClip.
      assert (Hb : (Z.abs (MakeDay y m d * msPerDay) <=? maxTime) = true).
      { apply Z.leb_le.
        pose proof (DayFromYear_mono 0 y ltac:(lia)).
        pose proof (DayFromYear_mono (y + 1) 10000 ltac:(lia)).
        change (DayFromYear 0) with (-719528) in *.
        change (DayFromYear 10000) with 2932897 in *.
        unfold msPerDay, maxTime. lia. }
      rewrite Hb. reflexivity. }
    rewrite (normalizeDate_parsed _ _ Hp).
    unfold Day. rewrite Z.div_mul by (unfold msPerDay; lia).
    rewrite Hiso. reflexivity.
Qed.


(** The day depends on the zone of the host: where "March 3, 2025" is
    read as midnight three hours east of UTC, the instant lies on the day
    before in UTC, and that day is returned. *)
Lemma normalizeDate_east_of_utc :
  hostParse (str "March 3, 2025") = Some 1740949200000 ->
  normalizeDate (str "March 3, 2025") = Ok (str "2025-03-02").
Proof.
  intros H. unfold normalizeDate, parse.
  change (parseISODate (str "March 3, 2025")) with (@None Z).
  rewrite H. reflexivity.
Qed.
End DateTheorems.



(** ** The save hook of Event *)

Lemma findOneSlugNotId_None (events : list Event) (id : N) (s : jsstring) :
  findOneSlugNotId events s id = None <-> slugFree events id s.
Proof.
  unfold findOneSlugNotId, slugFree. split.
  - intros H e He Hid Hs.
    apply (find_none _ _ H) in He. rewrite andb_false_iff in He.
    destruct He as [He | He].
    + apply eqb_str_neq in He. contradiction.
    + apply negb_false_iff, N.eqb_eq in He. contradiction.
  - intros H. destruct (find _ events) as [e|] eqn:E; [|reflexivity].
    apply find_some in E. destruct E as [He Hc].
    apply andb_true_iff in Hc. destruct Hc as [Hs Hid].
    apply eqb_str_spec in Hs. apply negb_true_iff, N.eqb_neq in Hid.
    exfalso. exact (H e He Hid Hs).
Qed.

Lemma slugFree_dec (events : list Event) (id : N) (s : jsstring) :
  {slugFree events id s} + {~ slugFree events id s}.
Proof.
  destruct (findOneSlugNotId events s id) eqn:E.
  - right. intros H. apply findOneSlugNotId_None in H. congruence.
  - left. apply findOneSlugNotId_None, E.
Qed.

Lemma digitsOf_inj (u v : Decimal.uint) : digitsOf u = digitsOf v -> u = v.
Proof.
  revert v. induction u; destruct v; simpl; intros H;
    try discriminate H; try reflexivity;
    injection H as H; f_equal; apply IHu, H.
Qed.

Lemma toString_inj (m n : N) : toString m = toString n -> m = n.
Proof.
  unfold toString. intros H. apply digitsOf_inj in H.
  apply Unsigned.to_uint_inj, H.
Qed.

Lemma candidate_inj (base : jsstring) (m n : N) :
  candidate base m = candidate base n -> m = n.
Proof.
  unfold candidate. intros H. apply app_inv_head in H.
  injection H as H. apply toString_inj, H.
Qed.

(** What the loop returns: the slug it starts from when that is free,
    and otherwise the first free candidate from [counter] on. *)
Lemma slugLoop_result (events : list Event) (id : N) (base : jsstring)
    (fuel : nat) (slug0 : jsstring) (counter : N) (r : jsstring) :
  slugLoop fuel events id base slug0 counter = Some r ->
  (slugFree events id slug0 /\ r = slug0) \/
  (~ slugFree events id slug0 /\
   exists k, counter <= k /\ r = candidate base k /\
     slugFree events id (candidate base k) /\
     forall j, counter <= j < k -> ~ slugFree events id (candidate base j)).
Proof.
  revert slug0 counter. induction fuel as [|fuel IH]; intros slug0 counter;
    simpl; [discriminate|].
  destruct (findOneSlugNotId events slug0 id) eqn:E.
  - intros H. right. split.
    + intros Hf. apply findOneSlugNotId_None in Hf. congruence.
    + apply IH in H. destruct H as [[Hf ->] | [Hn [k [Hk [-> [Hf Hj]]]]]].
      * exists counter. repeat split; [lia | exact Hf | intros j Hj; lia].
      * exists k. repeat split; [lia | exact Hf |].
        intros j Hj'. destruct (N.eq_dec j counter) as [-> | Hne];
          [exact Hn | apply Hj; lia].
  - intros H. injection H as <-. left. split; [|reflexivity].
    apply findOneSlugNotId_None, E.
Qed.

Lemma slugLoop_reaches (events : list Event) (id : N) (base : jsstring)
    (d : nat) :
  forall (counter : N) (slug0 : jsstring) (fuel : nat),
    slugFree events id (candidate base (counter + N.of_nat d)) ->
    (d + 2 <= fuel)%nat ->
    exists r, slugLoop fuel events id base slug0 counter = Some r.
Proof.
  induction d as [|d IH]; intros counter slug0 fuel Hf Hfuel.
  - destruct fuel as [|[|fuel]]; try lia. simpl.
    destruct (findOneSlugNotId events slug0 id); [|eauto].
    rewrite N.add_0_r in Hf. apply findOneSlugNotId_None in Hf.
    rewrite Hf. eauto.
  - destruct fuel as [|fuel]; try lia. simpl.
    destruct (findOneSlugNotId events slug0 id); [|eauto].
    apply IH; [|lia].
    replace (counter + 1 + N.of_nat d) with (counter + N.of_nat (S d)) by lia.
    exact Hf.
Qed.

(** One of the first [length events + 1] candidates is free: they are
    pairwise different, and each stored event takes at most one. *)
Lemma candidate_free_exists (events : list Event) (id : N) (base : jsstring) :
  exists d, (d <= List.length events)%nat /\
    slugFree events id (candidate base (1 + N.of_nat d)).
Proof.
  set (n := List.length events).
  set (cands := map (fun d => candidate base (1 + N.of_nat d)) (seq 0 (S n))).
  destruct (find (fun d => if slugFree_dec events id
                                (candidate base (1 + N.of_nat d))
                           then true else false) (seq 0 (S n))) as [d|] eqn:E.
  - apply find_some in E. destruct E as [Hin Hd].
    apply in_seq in Hin. exists d. split; [lia|].
    destruct (slugFree_dec events id (candidate base (1 + N.of_nat d)));
      [assumption | discriminate].
  - exfalso.
    assert (Hincl : incl cands (map slug events)).
    { intros c Hc. subst cands. apply in_map_iff in Hc.
      destruct Hc as [d [<- Hd]].
      pose proof (find_none _ _ E d Hd) as Hn. cbv beta in Hn.
      destruct (slugFree_dec events id (candidate base (1 + N.of_nat d)))
        as [Hf | Hf]; [discriminate|].
      rewrite <- findOneSlugNotId_None in Hf.
      destruct (findOneSlugNotId events (candidate base (1 + N.of_nat d)) id)
        as [e|] eqn:Ef; [|congruence].
      unfold findOneSlugNotId in Ef. apply find_some in Ef.
      destruct Ef as [He Hc]. apply andb_true_iff in Hc.
      destruct Hc as [Hs _]. apply eqb_str_spec in Hs.
      apply in_map_iff. exists e. split; assumption. }
    assert (Hnd : NoDup cands).
    { subst cands. apply NoDup_map_NoDup_ForallPairs; [|apply seq_NoDup].
      intros a b _ _ Hab. apply candidate_inj in Hab. lia. }
    pose proof (NoDup_incl_length Hnd Hincl) as Hlen.
    subst cands. rewrite !length_map, length_seq in Hlen. subst n. lia.
Qed.

Lemma slugLoop_terminates (events : list Event) (id : N)
    (base slug0 : jsstring) (fuel : nat) :
  (List.length events + 2 <= fuel)%nat ->
  exists r, slugLoop fuel events id base slug0 1 = Some r.
Proof.
  intros Hfuel.
  destruct (candidate_free_exists events id base) as [d [Hd Hf]].
  apply (slugLoop_reaches events id base d); [exact Hf | lia].
Qed.

(** More fuel does not change a result. *)
Lemma slugLoop_fuel_mono (events : list Event) (id : N) (base : jsstring)
    (fuel fuel' : nat) (slug0 : jsstring) (counter : N) (r : jsstring) :
  (fuel <= fuel')%nat ->
  slugLoop fuel events id base slug0 counter = Some r ->
  slugLoop fuel' events id base slug0 counter = Some r.
Proof.
  revert fuel' slug0 counter. induction fuel as [|fuel IH];
    intros fuel' slug0 counter Hle; simpl; [discriminate|].
  destruct fuel' as [|fuel']; [lia|]. simpl.
  destruct (findOneSlugNotId events slug0 id); [|auto].
  apply IH. lia.
Qed.

Section EventTheorems.
Context {uc : UnicodeCase} {dh : JSDate.DateHost}.

(** The hook changes [slug], [date] and [time] only. *)
Lemma preSaveEvent_Ok (fuel : nat) (events : list Event) (d : EventDoc)
    (e : Event) :
  preSaveEvent fuel events d = Some (Ok e) ->
  exists s dt tm,
    e = set_time (set_date (set_slug (this d) s) dt) tm /\
    (if isModified "title" d || isNew d
     then uniqueSlug fuel events (this d) = Some s
     else s = slug (this d)) /\
    (if isModified "date" d || isNew d
     then normalizeDate (date (this d)) = Ok dt
     else dt = date (this d)) /\
    (if isModified "time" d || isNew d
     then normalizeTime (time (this d)) = Ok tm
     else tm = time (this d)).
Proof.
  unfold preSaveEvent.
  destruct (isModified "title" d || isNew d) eqn:Et.
  - destruct (uniqueSlug fuel events (this d)) as [s|]; simpl; [|discriminate].
    destruct (isModified "date" d || isNew d) eqn:Ed.
    + destruct (normalizeDate (date (this d))) as [dt|] eqn:End;
        simpl; [|discriminate].
      destruct (isModified "time" d || isNew d) eqn:Em.
      * destruct (normalizeTime (time (this d))) as [tm|] eqn:Enm;
          simpl; [|discriminate].
        intros H. injection H as <-. exists s, dt, tm. auto.
      * intros H. injection H as <-. exists s, dt, (time (this d)). auto.
    + destruct (isModified "time" d || isNew d) eqn:Em; simpl.
      * destruct (normalizeTime (time (this d))) as [tm|] eqn:Enm;
          simpl; [|discriminate].
        intros H. injection H as <-. exists s, (date (this d)), tm. auto.
      * intros H. injection H as <-.
        exists s, (date (this d)), (time (this d)). auto.
  - simpl. destruct (isModified "date" d || isNew d) eqn:Ed.
    + destruct (normalizeDate (date (this d))) as [dt|] eqn:End;
        simpl; [|discriminate].
      destruct (isModified "time" d || isNew d) eqn:Em.
      * destruct (normalizeTime (time (this d))) as [tm|] eqn:Enm;
          simpl; [|discriminate].
        intros H. injection H as <-. exists (slug (this d)), dt, tm.
        destruct (this d); auto.
      * intros H. injection H as <-.
        exists (slug (this d)), dt, (time (this d)). destruct (this d); auto.
    + destruct (isModified "time" d || isNew d) eqn:Em; simpl.
      * destruct (normalizeTime (time (this d))) as [tm|] eqn:Enm;
          simpl; [|discriminate].
        intros H. injection H as <-.
        exists (slug (this d)), (date (this d)), tm. destruct (this d); auto.
      * intros H. injection H as <-.
        exists (slug (this d)), (date (this d)), (time (this d)).
        destruct (this d); auto.
Qed.

(** The hook returns: with fuel for every stored event and two more, the
    loop is over. *)
Lemma preSaveEvent_returns (fuel : nat) (events : list Event) (d : EventDoc) :
  (List.length events + 2 <= fuel)%nat ->
  exists r, preSaveEvent fuel events d = Some r.
Proof.
  intros Hfuel. unfold preSaveEvent.
  destruct (isModified "title" d || isNew d); [|eauto].
  unfold uniqueSlug.
  destruct (slugLoop_terminates events (_id (this d))
              (generateSlug (title (this d))) (generateSlug (title (this d)))
              fuel Hfuel) as [s Hs].
  rewrite Hs. simpl. eauto.
Qed.

Lemma saveEvent_Ok (fuel : nat) (events others events' : list Event)
    (d : EventDoc) (e : Event) :
  saveEvent fuel events others d = Some (Ok e, events') ->
  preSaveEvent fuel events d = Some (Ok e).
Proof.
  unfold saveEvent. destruct (validateEvent (this d)); [|discriminate].
  destruct (preSaveEvent fuel events d) as [[e'|err]|]; try discriminate.
  destruct (if isNew d then insertEvent (events ++ others) e'
            else replaceEvent (events ++ others) e');
    intros H; injection H as H _; congruence.
Qed.

Lemma saveEvent_returns (fuel : nat) (events others : list Event)
    (d : EventDoc) :
  (List.length events + 2 <= fuel)%nat ->
  exists r events', saveEvent fuel events others d = Some (r, events').
Proof.
  intros Hfuel. unfold saveEvent.
  destruct (validateEvent (this d)); [|eauto].
  destruct (preSaveEvent_returns fuel events d Hfuel) as [[e|err] ->]; [|eauto].
  destruct (if isNew d then insertEvent (events ++ others) e
            else replaceEvent (events ++ others) e);
    eauto.
Qed.

Lemma insertEvent_Ok (events events' : list Event) (e : Event) :
  insertEvent events e = Ok events' ->
  events' = events ++ [e] /\
  forall x, In x events -> _id x <> _id e /\ slug x <> slug e.
Proof.
  unfold insertEvent.
  destruct (existsb _ events) eqn:E; [discriminate|].
  intros H. injection H as <-. split; [reflexivity|].
  intros x Hx.
  assert (Hf : (_id x =? _id e) || eqb_str (slug x) (slug e) = false).
  { destruct ((_id x =? _id e) || eqb_str (slug x) (slug e)) eqn:Ex;
      [|reflexivity].
    assert (existsb (fun x => (_id x =? _id e) || eqb_str (slug x) (slug e))
              events = true)
      by (apply existsb_exists; exists x; auto).
    congruence. }
  apply orb_false_iff in Hf. destruct Hf as [Hi Hs].
  apply N.eqb_neq in Hi. apply eqb_str_neq in Hs. auto.
Qed.

Lemma insertEvent_fresh (events : list Event) (e : Event) :
  (forall x, In x events -> _id x <> _id e) ->
  slugFree events (_id e) (slug e) ->
  insertEvent events e = Ok (events ++ [e]).
Proof.
  intros Hid Hf. unfold insertEvent.
  destruct (existsb _ events) eqn:E; [|reflexivity].
  apply existsb_exists in E. destruct E as [x [Hx Hc]].
  apply orb_true_iff in Hc. destruct Hc as [Hc | Hc].
  - apply N.eqb_eq in Hc. exfalso. exact (Hid x Hx Hc).
  - apply eqb_str_spec in Hc. exfalso. exact (Hf x Hx (Hid x Hx) Hc).
Qed.

Lemma insertEvent_taken (events : list Event) (e x : Event) :
  In x events -> slug x = slug e -> insertEvent events e = Err DuplicateSlug.
Proof.
  intros Hx Hs. unfold insertEvent.
  assert (E : existsb (fun x => (_id x =? _id e) || eqb_str (slug x) (slug e))
                events = true).
  { apply existsb_exists. exists x. split; [exact Hx|].
    apply orb_true_iff. right. apply eqb_str_spec, Hs. }
  rewrite E. reflexivity.
Qed.

Lemma slugLoop_firstFree (events : list Event) (id : N) (base : jsstring)
    (fuel : nat) (s : jsstring) :
  slugLoop fuel events id base base 1 = Some s -> firstFree events id base s.
Proof.
  intros H. apply slugLoop_result in H. exact H.
Qed.

(** Events that come in without the slug picked do not change what the
    resolution picks. *)
Lemma firstFree_app (events others : list Event) (id : N)
    (base s : jsstring) :
  firstFree events id base s ->
  (forall x, In x others -> slug x <> s) ->
  firstFree (events ++ others) id base s.
Proof.
  assert (Hmono : forall c, slugFree (events ++ others) id c ->
                    slugFree events id c).
  { intros c H x Hx. apply H, in_or_app. left. exact Hx. }
  assert (Hadd : forall c, slugFree events id c ->
                   (forall x, In x others -> slug x <> c) ->
                   slugFree (events ++ others) id c).
  { intros c H Ho x Hx Hid. apply in_app_or in Hx.
    destruct Hx as [Hx | Hx]; [exact (H x Hx Hid) | exact (Ho x Hx)]. }
  intros [[Hf ->] | [Hn [k [Hk [-> [Hf Hj]]]]]] Ho.
  - left. split; [apply Hadd; assumption | reflexivity].
  - right. split; [intros H; apply Hn, Hmono, H|].
    exists k. split; [exact Hk|]. split; [reflexivity|].
    split; [apply Hadd; assumption|].
    intros j Hjk H. apply (Hj j Hjk), Hmono, H.
Qed.

(** The hook on a new document whose date and time the normalisers
    accept: it returns, with the slug of the loop and the normalised date
    and time. *)
Lemma preSaveEvent_picks (fuel : nat) (events : list Event) (id : N)
    (fields : Event) (dt tm : jsstring) :
  (List.length events + 2 <= fuel)%nat ->
  normalizeDate (date fields) = Ok dt ->
  normalizeTime (time fields) = Ok tm ->
  exists s,
    slugLoop fuel events id (generateSlug (trim (title fields)))
      (generateSlug (trim (title fields))) 1 = Some s /\
    preSaveEvent fuel events (newEvent id fields)
    = Some (Ok (set_time
                  (set_date (set_slug (this (newEvent id fields)) s) dt) tm)).
Proof.
  intros Hfuel Hd Ht.
  destruct (slugLoop_terminates events id
              (generateSlug (trim (title fields)))
              (generateSlug (trim (title fields))) fuel Hfuel) as [s Hs].
  exists s. split; [exact Hs|].
  unfold preSaveEvent, uniqueSlug.
  cbn [isNew newEvent this title _id]. rewrite !orb_true_r.
  rewrite Hs. cbn [option_map date set_slug this newEvent].
  rewrite Hd. cbn [bind time set_date set_slug this newEvent].
  rewrite Ht. reflexivity.
Qed.

(** C3: creating an event returns.  The hook gives the event the base
    slug [generateSlug title] when no other stored event has it, and
    otherwise the first of base-1, base-2, ... that no other stored event
    has.  The event is stored with that slug unless another request
    stored an event with that slug since the hook read the collection;
    a creation that nothing interleaves ([others] is [[]]) always stores
    it.  The slug of a stored event is the base slug or the first free
    candidate in the collection that the write met as well.  Three events
    with the title "DevCon", created one after the other, get "devcon",
    "devcon-1" and "devcon-2". *)
Theorem createEvent_slug :
  (forall fuel events others id fields dt tm,
     (List.length events + 2 <= fuel)%nat ->
     validateEvent (this (newEvent id fields)) = true ->
     normalizeDate (date fields) = Ok dt ->
     normalizeTime (time fields) = Ok tm ->
     (forall x, In x (events ++ others) -> _id x <> id) ->
     exists e,
       title e = trim (title fields) /\
       firstFree events id (generateSlug (title e)) (slug e) /\
       ((forall x, In x others -> slug x <> slug e) ->
        createEvent fuel events others id fields
        = Some (Ok e, (events ++ others) ++ [e]) /\
        firstFree (events ++ others) id (generateSlug (title e)) (slug e))) /\
  (exists e1 e2 e3,
     createEvent 2 [] [] 1 devCon = Some (Ok e1, [e1]) /\
     createEvent 3 [e1] [] 2 devCon = Some (Ok e2, [e1; e2]) /\
     createEvent 4 [e1; e2] [] 3 devCon = Some (Ok e3, [e1; e2; e3]) /\
     slug e1 = str "devcon" /\ slug e2 = str "devcon-1" /\
     slug e3 = str "devcon-2").
Proof.
  split.
  - intros fuel events others id fields dt tm Hfuel Hv Hd Ht Hfresh.
    destruct (preSaveEvent_picks fuel events id fields dt tm Hfuel Hd Ht)
      as [s [Hs Hh]].
    pose proof (slugLoop_firstFree _ _ _ _ _ Hs) as Hff.
    set (e := set_time
                (set_date (set_slug (this (newEvent id fields)) s) dt) tm)
      in *.
    exists e. split; [reflexivity|]. split; [exact Hff|].
    intros Hothers.
    pose proof (firstFree_app _ _ _ _ _ Hff Hothers) as Hall.
    split; [|exact Hall].
    unfold createEvent, saveEvent. rewrite Hv, Hh.
    cbn [isNew newEvent]. rewrite insertEvent_fresh; [reflexivity | |].
    + intros x Hx. apply Hfresh, Hx.
    + destruct Hall as [[Hf E] | [_ [k [_ [E [Hf _]]]]]];
        change (slug e) with s in *; rewrite E; exact Hf.
  - eexists; eexists; eexists. repeat split.
Qed.
End EventTheorems.

Section UpdateTheorems.
Context {uc : UnicodeCase} {dh : JSDate.DateHost}.

(** C9: when a stored event is saved again, the hook leaves the slug as
    it is if the title is not modified, and likewise the date and the
    time; with nothing modified the document comes out of the hook as it
    went in, whatever the store holds. *)
Theorem preSaveEvent_frame :
  (forall fuel events d e,
     isNew d = false ->
     preSaveEvent fuel events d = Some (Ok e) ->
     (isModified "title" d = false -> slug e = slug (this d)) /\
     (isModified "date" d = false -> date e = date (this d)) /\
     (isModified "time" d = false -> time e = time (this d))) /\
  (forall fuel events d,
     isNew d = false ->
     isModified "title" d = false ->
     isModified "date" d = false ->
     isModified "time" d = false ->
     preSaveEvent fuel events d = Some (Ok (this d))).
Proof.
  split.
  - intros fuel events d e Hnew H.
    apply preSaveEvent_Ok in H. destruct H as [s [dt [tm [-> [Hs [Hd Ht]]]]]].
    rewrite Hnew, !orb_false_r in *. cbn [slug date time set_time set_date set_slug].
    repeat split; intros Hm; rewrite Hm in *; assumption.
  - intros fuel events d Hnew Ht Hd Hm. unfold preSaveEvent.
    rewrite Hnew, Ht, Hd, Hm. reflexivity.
Qed.
End UpdateTheorems.

(** ** The Booking model *)

Section BookingTheorems.
Context {uc : UnicodeCase}.

Lemma sameBooking_spec (a b : Booking) : sameBooking a b = true <-> a = b.
Proof.
  unfold sameBooking. rewrite andb_true_iff, N.eqb_eq, eqb_str_spec.
  destruct a, b; simpl. split; [intros [-> ->]; reflexivity|].
  intros H; injection H as -> ->; auto.
Qed.

Lemma existsb_sameBooking (b : Booking) (bookings : list Booking) :
  existsb (sameBooking b) bookings = true <-> In b bookings.
Proof.
  rewrite existsb_exists. split.
  - intros [x [Hx Hs]]. apply sameBooking_spec in Hs. congruence.
  - intros H. exists b. split; [exact H | apply sameBooking_spec; reflexivity].
Qed.

Lemma bookingsFor_absent (b : Booking) (bookings : list Booking) :
  ~ In b bookings -> bookingsFor b bookings = [].
Proof.
  intros H. unfold bookingsFor. induction bookings as [|x l IH]; [reflexivity|].
  simpl. destruct (sameBooking b x) eqn:E.
  - apply sameBooking_spec in E. subst x. exfalso. apply H. left; reflexivity.
  - apply IH. intros Hin. apply H. right; exact Hin.
Qed.

(** Every outcome of [createBooking] keeps the pairs of the collection
    pairwise different. *)
Lemma createBooking_NoDup (events : list Event) (bookings : list Booking)
    (id : N) (address : jsstring) :
  NoDup bookings ->
  NoDup (snd (createBooking events bookings id address)).
Proof.
  intros Hnd. unfold createBooking.
  destruct (validateBooking _); [|exact Hnd].
  destruct (preSaveBooking _ _ _ _); [|exact Hnd].
  unfold insertBooking.
  destruct (existsb _ bookings) eqn:E; [exact Hnd|]. simpl.
  apply NoDup_app; [exact Hnd | repeat constructor; intros [] |].
  intros x Hx [<- | []].
  apply existsb_sameBooking in Hx. congruence.
Qed.

(** C4: no outcome of [createBooking] puts the same pair (event,
    address) into the collection twice.  A booking for a pair that is not
    yet booked succeeds; the same booking made again is let through by
    the hook and refused by the write, under the unique index, with
    DuplicateBooking; the collection then holds one booking for the
    pair. *)
Theorem createBooking_twice :
  (forall events bookings id address,
     NoDup bookings ->
     NoDup (snd (createBooking events bookings id address))) /\
  (forall events bookings id address,
     let b := {| eventId := id; email := trim (toLowerCase address) |} in
     validateBooking b = true ->
     findById events id <> None ->
     ~ In b bookings ->
     createBooking events bookings id address = (Ok b, bookings ++ [b]) /\
     createBooking events (bookings ++ [b]) id address
       = (Err DuplicateBooking, bookings ++ [b]) /\
     preSaveBooking events true false b = Ok tt /\
     insertBooking (bookings ++ [b]) b = Err DuplicateBooking /\
     bookingsFor b (bookings ++ [b]) = [b]).
Proof.
  split; [apply createBooking_NoDup|].
  intros events bookings id address b Hv He Hnin.
  assert (Hhook : preSaveBooking events true false b = Ok tt).
  { unfold preSaveBooking. simpl.
    destruct (findById events id); [reflexivity | contradiction]. }
  assert (Hfresh : existsb (sameBooking b) bookings = false).
  { destruct (existsb (sameBooking b) bookings) eqn:E; [|reflexivity].
    apply existsb_sameBooking in E. contradiction. }
  assert (Hdup : existsb (sameBooking b) (bookings ++ [b]) = true).
  { apply existsb_sameBooking, in_or_app. right; left; reflexivity. }
  repeat split.
  - unfold createBooking. fold b. rewrite Hv, Hhook. unfold insertBooking.
    rewrite Hfresh. reflexivity.
  - unfold createBooking. fold b. rewrite Hv, Hhook. unfold insertBooking.
    rewrite Hdup. reflexivity.
  - exact Hhook.
  - unfold insertBooking. rewrite Hdup. reflexivity.
  - unfold bookingsFor. rewrite filter_app. fold (bookingsFor b bookings).
    rewrite bookingsFor_absent by exact Hnin. simpl.
    rewrite (proj2 (sameBooking_spec b b) eq_refl). reflexivity.
Qed.

(** C5: a booking for an event that is not stored is not written,
    whatever the address; with an address that passes validation the
    failure is ReferentialIntegrityViolation. *)
Theorem createBooking_missing_event (events : list Event)
    (bookings : list Booking) (id : N) (address : jsstring) :
  findById events id = None ->
  (exists err, createBooking events bookings id address = (Err err, bookings)) /\
  (validateBooking {| eventId := id; email := trim (toLowerCase address) |} = true ->
   createBooking events bookings id address
     = (Err (ReferentialIntegrityViolation id), bookings)).
Proof.
  intros He. unfold createBooking, preSaveBooking. simpl. rewrite He.
  destruct (validateBooking _); split; eauto; discriminate.
Qed.
End BookingTheorems.

(** ** getSimilarEventsBySlug *)

Lemma eqb_tag_spec (a b : option jsstring) : eqb_tag a b = true <-> a = b.
Proof.
  destruct a as [x|], b as [y|]; simpl; try (split; congruence).
  rewrite eqb_str_spec. split; congruence.
Qed.

Lemma tagsIn_spec (values : list (option jsstring)) (e : Event) :
  tagsIn values e = true <-> exists t, In t (tags e) /\ In t values.
Proof.
  unfold tagsIn. rewrite existsb_exists. split.
  - intros [t [Ha Hb]]. apply existsb_exists in Hb. destruct Hb as [t' [Hb E]].
    apply eqb_tag_spec in E. subst t'. eauto.
  - intros [t [Ha Hb]]. exists t. split; [exact Ha|].
    apply existsb_exists. exists t. split; [exact Hb|].
    apply eqb_tag_spec. reflexivity.
Qed.

Lemma sharesTag_spec (a b : Event) :
  sharesTag a b = true <-> exists t, In t (tags a) /\ In t (tags b).
Proof. apply tagsIn_spec. Qed.

Lemma similar_resolved (events : list Event) (s : jsstring) (event : Event) :
  find (fun e => eqb_str (slug e) s) events = Some event ->
  getSimilarEventsBySlug (Ok events) s
  = filter (fun e => negb (_id e =? _id event) && sharesTag e event) events.
Proof. intros Hf. unfold getSimilarEventsBySlug. rewrite Hf. reflexivity. Qed.

Lemma similar_unresolved (events : list Event) (s : jsstring) :
  find (fun e => eqb_str (slug e) s) events = None ->
  getSimilarEventsBySlug (Ok events) s = filter (tagsIn [None]) events.
Proof. intros Hf. unfold getSimilarEventsBySlug. rewrite Hf. reflexivity. Qed.

(** C6: for the stored event [event] that the slug resolves to, the
    result holds exactly the stored events with another identifier that
    share a tag with it, in the order of the store; it is empty when no
    stored event qualifies and when the store fails.  When the slug
    resolves to no event, the claim has the result empty; the code
    returns the stored events that have [null] among their tags: for
    the slug "nowhere", [webNight] with its tags ["web", null]. *)
Theorem getSimilarEventsBySlug_spec :
  (forall events s event,
     find (fun e => eqb_str (slug e) s) events = Some event ->
     getSimilarEventsBySlug (Ok events) s
       = filter (fun e => negb (_id e =? _id event) && sharesTag e event) events /\
     (forall x, In x (getSimilarEventsBySlug (Ok events) s) <->
        In x events /\ _id x <> _id event /\
        exists t, In t (tags x) /\ In t (tags event)) /\
     ((forall x, In x events -> _id x <> _id event ->
         forall t, In t (tags x) -> ~ In t (tags event)) ->
      getSimilarEventsBySlug (Ok events) s = [])) /\
  (forall events s,
     find (fun e => eqb_str (slug e) s) events = None ->
     forall x, In x (getSimilarEventsBySlug (Ok events) s) <->
       In x events /\ In None (tags x)) /\
  (forall err s, getSimilarEventsBySlug (Err err) s = []) /\
  getSimilarEventsBySlug (Ok [devConStored; cloudDay; webNight]) (str "nowhere")
    = [webNight].
Proof.
  split; [|split; [|split]].
  - intros events s event Hf. rewrite (similar_resolved _ _ _ Hf).
    split; [reflexivity|].
    assert (Hin : forall x,
      In x (filter (fun e => negb (_id e =? _id event) && sharesTag e event) events)
      <-> In x events /\ _id x <> _id event /\
          exists t, In t (tags x) /\ In t (tags event)).
    { intros x. rewrite filter_In, andb_true_iff, negb_true_iff, N.eqb_neq,
        sharesTag_spec. tauto. }
    split; [exact Hin|].
    intros Hnone.
    destruct (filter _ events) as [|x l] eqn:E; [reflexivity|].
    exfalso. assert (Hx : In x (x :: l)) by (left; reflexivity).
    apply Hin in Hx. destruct Hx as [Hx [Hid [t [Ht1 Ht2]]]].
    exact (Hnone x Hx Hid t Ht1 Ht2).
  - intros events s Hf x. rewrite (similar_unresolved _ _ Hf).
    rewrite filter_In, tagsIn_spec. split.
    + intros [Hx [t [Ht [<- | []]]]]. auto.
    + intros [Hx Hn]. split; [exact Hx|]. exists None. split; [exact Hn|].
      left. reflexivity.
  - reflexivity.
  - reflexivity.
Qed.

Lemma createEvent_slug_witness :
  exists e,
    title e = trim (title devCon) /\
    firstFree [devConStored; devConSecond] 3 (generateSlug (title e)) (slug e) /\
    ((forall x, In x [webNight] -> slug x <> slug e) ->
     @createEvent basicLatin isoOnly 4 [devConStored; devConSecond] [webNight]
       3 devCon
     = Some (Ok e, ([devConStored; devConSecond] ++ [webNight]) ++ [e]) /\
     firstFree ([devConStored; devConSecond] ++ [webNight]) 3
       (generateSlug (title e)) (slug e)).
Proof.
  apply (proj1 (@createEvent_slug basicLatin isoOnly) 4%nat
           [devConStored; devConSecond] [webNight] 3 devCon
           (str "2025-03-03") (str "09:30")).
  - simpl. lia.
  - reflexivity.
  - reflexivity.
  - reflexivity.
  - intros x [<- | [<- | [<- | []]]]; discriminate.
Defined.

Lemma preSaveEvent_frame_witness :
  slug (set_date devConStored (str "2025-04-01")) = str "devcon" /\
  time (set_date devConStored (str "2025-04-01")) = str "09:30" /\
  @preSaveEvent basicLatin isoOnly 0 [devConStored; cloudDay]
    {| this := devConStored; isNew := false; modifiedPaths := [] |}
  = Some (Ok devConStored).
Proof.
  destruct (@preSaveEvent_frame basicLatin isoOnly) as [Hframe Hnoop].
  destruct (Hframe 0%nat [devConStored; cloudDay]
              {| this := set_date devConStored (str "2025-04-01");
                 isNew := false; modifiedPaths := [str "date"] |}
              (set_date devConStored (str "2025-04-01"))) as [Hs [_ Ht]].
  - reflexivity.
  - vm_compute. reflexivity.
  - split; [apply Hs; reflexivity|]. split; [apply Ht; reflexivity|].
    apply Hnoop; reflexivity.
Defined.

Lemma createBooking_twice_witness :
  let b := {| eventId := 1; email := str "ada@example.com" |} in
  @createBooking basicLatin [devConStored] [] 1 (str " Ada@Example.com ")
    = (Ok b, [b]) /\
  @createBooking basicLatin [devConStored] [b] 1 (str " Ada@Example.com ")
    = (Err DuplicateBooking, [b]) /\
  NoDup (snd (@createBooking basicLatin [devConStored] [b] 1 (str "ada@example.com"))).
Proof.
  destruct (@createBooking_twice basicLatin) as [Hinv Htwice].
  destruct (Htwice [devConStored] [] 1 (str " Ada@Example.com "))
    as [H1 [H2 _]].
  - reflexivity.
  - discriminate.
  - intros [].
  - split; [exact H1|]. split; [exact H2|].
    apply Hinv. repeat constructor. intros [].
Defined.

Lemma createBooking_missing_event_witness :
  @createBooking basicLatin [devConStored] [] 7 (str "ada@example.com")
  = (Err (ReferentialIntegrityViolation 7), []).
Proof.
  apply (@createBooking_missing_event basicLatin [devConStored] [] 7
           (str "ada@example.com")); reflexivity.
Defined.

Lemma getSimilarEventsBySlug_spec_witness :
  getSimilarEventsBySlug (Ok [devConStored; cloudDay; rustFest]) (str "devcon")
    = [cloudDay] /\
  getSimilarEventsBySlug (Ok [devConStored; cloudDay; rustFest]) (str "rust-fest")
    = [] /\
  (In webNight
     (getSimilarEventsBySlug (Ok [devConStored; webNight]) (str "nowhere"))
   <-> In webNight [devConStored; webNight] /\ In None (tags webNight)).
Proof.
  destruct getSimilarEventsBySlug_spec as [Hfound [Hnone _]].
  split; [|split].
  - destruct (Hfound [devConStored; cloudDay; rustFest] (str "devcon")
                devConStored eq_refl) as [H _].
    exact H.
  - destruct (Hfound [devConStored; cloudDay; rustFest] (str "rust-fest")
                rustFest eq_refl) as [_ [_ H]].
    apply H. intros x Hx Hid t Ht Ht'.
    simpl in Hx, Ht'. destruct Ht' as [<- | []].
    destruct Hx as [<- | [<- | [<- | []]]];
      [ simpl in Ht; destruct Ht as [Ht | [Ht | []]]; discriminate Ht
      | simpl in Ht; destruct Ht as [Ht | [Ht | []]]; discriminate Ht
      | apply Hid; reflexivity ].
  - apply Hnone. reflexivity.
Defined.

(** ** More on generateSlug *)

Lemma isSpace_not_word (c : N) : isSpace c = true -> isWord c = false.
Proof.
  unfold isSpace, isWord, isUpper, isLower, isDigit, underscore.
  rewrite !orb_true_iff, !inRange_spec, !N.eqb_eq. intros H.
  rewrite !orb_false_iff. repeat split;
    try (apply N.eqb_neq; lia);
    unfold inRange; apply andb_false_iff;
    rewrite !N.leb_gt; lia.
Qed.

Lemma isHyphen_not_word (c : N) : isHyphen c = true -> isWord c = false.
Proof. unfold isHyphen. intros H. apply N.eqb_eq in H. subst c. reflexivity. Qed.

Lemma filter_none (f : N -> bool) (l : jsstring) :
  Forall (fun c => f c = false) l -> filter f l = [].
Proof.
  induction 1 as [|c t Hc _ IH]; simpl; [reflexivity|]. rewrite Hc. exact IH.
Qed.

Lemma filter_all (f : N -> bool) (l : jsstring) :
  Forall (fun c => f c = true) l -> filter f l = l.
Proof.
  induction 1 as [|c t Hc _ IH]; simpl; [reflexivity|]. rewrite Hc, IH.
  reflexivity.
Qed.

Lemma filter_filter_sub (f g : N -> bool) (l : jsstring) :
  (forall c, f c = true -> g c = true) -> filter f (filter g l) = filter f l.
Proof.
  intros H. induction l as [|c t IH]; simpl; [reflexivity|].
  destruct (g c) eqn:Eg; simpl.
  - destruct (f c); [f_equal|]; exact IH.
  - destruct (f c) eqn:Ef; [|exact IH]. apply H in Ef. congruence.
Qed.

Lemma filter_dropWhile (f p : N -> bool) (s : jsstring) :
  (forall c, p c = true -> f c = false) ->
  filter f (dropWhile p s) = filter f s.
Proof.
  intros H. destruct (dropWhile_suffix p s) as [l [Hl Hp]].
  rewrite Hl at 2. rewrite filter_app, (filter_none f l); [reflexivity|].
  eapply Forall_impl; [|exact Hp]. intros c Hc. apply H, Hc.
Qed.

Lemma filter_trim (f : N -> bool) (s : jsstring) :
  (forall c, isSpace c = true -> f c = false) ->
  filter f (trim s) = filter f s.
Proof.
  intros H. unfold trim, trimEnd, trimStart.
  rewrite filter_rev, (filter_dropWhile f isSpace _ H), <- filter_rev,
    rev_involutive.
  apply filter_dropWhile, H.
Qed.

Lemma filter_replaceRuns (f p : N -> bool) (r : jsstring) (b : bool)
    (s : jsstring) :
  (forall c, p c = true -> f c = false) -> filter f r = [] ->
  filter f (replaceRuns p r b s) = filter f s.
Proof.
  intros Hp Hr. revert b. induction s as [|c t IH]; intros b; simpl;
    [reflexivity|].
  destruct (p c) eqn:E.
  - rewrite (Hp c E). destruct b; [apply IH|].
    rewrite filter_app, Hr. apply IH.
  - simpl. destruct (f c); [f_equal|]; apply IH.
Qed.

Lemma filter_dropLeadingHyphen (f : N -> bool) (s : jsstring) :
  (forall c, isHyphen c = true -> f c = false) ->
  filter f (dropLeadingHyphen s) = filter f s.
Proof.
  intros H. destruct s as [|c t]; simpl; [reflexivity|].
  destruct (isHyphen c) eqn:E; [|reflexivity]. rewrite (H c E). reflexivity.
Qed.

Lemma filter_stripHyphenEnds (f : N -> bool) (s : jsstring) :
  (forall c, isHyphen c = true -> f c = false) ->
  filter f (stripHyphenEnds s) = filter f s.
Proof.
  intros H. unfold stripHyphenEnds.
  rewrite filter_rev, (filter_dropLeadingHyphen f _ H), <- filter_rev,
    rev_involutive.
  apply filter_dropLeadingHyphen, H.
Qed.

Section SlugMore.
Context {uc : UnicodeCase}.

Lemma generateSlug_words (title : jsstring) :
  filter isWord (generateSlug title) = filter isWord (toLowerCase title).
Proof.
  unfold generateSlug, collapseHyphens, spacesToHyphen, removeSpecial.
  rewrite (filter_stripHyphenEnds isWord _ isHyphen_not_word).
  rewrite (filter_replaceRuns isWord isHyphen [hyphen] false _
             isHyphen_not_word eq_refl).
  rewrite (filter_replaceRuns isWord isSpace [hyphen] false _
             isSpace_not_word eq_refl).
  rewrite filter_filter_sub.
  - apply filter_trim, isSpace_not_word.
  - intros c Hc. rewrite Hc. reflexivity.
Qed.

(** The shape of every result, as a record of facts to build on. *)
Lemma generateSlug_shape (title : jsstring) :
  WellFormedSlug (fun c => slugUnit c || (c =? underscore)) (generateSlug title).
Proof.
  unfold generateSlug.
  set (s3 := removeSpecial (trim (toLowerCase title))).
  assert (H5 : Forall (fun c => (slugUnit c || (c =? underscore)) = true
                                /\ isUpper c = false)
                 (collapseHyphens (spacesToHyphen s3))).
  { unfold collapseHyphens, spacesToHyphen.
    apply replaceRuns_Forall; [repeat constructor|].
    apply Forall_forall. intros c Hc _. revert c Hc. apply Forall_forall.
    apply replaceRuns_Forall; [repeat constructor|].
    apply removeSpecial_units, trim_Forall, toLowerCase_not_upper. }
  assert (Hd : noDouble (collapseHyphens (spacesToHyphen s3)))
    by (intros l1 l2; apply replaceRuns_hyphen_double).
  apply (stripHyphenEnds_Forall _ _) in H5.
  constructor.
  - eapply Forall_impl; [|exact H5]. intros c [Hc _]; exact Hc.
  - eapply Forall_impl; [|exact H5]. intros c [_ Hc]; exact Hc.
  - apply stripHyphenEnds_lead, Hd.
  - apply stripHyphenEnds_trail, Hd.
  - apply stripHyphenEnds_noDouble, Hd.
Qed.

(** X2: no letter, digit or underscore is lost or moved, and nothing but
    hyphens is put between them: the word characters of the slug are
    those of the lower-cased title, in the same order, and every other
    unit of the slug is a hyphen. *)
Theorem generateSlug_keeps_words (title : jsstring) :
  filter isWord (generateSlug title) = filter isWord (toLowerCase title) /\
  Forall (fun c => isWord c = true \/ c = hyphen) (generateSlug title).
Proof.
  split; [apply generateSlug_words|].
  destruct (generateSlug_shape title) as [Hu _ _ _ _].
  eapply Forall_impl; [|exact Hu]. intros c Hc. unfold slugUnit in Hc.
  destruct (isHyphen c) eqn:E; [right; apply N.eqb_eq, E|].
  left. unfold isWord.
  destruct (isLower c), (isDigit c), (c =? underscore), (isUpper c);
    simpl in *; try reflexivity; discriminate.
Qed.

Lemma slug_head_word (s : jsstring) :
  WellFormedSlug (fun c => slugUnit c || (c =? underscore)) s ->
  s <> [] -> filter isWord s <> [].
Proof.
  intros [Hu _ Hl _ _] Hne. destruct s as [|c t]; [contradiction|].
  inversion Hu as [|? ? Hc _]; subst. simpl.
  assert (Hh : isHyphen c = false).
  { destruct (isHyphen c) eqn:E; [|reflexivity]. apply N.eqb_eq in E.
    subst c. exfalso. exact (Hl t eq_refl). }
  unfold slugUnit in Hc. rewrite Hh in Hc. unfold isWord.
  destruct (isLower c), (isDigit c), (c =? underscore), (isUpper c);
    simpl in *; try discriminate.
Qed.

Lemma generateSlug_no_words (title : jsstring) :
  filter isWord (toLowerCase title) = [] -> generateSlug title = [].
Proof.
  rewrite <- generateSlug_words. intros H.
  destruct (generateSlug title) as [|c t] eqn:E; [reflexivity|].
  exfalso. apply (slug_head_word (c :: t)); [|discriminate | exact H].
  rewrite <- E. apply generateSlug_shape.
Qed.

(** X3: the slug is empty exactly when the lower-cased title has no word
    character (no letter of Basic Latin, no digit, no underscore). *)
Theorem generateSlug_empty_iff (title : jsstring) :
  generateSlug title = [] <-> filter isWord (toLowerCase title) = [].
Proof.
  split.
  - intros H. rewrite <- generateSlug_words, H. reflexivity.
  - apply generateSlug_no_words.
Qed.
End SlugMore.

Lemma dropWhile_id (p : N -> bool) (s : jsstring) :
  Forall (fun c => p c = false) s -> dropWhile p s = s.
Proof. intros H. destruct H as [|c t Hc _]; simpl; [|rewrite Hc]; reflexivity. Qed.

Lemma trim_no_space (s : jsstring) :
  Forall (fun c => isSpace c = false) s -> trim s = s.
Proof.
  intros H. unfold trim, trimEnd, trimStart.
  rewrite (dropWhile_id isSpace s H), dropWhile_id, rev_involutive;
    [reflexivity|].
  apply Forall_rev_iff, H.
Qed.

Lemma replaceRuns_none (p : N -> bool) (r s : jsstring) (b : bool) :
  Forall (fun c => p c = false) s -> replaceRuns p r b s = s.
Proof.
  intros H. revert b. induction H as [|c t Hc _ IH]; intros b; simpl;
    [reflexivity|].
  rewrite Hc, IH. reflexivity.
Qed.

Lemma collapseHyphens_noDouble (b : bool) (s : jsstring) :
  noDouble s -> (b = true -> forall l, s <> hyphen :: l) ->
  replaceRuns isHyphen [hyphen] b s = s.
Proof.
  revert b. induction s as [|c t IH]; intros b Hd Hb; simpl; [reflexivity|].
  destruct (isHyphen c) eqn:E.
  - apply N.eqb_eq in E. subst c.
    destruct b; [exfalso; exact (Hb eq_refl t eq_refl)|].
    simpl. f_equal. apply IH.
    + eapply noDouble_tail, Hd.
    + intros _ l ->. exact (Hd [] l eq_refl).
  - f_equal. apply IH; [eapply noDouble_tail, Hd | discriminate].
Qed.

Lemma dropLeadingHyphen_id (s : jsstring) :
  (forall l, s <> hyphen :: l) -> dropLeadingHyphen s = s.
Proof.
  intros H. destruct (dropLeadingHyphen_cases s) as [E | [E _]]; [|exact E].
  exfalso. exact (H _ E).
Qed.

Lemma stripHyphenEnds_id (s : jsstring) :
  (forall l, s <> hyphen :: l) -> (forall l, s <> l ++ [hyphen]) ->
  stripHyphenEnds s = s.
Proof.
  intros Hl Ht. unfold stripHyphenEnds.
  rewrite (dropLeadingHyphen_id s Hl), dropLeadingHyphen_id, rev_involutive;
    [reflexivity|].
  intros l E. apply (f_equal (@rev N)) in E. rewrite rev_involutive in E.
  simpl in E. exact (Ht _ E).
Qed.

(** The units of the slug alphabet are plain: Basic Latin, not upper
    case, not white space. *)
Lemma slugUnit_plain (c : N) :
  (slugUnit c || (c =? underscore)) = true ->
  isSpace c = false /\ (c <? 128) = true /\
  (isWord c || isSpace c || isHyphen c) = true.
Proof.
  intros H.
  assert (Hc : 97 <= c <= 122 \/ 48 <= c <= 57 \/ c = 45 \/ c = 95).
  { unfold slugUnit, isLower, isDigit, isHyphen, hyphen, underscore in H.
    rewrite !orb_true_iff, !inRange_spec, !N.eqb_eq in H. tauto. }
  repeat split.
  - unfold isSpace. rewrite !orb_false_iff. repeat split;
      try (apply N.eqb_neq; lia);
      unfold inRange; apply andb_false_iff; rewrite !N.leb_gt; lia.
  - apply N.ltb_lt. lia.
  - unfold isWord, isUpper, isLower, isDigit, isHyphen, hyphen, underscore.
    rewrite !orb_true_iff, !inRange_spec, !N.eqb_eq. lia.
Qed.

Section SlugFixed.
Context {uc : UnicodeCase}.

Lemma toLowerCase_plain (s : jsstring) :
  Forall (fun c => isUpper c = false /\ (c <? 128) = true) s ->
  toLowerCase s = s.
Proof.
  induction 1 as [|c t [Hu Ha] _ IH]; [reflexivity|].
  unfold toLowerCase in *. simpl. unfold lowerUnit at 1.
  rewrite Hu, Ha. simpl. congruence.
Qed.

Lemma generateSlug_fixed (s : jsstring) :
  WellFormedSlug (fun c => slugUnit c || (c =? underscore)) s ->
  generateSlug s = s.
Proof.
  intros [Hu Hlow Hl Ht Hd]. unfold generateSlug.
  assert (Hp : Forall (fun c => isSpace c = false /\ (c <? 128) = true /\
                         (isWord c || isSpace c || isHyphen c) = true) s).
  { eapply Forall_impl; [|exact Hu]. intros c Hc. apply slugUnit_plain, Hc. }
  rewrite toLowerCase_plain.
  2:{ apply Forall_forall. intros c Hc. rewrite Forall_forall in Hlow, Hp.
      split; [apply Hlow, Hc | apply (Hp c Hc)]. }
  rewrite trim_no_space
    by (eapply Forall_impl; [|exact Hp]; intros c Hc; apply Hc).
  unfold removeSpecial. rewrite filter_all
    by (eapply Forall_impl; [|exact Hp]; intros c Hc; apply Hc).
  unfold spacesToHyphen. rewrite replaceRuns_none
    by (eapply Forall_impl; [|exact Hp]; intros c Hc; apply Hc).
  unfold collapseHyphens. rewrite collapseHyphens_noDouble;
    [| exact Hd | discriminate].
  apply stripHyphenEnds_id; assumption.
Qed.

(** X1: a well-formed slug is its own slug, so [generateSlug] applied to
    one of its results changes nothing. *)
Theorem generateSlug_idempotent :
  (forall s,
     WellFormedSlug (fun c => slugUnit c || (c =? underscore)) s ->
     generateSlug s = s) /\
  (forall title, generateSlug (generateSlug title) = generateSlug title).
Proof.
  split; [apply generateSlug_fixed|].
  intros title. apply generateSlug_fixed, generateSlug_shape.
Qed.
End SlugFixed.

Lemma generateSlug_idempotent_witness :
  generateSlug (str "rust_fest-2025") = str "rust_fest-2025".
Proof.
  apply (proj1 (@generateSlug_idempotent basicLatin)).
  constructor.
  - repeat constructor.
  - repeat constructor.
  - intros l H. discriminate H.
  - intros l H. apply (f_equal (@rev N)) in H. rewrite rev_app_distr in H.
    discriminate H.
  - intros l1 l2 H.
    repeat (destruct l1 as [|? l1]; [discriminate H|];
            injection H as _ H).
    destruct l1; discriminate H.
Defined.

(** ** More on normalizeTime *)

Lemma dropWhile_all (p : N -> bool) (s : jsstring) :
  Forall (fun c => p c = true) s -> dropWhile p s = [].
Proof.
  intros H. rewrite <- (app_nil_r s). rewrite dropWhile_app_all by exact H.
  reflexivity.
Qed.

Lemma dropWhile_app_stop (p : N -> bool) (s r : jsstring) :
  dropWhile p s <> [] -> dropWhile p (s ++ r) = dropWhile p s ++ r.
Proof.
  induction s as [|c t IH]; simpl; [intros H; contradiction|].
  destruct (p c); [exact IH | reflexivity].
Qed.

(** White space around a string does not change what [trim] returns. *)
Lemma trim_padding (l s r : jsstring) :
  Forall (fun c => isSpace c = true) l ->
  Forall (fun c => isSpace c = true) r ->
  trim (l ++ s ++ r) = trim s.
Proof.
  intros Hl Hr. unfold trim, trimStart.
  rewrite dropWhile_app_all by exact Hl.
  destruct (dropWhile isSpace s) as [|c t] eqn:E.
  - destruct (dropWhile_suffix isSpace s) as [l' [Hs Hp]].
    rewrite E, app_nil_r in Hs. subst l'.
    rewrite dropWhile_all; [reflexivity|].
    apply Forall_app; split; assumption.
  - rewrite dropWhile_app_stop by (rewrite E; discriminate).
    rewrite E. unfold trimEnd. rewrite rev_app_distr.
    rewrite dropWhile_app_all by (apply Forall_rev_iff; exact Hr).
    reflexivity.
Qed.

Lemma matchHourMinute_inv (s h m rest : jsstring) :
  matchHourMinute s = Some (h, m, rest) ->
  digits h /\ (1 <= List.length h <= 2)%nat /\
  exists m1 m2, m = [m1; m2] /\ isDigit m1 = true /\ isDigit m2 = true /\
    s = h ++ colon :: m1 :: m2 :: rest.
Proof.
  unfold matchHourMinute.
  destruct (hourMinute2 s) as [[[h' m'] rest']|] eqn:E2.
  - intros H. injection H as -> -> ->.
    unfold hourMinute2 in E2.
    destruct s as [|h1 [|h2 [|c [|m1 [|m2 r]]]]]; try discriminate E2.
    destruct (isDigit h1 && isDigit h2 && (c =? colon) && isDigit m1
              && isDigit m2) eqn:Ec; [|discriminate E2].
    injection E2 as <- <- <-.
    rewrite !andb_true_iff, N.eqb_eq in Ec.
    destruct Ec as [[[[H1 H2] Hc] Hm1] Hm2]. subst c.
    split; [repeat constructor; assumption|].
    split; [simpl; lia|]. exists m1, m2. auto.
  - unfold hourMinute1.
    destruct s as [|h1 [|c [|m1 [|m2 r]]]]; try discriminate.
    destruct (isDigit h1 && (c =? colon) && isDigit m1 && isDigit m2) eqn:Ec;
      [|discriminate].
    intros H. injection H as <- <- <-.
    rewrite !andb_true_iff, N.eqb_eq in Ec.
    destruct Ec as [[[H1 Hc] Hm1] Hm2]. subst c.
    split; [repeat constructor; assumption|].
    split; [simpl; lia|]. exists m1, m2. auto.
Qed.

Lemma parseInt_two_digits (h : jsstring) :
  digits h -> (1 <= List.length h <= 2)%nat -> parseInt h <= 99.
Proof.
  intros Hd Hl. destruct h as [|a [|b [|? ?]]]; simpl in Hl; try lia.
  - inversion Hd as [|? ? Ha _]; subst. apply inRange_spec in Ha.
    unfold parseInt. cbn [fold_left]. lia.
  - inversion Hd as [|? ? Ha Hd']; subst. inversion Hd' as [|? ? Hb _]; subst.
    apply inRange_spec in Ha, Hb. unfold parseInt. cbn [fold_left]. lia.
Qed.

Lemma to24Hour_bound (h : N) (period : jsstring) :
  h <= 99 -> to24Hour h period <= 111.
Proof.
  intros H. unfold to24Hour.
  destruct (eqb_str period PM && negb (h =? 12)); [lia|].
  destruct (eqb_str period AM && (h =? 12)); lia.
Qed.

(** The two or three digits of an hour up to 111. *)
Lemma hour_text (H : N) :
  H <= 111 ->
  (H <= 99 /\ exists a b, padStart0 2 (toString H) = [a; b] /\
      isDigit a = true /\ isDigit b = true /\ parseInt [a; b] = H) \/
  (100 <= H /\ exists a b c, padStart0 2 (toString H) = [a; b; c] /\
      isDigit a = true /\ isDigit b = true /\ isDigit c = true).
Proof.
  intros HH.
  set (p := fun v : Z =>
    let t := padStart0 2 (toString (Z.to_N v)) in
    match t with
    | [a; b] => isDigit a && isDigit b && (parseInt [a; b] =? Z.to_N v)
                && (Z.to_N v <=? 99)
    | [a; b; c] => isDigit a && isDigit b && isDigit c && (100 <=? Z.to_N v)
    | _ => false
    end).
  assert (E : p (Z.of_N H) = true).
  { apply (JSDateFacts.below_forallb (Z.to_nat 112) p);
      [vm_compute; reflexivity | lia]. }
  unfold p in E. cbv zeta in E. rewrite N2Z.id in E.
  destruct (padStart0 2 (toString H)) as [|a [|b [|c [|? ?]]]];
    try discriminate E.
  - rewrite !andb_true_iff, N.eqb_eq, N.leb_le in E.
    destruct E as [[[Ha Hb] Hp] Hle]. left. split; [exact Hle|].
    exists a, b. auto.
  - rewrite !andb_true_iff, N.leb_le in E.
    destruct E as [[[Ha Hb] Hc] Hle]. right. split; [exact Hle|].
    exists a, b, c. auto.
Qed.

Section TimeMore.
Context {uc : UnicodeCase}.

Lemma time_text_fixed (s : jsstring) :
  Forall (fun c => isDigit c = true \/ c = colon) s ->
  toUpperCase (trim s) = s.
Proof.
  intros H.
  assert (Hp : Forall (fun c => isSpace c = false /\ isLower c = false
                                 /\ (c <? 128) = true) s).
  { eapply Forall_impl; [|exact H]. intros c [Hc | ->].
    - apply isDigit_plain, Hc.
    - repeat split. }
  rewrite trim_no_space
    by (eapply Forall_impl; [|exact Hp]; intros c Hc; apply Hc).
  apply toUpperCase_fixed.
  eapply Forall_impl; [|exact Hp]. intros c [_ [Hc1 Hc2]]. split; assumption.
Qed.

(** A successful call returns an hour and the two minute digits. *)
Lemma normalizeTime_Ok_inv (s r : jsstring) :
  normalizeTime s = Ok r ->
  exists H m1 m2,
    r = formatTime H [m1; m2] /\ isDigit m1 = true /\ isDigit m2 = true /\
    H <= 111.
Proof.
  unfold normalizeTime, normalizeTime24, time24Match, time12Match.
  set (t := toUpperCase (trim s)).
  destruct (matchHourMinute t) as [[[h m] rest]|] eqn:E; [|discriminate].
  apply matchHourMinute_inv in E.
  destruct E as [Hd [Hl [m1 [m2 [-> [H1 [H2 _]]]]]]].
  pose proof (parseInt_two_digits h Hd Hl) as Hh.
  assert (H12 :
    match (let period := dropWhile isSpace rest in
           if eqb_str period AM || eqb_str period PM
           then Some (h, [m1; m2], period) else None) with
    | Some (h0, minutes, period) =>
        Ok (formatTime (to24Hour (parseInt h0) period) minutes)
    | None => Err (InvalidFormat s)
    end = Ok r ->
    exists H m1' m2',
      r = formatTime H [m1'; m2'] /\ isDigit m1' = true /\
      isDigit m2' = true /\ H <= 111).
  { cbv zeta.
    destruct (eqb_str (dropWhile isSpace rest) AM
              || eqb_str (dropWhile isSpace rest) PM); [|discriminate].
    intros H. injection H as <-.
    exists (to24Hour (parseInt h) (dropWhile isSpace rest)), m1, m2.
    repeat split; try assumption. apply to24Hour_bound, Hh. }
  destruct rest as [|c rest]; [|exact H12].
  destruct ((0 <=? parseInt h) && (parseInt h <=? 23)) eqn:Ec; [|exact H12].
  intros H. injection H as <-. exists (parseInt h), m1, m2.
  repeat split; try assumption. lia.
Qed.

Lemma normalizeTime_again (H m1 m2 : N) :
  isDigit m1 = true -> isDigit m2 = true -> H <= 111 ->
  (H <= 23 ->
   normalizeTime (formatTime H [m1; m2]) = Ok (formatTime H [m1; m2])) /\
  (23 < H ->
   normalizeTime (formatTime H [m1; m2])
   = Err (InvalidFormat (formatTime H [m1; m2]))).
Proof.
  intros H1 H2 HH. unfold formatTime.
  destruct (hour_text H HH) as [[Hle [a [b [E [Ha [Hb Hp]]]]]]
                               | [Hge [a [b [c [E [Ha [Hb Hc]]]]]]]];
    rewrite E.
  - assert (Hd : digits [a; b]) by (repeat constructor; assumption).
    assert (Hl : (1 <= List.length [a; b] <= 2)%nat) by (simpl; lia).
    split.
    + intros H23.
      change ([a; b] ++ colon :: [m1; m2]) with ([a; b] ++ [colon; m1; m2]).
      rewrite normalizeTime_24; try assumption; [|lia].
      unfold formatTime. rewrite Hp, E. reflexivity.
    + intros H23. unfold normalizeTime.
      change ([a; b] ++ colon :: [m1; m2]) with ([a; b] ++ [colon; m1; m2]).
      rewrite normalizeTime_24_shape by assumption.
      unfold normalizeTime24, time24Match, time12Match.
      rewrite (matchHourMinute_spec [a; b] m1 m2 []) by assumption.
      rewrite Hp.
      assert (E23 : (H <=? 23) = false) by (apply N.leb_gt; lia).
      rewrite E23, andb_false_r. reflexivity.
  - split; [intros; lia|]. intros _. unfold normalizeTime.
    rewrite time_text_fixed.
    2:{ simpl.
        repeat (apply Forall_cons;
                [first [left; assumption | right; reflexivity]|]).
        apply Forall_nil. }
    unfold normalizeTime24, time24Match, time12Match, matchHourMinute.
    assert (Ec : (c =? colon) = false).
    { apply inRange_spec in Hc. apply N.eqb_neq. unfold colon. lia. }
    assert (Eb : (b =? colon) = false).
    { apply inRange_spec in Hb. apply N.eqb_neq. unfold colon. lia. }
    simpl. rewrite Ec, Eb, !andb_false_r. reflexivity.
Qed.

(** X4: what [normalizeTime] returns is an hour of two or three digits,
    ":" and two minute digits.  Given to [normalizeTime] again it comes
    back as it is when the hour is at most 23, and is refused when the
    hour is larger (which the 12-hour branch can produce). *)
Theorem normalizeTime_result_again (s r : jsstring) :
  normalizeTime s = Ok r ->
  exists H m1 m2,
    r = formatTime H [m1; m2] /\ isDigit m1 = true /\ isDigit m2 = true /\
    H <= 111 /\
    (H <= 23 -> normalizeTime r = Ok r) /\
    (23 < H -> normalizeTime r = Err (InvalidFormat r)).
Proof.
  intros Hs. apply normalizeTime_Ok_inv in Hs.
  destruct Hs as [H [m1 [m2 [-> [H1 [H2 HH]]]]]].
  exists H, m1, m2. repeat split; try assumption;
    apply (normalizeTime_again H m1 m2 H1 H2 HH).
Qed.

(** X5: white space before and after the time is ignored: the padded
    input succeeds exactly when the bare one does, with the same result. *)
Theorem normalizeTime_padding (l s r : jsstring) :
  Forall (fun c => isSpace c = true) l ->
  Forall (fun c => isSpace c = true) r ->
  (forall x, normalizeTime (l ++ s ++ r) = Ok x <-> normalizeTime s = Ok x) /\
  (normalizeTime (l ++ s ++ r) = Err (InvalidFormat (l ++ s ++ r)) <->
   normalizeTime s = Err (InvalidFormat s)).
Proof.
  intros Hl Hr. unfold normalizeTime. rewrite (trim_padding l s r Hl Hr).
  destruct (normalizeTime24 (toUpperCase (trim s))).
  - split; [intros x; tauto|]. split; discriminate.
  - destruct (time12Match (toUpperCase (trim s))) as [[[h m] p]|].
    + split; [intros x; tauto|]. split; discriminate.
    + split; [intros x; split; discriminate|]. split; reflexivity.
Qed.
End TimeMore.

Lemma normalizeTime_result_again_witness :
  exists H m1 m2,
    str "21:05" = formatTime H [m1; m2] /\ isDigit m1 = true /\
    isDigit m2 = true /\ H <= 111 /\
    (H <= 23 -> normalizeTime (str "21:05") = Ok (str "21:05")) /\
    (23 < H -> normalizeTime (str "21:05") = Err (InvalidFormat (str "21:05"))).
Proof.
  apply (@normalizeTime_result_again basicLatin (str "9:05 pm") (str "21:05")).
  reflexivity.
Defined.

Lemma normalizeTime_padding_witness :
  normalizeTime (str "  7:45 ") = Ok (str "07:45").
Proof.
  apply (proj1 (@normalizeTime_padding basicLatin (str "  ") (str "7:45")
                  (str " ") ltac:(repeat constructor) ltac:(repeat constructor))
           (str "07:45")).
  reflexivity.
Defined.

(** ** More on normalizeDate *)

Module DateMore.
Import JSDate JSDateFacts.
Local Open Scope Z_scope.

Lemma isYMD_head (c : N) (t : jsstring) :
  isYMD (c :: t) = true -> isDigit c = true.
Proof.
  destruct t as [|y2 [|y3 [|y4 [|h1 [|m1 [|m2 [|h2 [|d1 [|d2 [|? ?]]]]]]]]]];
    try discriminate.
  unfold isYMD. cbn [forallb]. rewrite !andb_true_iff. tauto.
Qed.

Lemma isoDate_YMD_year (d : Z) :
  isYMD (isoDate d) = true -> 0 <= YearFromDay d <= 9999.
Proof.
  unfold isoDate. cbv zeta. unfold isoYear.
  destruct ((0 <=? YearFromDay d) && (YearFromDay d <=? 9999)) eqn:E.
  - intros _. apply andb_true_iff in E. rewrite !Z.leb_le in E. exact E.
  - simpl. intros H. apply isYMD_head in H.
    destruct (YearFromDay d <? 0); discriminate H.
Qed.

Section Again.
Context {dh : DateHost}.

Lemma normalizeDate_Ok_inv (s r : jsstring) :
  normalizeDate s = Ok r ->
  exists t, parse s = Some t /\ r = isoDate (Day t).
Proof.
  unfold normalizeDate. destruct (parse s) as [t|] eqn:E; [|discriminate].
  intros H. injection H as <-. exists t. split; [reflexivity|].
  apply beforeT_toISOString.
Qed.

(** X6: a result of the form YYYY-MM-DD is a date that [normalizeDate]
    returns as it is, on every host: normalising twice is normalising
    once. *)
Theorem normalizeDate_idempotent (s r : jsstring) :
  normalizeDate s = Ok r -> isYMD r = true -> normalizeDate r = Ok r.
Proof.
  intros Hs Hr. apply normalizeDate_Ok_inv in Hs.
  destruct Hs as [t [_ ->]].
  pose proof (isoDate_YMD_year _ Hr) as Hy.
  unfold isoDate in *. cbv zeta in *.
  set (d := Day t) in *. set (y := YearFromDay d) in *.
  set (leap := if isLeap y then 1 else 0) in *.
  set (n := d - DayFromYear y) in *.
  assert (Hn : 0 <= n < 365 + leap).
  { pose proof (dayWithinYear_range d) as H. fold y in H. fold n in H.
    unfold DaysInYear in H. subst leap. destruct (isLeap y); lia. }
  assert (Hl : leap = 0 \/ leap = 1) by (subst leap; destruct (isLeap y); auto).
  destruct (monthOfDay_bounds leap n Hl Hn) as [Hm Hd].
  set (m := monthOfDay leap n) in *.
  unfold isoYear in *.
  assert (E : (0 <=? y) && (y <=? 9999) = true)
    by (apply andb_true_iff; split; apply Z.leb_le; lia).
  rewrite E in *.
  apply (normalizeDate_canonical y (m + 1) (n - monthStart leap m + 1));
    try lia.
  unfold daysInMonth. fold leap.
  replace (m + 1 - 1) with m by lia. lia.
Qed.
End Again.
End DateMore.

Lemma normalizeDate_idempotent_witness :
  @normalizeDate utcHost (str "2025-03-03") = Ok (str "2025-03-03").
Proof.
  apply (@DateMore.normalizeDate_idempotent utcHost (str "March 3, 2025"));
    reflexivity.
Defined.

(** ** Saving events: outcomes and invariants *)

Lemma toString_not_nil (k : N) : toString k <> [].
Proof.
  unfold toString. destruct k as [|p]; [discriminate|]. simpl.
  pose proof (DecimalPos.Unsigned.to_uint_nonnil p) as H.
  destruct (Pos.to_uint p); [contradiction | discriminate ..].
Qed.

Lemma toString_digits (k : N) : digits (toString k).
Proof. apply JSDateFacts.digitsOf_digits. Qed.

Lemma extUnit_not_upper (c : N) : extUnit c = true -> isUpper c = false.
Proof.
  intros H.
  assert (Hc : 97 <= c <= 122 \/ 48 <= c <= 57 \/ c = 45 \/ c = 95).
  { unfold extUnit, slugUnit, isLower, isDigit, isHyphen, hyphen, underscore
      in H.
    rewrite !orb_true_iff, !inRange_spec, !N.eqb_eq in H. tauto. }
  unfold isUpper, inRange. apply andb_false_iff. rewrite !N.leb_gt. lia.
Qed.

Lemma digit_extUnit (c : N) :
  isDigit c = true -> extUnit c = true /\ c <> hyphen.
Proof.
  intros H. split.
  - unfold extUnit, slugUnit. rewrite H. destruct (isLower c); reflexivity.
  - apply inRange_spec in H. unfold hyphen. lia.
Qed.

Lemma noDouble_join (a b : jsstring) :
  noDouble a -> (forall l, a <> l ++ [hyphen]) ->
  noDouble b -> (forall l, b <> hyphen :: l) ->
  noDouble (a ++ hyphen :: b).
Proof.
  intros Ha Hat Hb Hbl. induction a as [|x a IH]; intros l1 l2 E.
  - simpl in E. destruct l1 as [|y l1]; simpl in E.
    + injection E as E2. exact (Hbl _ E2).
    + injection E as _ E2. exact (Hb _ _ E2).
  - destruct l1 as [|y l1]; simpl in E; injection E as E1 E2.
    + subst x. destruct a as [|z a]; simpl in E2.
      * exact (Hat [] eq_refl).
      * injection E2 as E3 _. subst z. exact (Ha [] a eq_refl).
    + subst y. revert E2. apply IH.
      * eapply noDouble_tail, Ha.
      * intros l E. apply (Hat (x :: l)). simpl. congruence.
Qed.

Lemma candidate_units (base : jsstring) (k : N) :
  Forall (fun c => extUnit c = true) base ->
  Forall (fun c => extUnit c = true) (candidate base k).
Proof.
  intros H. unfold candidate. apply Forall_app; split; [exact H|].
  constructor; [reflexivity|].
  eapply Forall_impl; [|apply toString_digits].
  intros c Hc. apply digit_extUnit, Hc.
Qed.

Lemma candidate_well_formed (base : jsstring) (k : N) :
  WellFormedSlug extUnit base -> base <> [] ->
  WellFormedSlug extUnit (candidate base k).
Proof.
  intros [Hu Hlow Hl Ht Hd] Hne.
  assert (Hcu := candidate_units base k Hu).
  constructor.
  - exact Hcu.
  - eapply Forall_impl; [|exact Hcu]. apply extUnit_not_upper.
  - intros l E. destruct base as [|c t]; [contradiction|].
    unfold candidate in E. simpl in E. injection E as -> _.
    exact (Hl t eq_refl).
  - intros l E. unfold candidate in E.
    destruct (exists_last (toString_not_nil k)) as [ds [x Ex]].
    pose proof (toString_digits k) as Hdg. rewrite Ex in E, Hdg.
    change (base ++ hyphen :: ds ++ [x]) with (base ++ (hyphen :: ds) ++ [x])
      in E.
    rewrite app_assoc in E. apply app_inj_tail in E. destruct E as [_ ->].
    apply Forall_app in Hdg. destruct Hdg as [_ Hx].
    inversion Hx as [|? ? Hh _]; subst. discriminate Hh.
  - unfold candidate. apply noDouble_join; try assumption.
    + intros l1 l2 E. pose proof (toString_digits k) as Hdg.
      rewrite E in Hdg. apply Forall_app in Hdg. destruct Hdg as [_ Hdg].
      inversion Hdg as [|? ? Hh _]; subst. discriminate Hh.
    + intros l E. pose proof (toString_digits k) as Hdg.
      rewrite E in Hdg. inversion Hdg as [|? ? Hh _]; subst. discriminate Hh.
Qed.

Lemma slugLoop_free (events : list Event) (id : N) (base : jsstring)
    (fuel : nat) (slug0 : jsstring) (counter : N) (r : jsstring) :
  slugLoop fuel events id base slug0 counter = Some r ->
  slugFree events id r /\
  (r = slug0 \/ exists k, counter <= k /\ r = candidate base k).
Proof.
  intros H. apply slugLoop_result in H.
  destruct H as [[Hf ->] | [_ [k [Hk [-> [Hf _]]]]]]; split; eauto.
Qed.

Section SaveMore.
Context {uc : UnicodeCase} {dh : JSDate.DateHost}.

(** A failing hook fails in [normalizeDate] or in [normalizeTime]. *)
Lemma preSaveEvent_Err (fuel : nat) (events : list Event) (d : EventDoc)
    (err : error) :
  preSaveEvent fuel events d = Some (Err err) ->
  exists input, err = InvalidFormat input.
Proof.
  unfold preSaveEvent.
  destruct (if isModified "title" d || isNew d
            then option_map (set_slug (this d)) (uniqueSlug fuel events (this d))
            else Some (this d)) as [e1|]; [|discriminate].
  intros H. injection H as H. revert H.
  assert (Hd : forall s, normalizeDate s = Err err ->
                 exists input, err = InvalidFormat input).
  { intros s. unfold normalizeDate. destruct (JSDate.parse s); [discriminate|].
    intros H. injection H as <-. eauto. }
  assert (Ht : forall s, normalizeTime s = Err err ->
                 exists input, err = InvalidFormat input).
  { intros s H. apply normalizeTime_Err_iff in H. destruct H as [-> _]. eauto. }
  destruct (isModified "date" d || isNew d);
    destruct (isModified "time" d || isNew d);
    try (destruct (normalizeDate (date e1)) as [dt|e'] eqn:End);
    cbn [bind time set_date];
    try (destruct (normalizeTime (time e1)) as [tm|e''] eqn:Enm);
    cbn [bind]; intros H; try discriminate H; injection H as H; subst;
    first [eapply Hd; eassumption | eapply Ht; eassumption].
Qed.

Lemma saveEvent_cases (fuel : nat) (events others events' : list Event)
    (d : EventDoc) (r : result Event) :
  saveEvent fuel events others d = Some (r, events') ->
  (r = Err ValidationFailed /\ events' = events ++ others
   /\ validateEvent (this d) = false) \/
  (exists input, r = Err (InvalidFormat input) /\ events' = events ++ others) \/
  (exists e, preSaveEvent fuel events d = Some (Ok e) /\
     validateEvent (this d) = true /\
     ((r = Ok e /\
       (if isNew d then insertEvent (events ++ others) e
        else replaceEvent (events ++ others) e)
       = Ok events') \/
      (r = Err DuplicateSlug /\ events' = events ++ others /\
       (if isNew d then insertEvent (events ++ others) e
        else replaceEvent (events ++ others) e)
       = Err DuplicateSlug))).
Proof.
  unfold saveEvent. destruct (validateEvent (this d)) eqn:Ev.
  - destruct (preSaveEvent fuel events d) as [[e|err]|] eqn:Eh;
      [| |discriminate].
    + intros H. right; right. exists e. split; [reflexivity|].
      split; [reflexivity|].
      destruct (if isNew d then insertEvent (events ++ others) e
                else replaceEvent (events ++ others) e)
        as [ev|err] eqn:Ew.
      * injection H as <- <-. left. auto.
      * injection H as <- <-. right.
        assert (err = DuplicateSlug) as ->.
        { destruct (isNew d); unfold insertEvent, replaceEvent in Ew;
            destruct (existsb _ (events ++ others)); congruence. }
        auto.
    + intros H. injection H as <- <-. right; left.
      destruct (preSaveEvent_Err _ _ _ _ Eh) as [input ->]. eauto.
  - intros H. injection H as <- <-. left. auto.
Qed.

(** What the hook did to a document that is new. *)
Lemma preSaveEvent_new (fuel : nat) (events : list Event) (d : EventDoc)
    (e : Event) :
  isNew d = true ->
  preSaveEvent fuel events d = Some (Ok e) ->
  _id e = _id (this d) /\ title e = title (this d) /\
  description e = description (this d) /\ tags e = tags (this d) /\
  normalizeDate (date (this d)) = Ok (date e) /\
  normalizeTime (time (this d)) = Ok (time e) /\
  slugFree events (_id e) (slug e) /\
  (slug e = generateSlug (title e) \/
   exists k, 1 <= k /\ slug e = candidate (generateSlug (title e)) k).
Proof.
  intros Hn H. apply preSaveEvent_Ok in H.
  destruct H as [s [dt [tm [-> [Hs [Hd Ht]]]]]].
  rewrite Hn, !orb_true_r in *.
  cbn [_id title description tags date time slug set_time set_date set_slug].
  unfold uniqueSlug in Hs. apply slugLoop_free in Hs. destruct Hs as [Hf Hs].
  repeat split; assumption.
Qed.


(** The loop does not depend on the identifier of a document that is not
    in the collection. *)
Lemma findOneSlugNotId_fresh (events : list Event) (s : jsstring) (id : N) :
  (forall x, In x events -> _id x <> id) ->
  findOneSlugNotId events s id = find (fun e => eqb_str (slug e) s) events.
Proof.
  intros Hfresh. unfold findOneSlugNotId.
  induction events as [|x l IH]; simpl; [reflexivity|].
  assert (Hx : negb (_id x =? id) = true)
    by (apply negb_true_iff, N.eqb_neq, Hfresh; left; reflexivity).
  rewrite Hx, andb_true_r.
  destruct (eqb_str (slug x) s); [reflexivity|].
  apply IH. intros y Hy. apply Hfresh. right. exact Hy.
Qed.

Lemma slugLoop_fresh (events : list Event) (id1 id2 : N) (base : jsstring)
    (fuel : nat) (slug0 : jsstring) (counter : N) :
  (forall x, In x events -> _id x <> id1) ->
  (forall x, In x events -> _id x <> id2) ->
  slugLoop fuel events id1 base slug0 counter
  = slugLoop fuel events id2 base slug0 counter.
Proof.
  intros H1 H2. revert slug0 counter.
  induction fuel as [|fuel IH]; intros slug0 counter; simpl; [reflexivity|].
  rewrite (findOneSlugNotId_fresh events slug0 id1 H1),
    (findOneSlugNotId_fresh events slug0 id2 H2).
  destruct (find _ events); [apply IH | reflexivity].
Qed.


(** X8: the check and the write are not one step.  Two requests create
    events whose titles give the same base slug, and both hooks read the
    collection [events]: they pick the same slug.  The first write stores
    its event; the second meets it at the unique index and fails, the
    collection keeping the first event only (the hook is not run again).
    Had the second request read the collection after the first write, it
    would have stored its event under another slug. *)
Theorem createEvent_race (fuel : nat) (events : list Event) (id1 id2 : N)
    (f1 f2 : Event) (dt1 tm1 dt2 tm2 : jsstring) :
  (List.length events + 3 <= fuel)%nat ->
  (forall x, In x events -> _id x <> id1 /\ _id x <> id2) ->
  id1 <> id2 ->
  validateEvent (this (newEvent id1 f1)) = true ->
  validateEvent (this (newEvent id2 f2)) = true ->
  normalizeDate (date f1) = Ok dt1 -> normalizeTime (time f1) = Ok tm1 ->
  normalizeDate (date f2) = Ok dt2 -> normalizeTime (time f2) = Ok tm2 ->
  generateSlug (trim (title f1)) = generateSlug (trim (title f2)) ->
  exists e1 e2,
    createEvent fuel events [] id1 f1 = Some (Ok e1, events ++ [e1]) /\
    createEvent fuel events [e1] id2 f2
    = Some (Err DuplicateSlug, events ++ [e1]) /\
    createEvent fuel (events ++ [e1]) [] id2 f2
    = Some (Ok e2, (events ++ [e1]) ++ [e2]) /\
    slug e2 <> slug e1.
Proof.
  intros Hfuel Hfresh Hids Hv1 Hv2 Hd1 Ht1 Hd2 Ht2 Hbase.
  assert (Hfuel' : (List.length events + 2 <= fuel)%nat) by lia.
  destruct (preSaveEvent_picks fuel events id1 f1 dt1 tm1 Hfuel' Hd1 Ht1)
    as [s1 [Hs1 Hh1]].
  destruct (preSaveEvent_picks fuel events id2 f2 dt2 tm2 Hfuel' Hd2 Ht2)
    as [s2 [Hs2 Hh2]].
  assert (Hsame : s2 = s1).
  { rewrite <- Hbase in Hs2.
    rewrite (slugLoop_fresh events id2 id1) in Hs2;
      [congruence | |]; intros x Hx; apply (Hfresh x Hx). }
  subst s2.
  set (e1 := set_time (set_date (set_slug (this (newEvent id1 f1)) s1) dt1) tm1)
    in *.
  set (e2' := set_time (set_date (set_slug (this (newEvent id2 f2)) s1) dt2) tm2)
    in *.
  assert (Hlen : (List.length (events ++ [e1]) + 2 <= fuel)%nat)
    by (rewrite length_app; simpl; lia).
  destruct (preSaveEvent_picks fuel (events ++ [e1]) id2 f2 dt2 tm2 Hlen Hd2 Ht2)
    as [s3 [Hs3 Hh3]].
  pose proof (slugLoop_free _ _ _ _ _ _ _ Hs1) as [Hf1 _].
  pose proof (slugLoop_free _ _ _ _ _ _ _ Hs3) as [Hf3 _].
  set (e2 := set_time (set_date (set_slug (this (newEvent id2 f2)) s3) dt2) tm2)
    in *.
  exists e1, e2. split; [|split; [|split]].
  - unfold createEvent, saveEvent. rewrite Hv1, Hh1, app_nil_r.
    cbn [isNew newEvent]. rewrite insertEvent_fresh; [reflexivity | |].
    + intros x Hx. apply (Hfresh x Hx).
    + exact Hf1.
  - unfold createEvent, saveEvent. rewrite Hv2, Hh2.
    cbn [isNew newEvent].
    rewrite (insertEvent_taken (events ++ [e1]) e2' e1); [reflexivity | |].
    + apply in_or_app. right. left. reflexivity.
    + reflexivity.
  - unfold createEvent, saveEvent. rewrite Hv2, Hh3, app_nil_r.
    cbn [isNew newEvent]. rewrite insertEvent_fresh; [reflexivity | |].
    + intros x Hx. apply in_app_or in Hx. destruct Hx as [Hx | [<- | []]].
      * apply (Hfresh x Hx).
      * exact Hids.
    + exact Hf3.
  - intros E. apply (Hf3 e1).
    + apply in_or_app. right. left. reflexivity.
    + exact Hids.
    + symmetry. exact E.
Qed.
End SaveMore.

Section KeysMore.
Context {uc : UnicodeCase} {dh : JSDate.DateHost}.

Lemma replaceEvent_ids (events : list Event) (e : Event) :
  map _id (map (fun x => if _id x =? _id e then e else x) events)
  = map _id events.
Proof.
  induction events as [|x l IH]; simpl; [reflexivity|].
  rewrite IH. destruct (N.eqb_spec (_id x) (_id e)) as [E | _];
    [rewrite E|]; reflexivity.
Qed.

Lemma replaceEvent_slugs (events : list Event) (e : Event) :
  NoDup (map _id events) -> NoDup (map slug events) ->
  (forall x, In x events -> _id x <> _id e -> slug x <> slug e) ->
  NoDup (map slug (map (fun x => if _id x =? _id e then e else x) events)).
Proof.
  induction events as [|x l IH]; intros Hi Hs Hc; simpl; [constructor|].
  simpl in Hi, Hs. inversion Hi as [|? ? Hxi Hi']; subst.
  inversion Hs as [|? ? Hxs Hs']; subst.
  assert (Hc' : forall y, In y l -> _id y <> _id e -> slug y <> slug e)
    by (intros y Hy; apply Hc; right; exact Hy).
  destruct (N.eqb_spec (_id x) (_id e)) as [E | E].
  - assert (Hsame : map (fun y => if _id y =? _id e then e else y) l = l).
    { rewrite <- (map_id l) at 2. apply map_ext_in. intros y Hy.
      destruct (N.eqb_spec (_id y) (_id e)) as [E' | _]; [|reflexivity].
      exfalso. apply Hxi. rewrite E, <- E'. apply in_map, Hy. }
    rewrite Hsame. constructor; [|exact Hs'].
    intros Hin. apply in_map_iff in Hin. destruct Hin as [y [Hy1 Hy2]].
    apply (Hc' y Hy2); [|exact Hy1].
    intros E'. apply Hxi. rewrite E, <- E'. apply in_map, Hy2.
  - constructor; [|apply IH; assumption].
    intros Hin. apply in_map_iff in Hin. destruct Hin as [y' [Hy1 Hy2]].
    apply in_map_iff in Hy2. destruct Hy2 as [y [Hy3 Hy4]].
    destruct (N.eqb_spec (_id y) (_id e)) as [E' | E'].
    + subst y'. apply (Hc x (or_introl eq_refl) E). symmetry. exact Hy1.
    + subst y'. apply Hxs. rewrite <- Hy1. apply in_map, Hy4.
Qed.

(** X9: saving keeps the keys of the collection unique: if the
    identifiers and the slugs are pairwise different in the collection
    that the write meets, they are so afterwards, whether the save
    inserts, replaces or fails, and whatever other requests stored since
    the hook read the collection. *)
Theorem saveEvent_uniqueKeys (fuel : nat) (events others events' : list Event)
    (d : EventDoc) (r : result Event) :
  uniqueKeys (events ++ others) ->
  saveEvent fuel events others d = Some (r, events') ->
  uniqueKeys events'.
Proof.
  intros [Hi Hs] H. apply saveEvent_cases in H.
  remember (events ++ others) as stored eqn:Est.
  destruct H as [[_ [-> _]] | [[input [_ ->]] | [e [_ [_ Hw]]]]];
    try (split; assumption).
  destruct Hw as [[_ Hw] | [_ [-> _]]]; [|split; assumption].
  destruct (isNew d).
  - apply insertEvent_Ok in Hw. destruct Hw as [-> Hw]. split.
    + rewrite map_app. simpl. apply NoDup_app; [exact Hi | repeat constructor; intros [] |].
      intros a Ha [<- | []]. apply in_map_iff in Ha.
      destruct Ha as [x [Hx1 Hx2]]. exact (proj1 (Hw x Hx2) Hx1).
    + rewrite map_app. simpl. apply NoDup_app; [exact Hs | repeat constructor; intros [] |].
      intros a Ha [<- | []]. apply in_map_iff in Ha.
      destruct Ha as [x [Hx1 Hx2]]. exact (proj2 (Hw x Hx2) Hx1).
  - unfold replaceEvent in Hw.
    destruct (existsb _ stored) eqn:E; [discriminate|].
    injection Hw as <-. split.
    + rewrite replaceEvent_ids. exact Hi.
    + apply replaceEvent_slugs; try assumption.
      intros x Hx Hid Hsl.
      assert (existsb (fun x => negb (_id x =? _id e)
                                && eqb_str (slug x) (slug e)) stored = true).
      { apply existsb_exists. exists x. split; [exact Hx|].
        apply andb_true_iff. split.
        - apply negb_true_iff, N.eqb_neq, Hid.
        - apply eqb_str_spec, Hsl. }
      congruence.
Qed.

Lemma createEvent_Ok_inv (fuel : nat) (events others events' : list Event)
    (id : N) (fields : Event) (e : Event) :
  createEvent fuel events others id fields = Some (Ok e, events') ->
  preSaveEvent fuel events (newEvent id fields) = Some (Ok e) /\
  events' = (events ++ others) ++ [e] /\
  (forall x, In x (events ++ others) -> _id x <> _id e /\ slug x <> slug e) /\
  validateEvent (this (newEvent id fields)) = true.
Proof.
  intros H. unfold createEvent in H. apply saveEvent_cases in H.
  destruct H as [[H _] | [[input [H _]] | [e' [Hh [Hv Hw]]]]];
    try discriminate H.
  destruct Hw as [[He Hw] | [He _]]; [|discriminate He].
  injection He as <-. cbn [isNew newEvent] in Hw.
  apply insertEvent_Ok in Hw. destruct Hw as [-> Hw]. auto.
Qed.

(** The slug of a created event is over the alphabet of slugs. *)
Lemma created_slug_units (fuel : nat) (events others events' : list Event)
    (id : N) (fields : Event) (e : Event) :
  createEvent fuel events others id fields = Some (Ok e, events') ->
  Forall (fun c => extUnit c = true) (slug e).
Proof.
  intros H. apply createEvent_Ok_inv in H. destruct H as [Hh _].
  destruct (preSaveEvent_new _ _ (newEvent id fields) _ eq_refl Hh)
    as [_ [_ [_ [_ [_ [_ [_ Hs]]]]]]].
  pose proof (wf_units _ _ (generateSlug_shape (title e))) as Hu.
  destruct Hs as [-> | [k [_ ->]]]; [exact Hu|].
  apply candidate_units, Hu.
Qed.

(** X10: the slug that [Event.create] assigns is a well-formed slug when
    the title has a word character.  When it has none the base slug is
    empty, and the slug assigned is empty or a hyphen followed by a
    number. *)
Theorem createEvent_slug_well_formed (fuel : nat)
    (events others events' : list Event) (id : N) (fields : Event)
    (e : Event) :
  createEvent fuel events others id fields = Some (Ok e, events') ->
  (generateSlug (title e) <> [] ->
   WellFormedSlug (fun c => slugUnit c || (c =? underscore)) (slug e)) /\
  (generateSlug (title e) = [] ->
   slug e = [] \/ exists k, 1 <= k /\ slug e = hyphen :: toString k).
Proof.
  intros H. apply createEvent_Ok_inv in H. destruct H as [Hh _].
  destruct (preSaveEvent_new _ _ (newEvent id fields) _ eq_refl Hh)
    as [_ [_ [_ [_ [_ [_ [_ Hs]]]]]]].
  split.
  - intros Hne. destruct Hs as [-> | [k [_ ->]]].
    + apply generateSlug_shape.
    + apply candidate_well_formed; [apply generateSlug_shape | exact Hne].
  - intros He. rewrite He in Hs. destruct Hs as [-> | [k [Hk ->]]];
      [left; reflexivity | right; exists k; auto].
Qed.
End KeysMore.

Lemma saveEvent_uniqueKeys_witness :
  uniqueKeys [devConStored; rustFest; devConSecond].
Proof.
  apply (@saveEvent_uniqueKeys basicLatin isoOnly 3 [devConStored] [rustFest] _
           (newEvent 2 devCon)
           (Ok devConSecond)).
  - split; cbn; repeat (apply NoDup_cons; [cbn; intuition discriminate|]);
      apply NoDup_nil.
  - vm_compute. reflexivity.
Defined.


Lemma createEvent_race_witness :
  exists e1 e2,
    @createEvent basicLatin isoOnly 4 [devConStored] [] 2 devCon
    = Some (Ok e1, [devConStored] ++ [e1]) /\
    @createEvent basicLatin isoOnly 4 [devConStored] [e1] 3 devCon
    = Some (Err DuplicateSlug, [devConStored] ++ [e1]) /\
    @createEvent basicLatin isoOnly 4 ([devConStored] ++ [e1]) [] 3 devCon
    = Some (Ok e2, ([devConStored] ++ [e1]) ++ [e2]) /\
    slug e2 <> slug e1.
Proof.
  apply (@createEvent_race basicLatin isoOnly 4 [devConStored] 2 3
           devCon devCon (str "2025-03-03") (str "09:30")
           (str "2025-03-03") (str "09:30")); try reflexivity.
  - intros x [<- | []]. split; discriminate.
  - discriminate.
Defined.

Lemma createEvent_slug_well_formed_witness :
  WellFormedSlug (fun c => slugUnit c || (c =? underscore)) (str "devcon-1").
Proof.
  refine (proj1 (@createEvent_slug_well_formed basicLatin isoOnly 3
                   [devConStored] [rustFest] _ 2 devCon
                   devConSecond _) _).
  - vm_compute. reflexivity.
  - vm_compute. discriminate.
Defined.

(** ** The slug route, the page and the similar events *)

Lemma find_slug_unique (events : list Event) (e : Event) :
  NoDup (map slug events) -> In e events ->
  find (fun x => eqb_str (slug x) (slug e)) events = Some e.
Proof.
  induction events as [|x l IH]; intros Hn Hin; [destruct Hin|].
  simpl in Hn. inversion Hn as [|? ? Hx Hn']; subst. simpl.
  destruct Hin as [-> | Hin].
  - rewrite eqb_str_refl. reflexivity.
  - destruct (eqb_str (slug x) (slug e)) eqn:E; [|apply IH; assumption].
    apply eqb_str_spec in E. exfalso. apply Hx. rewrite E.
    apply in_map, Hin.
Qed.

Lemma find_slug_appended (events : list Event) (e : Event) :
  (forall x, In x events -> slug x <> slug e) ->
  find (fun x => eqb_str (slug x) (slug e)) (events ++ [e]) = Some e.
Proof.
  induction events as [|x l IH]; intros H; simpl.
  - rewrite eqb_str_refl. reflexivity.
  - destruct (eqb_str (slug x) (slug e)) eqn:E.
    + apply eqb_str_spec in E. exfalso. exact (H x (or_introl eq_refl) E).
    + apply IH. intros y Hy. apply H. right; exact Hy.
Qed.

Lemma find_slug_none (events : list Event) (s : jsstring) :
  (forall x, In x events -> slug x <> s) ->
  find (fun x => eqb_str (slug x) s) events = None.
Proof.
  induction events as [|x l IH]; intros H; simpl; [reflexivity|].
  destruct (eqb_str (slug x) s) eqn:E.
  - apply eqb_str_spec in E. exfalso. exact (H x (or_introl eq_refl) E).
  - apply IH. intros y Hy. apply H. right; exact Hy.
Qed.

Lemma sharesTag_sym (a b : Event) : sharesTag a b = sharesTag b a.
Proof.
  destruct (sharesTag a b) eqn:E1, (sharesTag b a) eqn:E2; try reflexivity.
  - apply sharesTag_spec in E1. destruct E1 as [t [H1 H2]].
    assert (sharesTag b a = true) by (apply sharesTag_spec; eauto).
    congruence.
  - apply sharesTag_spec in E2. destruct E2 as [t [H1 H2]].
    assert (sharesTag a b = true) by (apply sharesTag_spec; eauto).
    congruence.
Qed.

Section RouteMore.
Context {uc : UnicodeCase}.

Lemma sanitizeSlug_plain (s : jsstring) :
  Forall (fun c => extUnit c = true) s -> sanitizeSlug s = s.
Proof.
  intros H. unfold sanitizeSlug.
  rewrite trim_no_space.
  - apply toLowerCase_plain. eapply Forall_impl; [|exact H].
    intros c Hc. split; [apply extUnit_not_upper, Hc|].
    apply slugUnit_plain, Hc.
  - eapply Forall_impl; [|exact H]. intros c Hc. apply slugUnit_plain, Hc.
Qed.

Lemma GET_found (events : list Event) (p : jsstring) (e : Event) :
  sanitizeSlug p = slug e -> slug e <> [] ->
  find (fun x => eqb_str (slug x) (slug e)) events = Some e ->
  GET (Ok events) (Some p)
  = {| status := 200;
       body := SuccessBody (str "Event fetched successfully") e |}.
Proof.
  intros Hs Hne Hf. unfold GET.
  destruct p as [|c p].
  - exfalso. apply Hne. rewrite <- Hs. reflexivity.
  - rewrite Hs. destruct (slug e) as [|c' t] eqn:E; [contradiction|].
    cbn [List.length Nat.eqb]. rewrite Hf. reflexivity.
Qed.

Lemma GET_event (db : result (list Event)) (p : option jsstring) (e : Event) :
  bodyEvent (GET db p) = Some e ->
  status (GET db p) = 200 /\ slug e <> [] /\
  exists s events, p = Some s /\ db = Ok events /\ In e events /\
    slug e = sanitizeSlug s.
Proof.
  unfold GET. destruct p as [s|]; [|discriminate].
  destruct s as [|c s']; [discriminate|].
  set (s := c :: s') in *.
  destruct (sanitizeSlug s) as [|c1 t1] eqn:Es; cbn [List.length Nat.eqb];
    [discriminate|].
  destruct db as [events|err0]; [|discriminate].
  destruct (find _ events) as [e0|] eqn:Ef; cbn [status bodyEvent body];
    [|discriminate].
  intros H. injection H as <-. apply find_some in Ef.
  destruct Ef as [Hin He]. apply eqb_str_spec in He.
  split; [reflexivity|]. split; [rewrite He; discriminate|].
  exists s, events. rewrite Es. auto.
Qed.

(** X11: the slug route answers 400 exactly when the parameter is blank,
    before the store is used; otherwise 500 when the store fails, 404
    when no stored event has the sanitised slug, and 200 with the first
    stored event that has it.  An event in the answer is a stored event
    whose slug is the sanitised parameter, and that slug is not empty. *)
Theorem GET_answers (db : result (list Event)) (p : option jsstring) :
  (status (GET db p) = 400 <-> blankSlug p) /\
  (forall s err, p = Some s -> ~ blankSlug p -> db = Err err ->
     GET db p = {| status := 500;
                   body := FailureBody (str "Failed to fetch event") err |}) /\
  (forall s events, p = Some s -> ~ blankSlug p -> db = Ok events ->
     (forall x, In x events -> slug x <> sanitizeSlug s) ->
     status (GET db p) = 404) /\
  (forall e, bodyEvent (GET db p) = Some e ->
     status (GET db p) = 200 /\ slug e <> [] /\
     exists s events, p = Some s /\ db = Ok events /\ In e events /\
       slug e = sanitizeSlug s).
Proof.
  split; [|split; [|split; [|apply GET_event]]]; unfold GET, blankSlug.
  - destruct p as [s|]; [|split; auto].
    destruct s as [|c s']; [split; auto|].
    set (s := c :: s') in *.
    destruct (sanitizeSlug s) as [|c1 t1] eqn:Es; cbn [List.length Nat.eqb];
      [split; auto|].
    destruct db as [events|err0];
      [destruct (find _ events)|]; cbn [status];
      (split; [discriminate | intros H; discriminate H]).
  - intros s err -> Hb ->.
    destruct s as [|c s']; [exfalso; auto|].
    set (s := c :: s') in *.
    destruct (sanitizeSlug s) as [|c1 t1] eqn:Es; cbn [List.length Nat.eqb];
      [exfalso; auto | reflexivity].
  - intros s events -> Hb -> Hn.
    destruct s as [|c s']; [exfalso; auto|].
    set (s := c :: s') in *.
    destruct (sanitizeSlug s) as [|c1 t1] eqn:Es; cbn [List.length Nat.eqb];
      [exfalso; auto|].
    destruct (find _ events) as [e0|] eqn:Ef; [|reflexivity].
    apply find_some in Ef. destruct Ef as [Hin He].
    apply eqb_str_spec in He. exfalso. exact (Hn e0 Hin He).
Qed.
End RouteMore.

Section LookupMore.
Context {uc : UnicodeCase} {dh : JSDate.DateHost}.

(** X12: an event that [Event.create] stored under a slug that is not
    empty is what the slug route returns for that slug, and for every
    parameter that is sanitised to it (upper case, white space around). *)
Theorem createEvent_then_GET (fuel : nat) (events others events' : list Event)
    (id : N) (fields : Event) (e : Event) :
  createEvent fuel events others id fields = Some (Ok e, events') ->
  slug e <> [] ->
  sanitizeSlug (slug e) = slug e /\
  forall p, sanitizeSlug p = slug e ->
    GET (Ok events') (Some p)
    = {| status := 200;
         body := SuccessBody (str "Event fetched successfully") e |}.
Proof.
  intros H Hne.
  pose proof (created_slug_units _ _ _ _ _ _ _ H) as Hu.
  apply createEvent_Ok_inv in H. destruct H as [_ [-> [Hw _]]].
  split; [apply sanitizeSlug_plain, Hu|].
  intros p Hp. apply GET_found; try assumption.
  apply find_slug_appended. intros x Hx. apply (Hw x Hx).
Qed.

(** X13: an event whose title has no word character, created while no
    other event has the empty slug, is stored under the empty slug, and
    no request to the slug route returns it. *)
Theorem createEvent_empty_slug (fuel : nat) (events others events' : list Event)
    (id : N) (fields : Event) (e : Event) :
  createEvent fuel events others id fields = Some (Ok e, events') ->
  filter isWord (toLowerCase (title e)) = [] ->
  slugFree events id [] ->
  slug e = [] /\
  forall db p, bodyEvent (GET db p) <> Some e.
Proof.
  intros H Hw Hf.
  apply createEvent_Ok_inv in H. destruct H as [Hh _].
  apply preSaveEvent_Ok in Hh.
  destruct Hh as [s [dt [tm [-> [Hs _]]]]].
  cbn [isNew newEvent] in Hs. rewrite orb_true_r in Hs.
  cbn [title slug set_time set_date set_slug] in *.
  unfold uniqueSlug in Hs. cbn [this newEvent title _id] in Hs.
  apply generateSlug_no_words in Hw. cbn [this newEvent title] in Hw.
  rewrite Hw in Hs. apply slugLoop_result in Hs.
  destruct Hs as [[_ ->] | [Hn _]]; [|contradiction].
  split; [reflexivity|].
  intros db p Hb. apply GET_event in Hb.
  destruct Hb as [_ [Hne _]]. apply Hne. reflexivity.
Qed.
End LookupMore.

Section SimilarMore.
Context {uc : UnicodeCase}.

(** X14: being similar is symmetric: in a collection with pairwise
    different slugs, [y] is among the events similar to [x] exactly when
    [x] is among those similar to [y]; and no event is similar to
    itself. *)
Theorem getSimilarEventsBySlug_symmetric (events : list Event) (x y : Event) :
  NoDup (map slug events) -> In x events -> In y events ->
  (In y (getSimilarEventsBySlug (Ok events) (slug x)) <->
   In x (getSimilarEventsBySlug (Ok events) (slug y))) /\
  ~ In x (getSimilarEventsBySlug (Ok events) (slug x)).
Proof.
  intros Hn Hx Hy.
  rewrite (similar_resolved _ _ _ (find_slug_unique events x Hn Hx)),
    (similar_resolved _ _ _ (find_slug_unique events y Hn Hy)).
  rewrite !filter_In, !andb_true_iff, !negb_true_iff, !N.eqb_neq.
  rewrite (sharesTag_sym y x). split; [|intros [_ [H _]]; apply H; reflexivity].
  split; intros [_ [Hi Hs]]; repeat split; auto.
Qed.

(** X15: the route sanitises the slug, the action does not.  For a
    parameter that is not itself a stored slug but is sanitised to the
    slug of a stored event, the route returns that event, and the action
    finds no source event: what it returns are not the events similar to
    the one shown but the stored events that have [null] among their
    tags.  The page shows the event with these, so with an empty list
    when no stored event has such a tag. *)
Theorem page_slug_case (events : list Event) (e : Event) (p : jsstring) :
  NoDup (map slug events) -> In e events ->
  slug e <> [] -> description e <> [] ->
  sanitizeSlug p = slug e ->
  (forall x, In x events -> slug x <> p) ->
  GET (Ok events) (Some p)
  = {| status := 200;
       body := SuccessBody (str "Event fetched successfully") e |} /\
  (forall x, In x (getSimilarEventsBySlug (Ok events) p) <->
     In x events /\ In None (tags x)) /\
  EventDetailsPage (Ok events) p
  = PageRenders e (filter (tagsIn [None]) events) /\
  ((forall x, In x events -> ~ In None (tags x)) ->
   EventDetailsPage (Ok events) p = PageRenders e []).
Proof.
  intros Hn He Hne Hd Hs Hp.
  assert (HG : GET (Ok events) (Some p)
               = {| status := 200;
                    body := SuccessBody (str "Event fetched successfully") e |})
    by (apply GET_found; try assumption; apply find_slug_unique; assumption).
  assert (HS : getSimilarEventsBySlug (Ok events) p
               = filter (tagsIn [None]) events)
    by (apply similar_unresolved, find_slug_none, Hp).
  assert (HP : EventDetailsPage (Ok events) p
               = PageRenders e (filter (tagsIn [None]) events)).
  { unfold EventDetailsPage. rewrite HG. cbn [bodyEvent body].
    apply eqb_str_neq in Hd. rewrite Hd, HS. reflexivity. }
  assert (Hin : forall x, In x (filter (tagsIn [None]) events) <->
                  In x events /\ In None (tags x)).
  { intros x. rewrite filter_In, tagsIn_spec. split.
    - intros [Hx [t [Ht [<- | []]]]]. auto.
    - intros [Hx Hnull]. split; [exact Hx|]. exists None.
      split; [exact Hnull | left; reflexivity]. }
  split; [exact HG|]. split; [rewrite HS; exact Hin|]. split; [exact HP|].
  intros Hnone. rewrite HP. f_equal.
  destruct (filter (tagsIn [None]) events) as [|x l] eqn:E; [reflexivity|].
  exfalso. assert (Hx : In x (x :: l)) by (left; reflexivity).
  apply Hin in Hx. destruct Hx as [Hx Hnull]. exact (Hnone x Hx Hnull).
Qed.

(** X16: the page throws on every answer of the route other than 200, a
    404 included; it reaches [notFound()] only for a stored event with an
    empty description; when it renders, it shows the event of the route
    with what the action returns for the same parameter. *)
Theorem EventDetailsPage_outcomes (db : result (list Event)) (p : jsstring) :
  (status (GET db (Some p)) <> 200 -> EventDetailsPage db p = PageThrows) /\
  (EventDetailsPage db p = PageNotFound ->
   exists events e, db = Ok events /\ In e events /\ description e = []) /\
  (forall e similar, EventDetailsPage db p = PageRenders e similar ->
     bodyEvent (GET db (Some p)) = Some e /\
     description e <> [] /\
     similar = getSimilarEventsBySlug db p).
Proof.
  unfold EventDetailsPage.
  destruct (bodyEvent (GET db (Some p))) as [e|] eqn:Eb.
  - pose proof (GET_event db (Some p) e Eb)
      as [Hst [_ [s [events [_ [Hdb [Hin _]]]]]]].
    split; [intros H; contradiction|].
    destruct (eqb_str (description e) []) eqn:Ed.
    + split; [|discriminate]. intros _. apply eqb_str_spec in Ed.
      exists events, e. auto.
    + split; [discriminate|]. intros e' similar H. injection H as <- <-.
      apply eqb_str_neq in Ed. auto.
  - split; [reflexivity|]. split; discriminate.
Qed.
End SimilarMore.

(** ** More on bookings *)

Lemma takeWhile_dropWhile (p : N -> bool) (s : jsstring) :
  s = takeWhile p s ++ dropWhile p s /\
  Forall (fun c => p c = true) (takeWhile p s).
Proof.
  induction s as [|c t [IH1 IH2]]; simpl; [split; [reflexivity|constructor]|].
  destruct (p c) eqn:E.
  - split; [simpl; congruence | constructor; assumption].
  - split; [reflexivity | constructor].
Qed.

Lemma takeWhile_app_stop (p : N -> bool) (a : jsstring) (c : N)
    (r : jsstring) :
  Forall (fun x => p x = true) a -> p c = false ->
  takeWhile p (a ++ c :: r) = a /\ dropWhile p (a ++ c :: r) = c :: r.
Proof.
  intros Ha Hc. induction Ha as [|x a Hx _ [IH1 IH2]]; simpl.
  - rewrite Hc. auto.
  - rewrite Hx, IH1, IH2. auto.
Qed.

Lemma hasInnerDot_split (s : jsstring) :
  hasInnerDot s = true <->
  exists b c, b <> [] /\ c <> [] /\ s = b ++ dot :: c.
Proof.
  unfold hasInnerDot. split.
  - destruct s as [|x t]; [discriminate|]. intros H.
    apply existsb_exists in H. destruct H as [d [Hin Hd]].
    apply N.eqb_eq in Hd. subst d.
    destruct t as [|y t'] using rev_ind; [destruct Hin|].
    rewrite removelast_last in Hin.
    apply in_split in Hin. destruct Hin as [u [v ->]].
    exists (x :: u), (v ++ [y]). repeat split.
    + discriminate.
    + destruct v; discriminate.
    + simpl. rewrite <- app_assoc. reflexivity.
  - intros [b [c [Hb [Hc ->]]]]. destruct b as [|x b]; [contradiction|].
    simpl. apply existsb_exists. exists dot. split; [|reflexivity].
    destruct c as [|y c] using rev_ind; [contradiction|].
    change (b ++ dot :: c ++ [y]) with (b ++ (dot :: c) ++ [y]).
    rewrite app_assoc, removelast_last. apply in_or_app. right. left.
    reflexivity.
Qed.

Lemma EMAIL_REGEX_test_shape (s : jsstring) :
  EMAIL_REGEX_test s = true <-> emailShape s.
Proof.
  unfold EMAIL_REGEX_test, emailShape, emailPart. split.
  - intros H. destruct (takeWhile_dropWhile isPartUnit s) as [Hs Ha].
    destruct (dropWhile isPartUnit s) as [|c domain] eqn:Ed; [discriminate|].
    rewrite !andb_true_iff in H. destruct H as [[[Hl Hc] Hdm] Hdot].
    apply negb_true_iff, eqb_str_neq in Hl. apply N.eqb_eq in Hc. subst c.
    apply hasInnerDot_split in Hdot. destruct Hdot as [b [c [Hb [Hc ->]]]].
    rewrite forallb_forall in Hdm.
    exists (takeWhile isPartUnit s), b, c. repeat split; try assumption.
    + apply Forall_forall. intros x Hx. apply Hdm, in_or_app. left; exact Hx.
    + apply Forall_forall. intros x Hx. apply Hdm, in_or_app.
      right; right; exact Hx.
  - intros [a [b [c [[Ha1 Ha2] [[Hb1 Hb2] [[Hc1 Hc2] ->]]]]]].
    destruct (takeWhile_app_stop isPartUnit a at_sign (b ++ dot :: c) Ha2
                eq_refl) as [-> ->].
    rewrite !andb_true_iff. repeat split.
    + apply negb_true_iff, eqb_str_neq, Ha1.
    + apply forallb_forall. intros x Hx. apply in_app_or in Hx.
      rewrite Forall_forall in Hb2, Hc2.
      destruct Hx as [Hx | [<- | Hx]]; [apply Hb2, Hx | reflexivity
                                        | apply Hc2, Hx].
    + apply hasInnerDot_split. exists b, c. auto.
Qed.

Lemma isPartUnit_spec (c : N) :
  isPartUnit c = true <-> isSpace c = false /\ c <> at_sign.
Proof.
  unfold isPartUnit. rewrite andb_true_iff, !negb_true_iff, N.eqb_neq. tauto.
Qed.

Lemma emailShape_facts (s : jsstring) :
  emailShape s ->
  Forall (fun c => isSpace c = false) s /\
  List.length (filter (fun c => c =? at_sign) s) = 1%nat.
Proof.
  intros [a [b [c [[_ Ha] [[_ Hb] [[_ Hc] ->]]]]]].
  assert (Hsp : forall l, Forall (fun c => isPartUnit c = true) l ->
                  Forall (fun c => isSpace c = false) l).
  { intros l Hl. eapply Forall_impl; [|exact Hl].
    intros x Hx. apply isPartUnit_spec in Hx. tauto. }
  assert (Hat : forall l, Forall (fun c => isPartUnit c = true) l ->
                  filter (fun c => c =? at_sign) l = []).
  { intros l Hl. apply filter_none. eapply Forall_impl; [|exact Hl].
    intros x Hx. apply isPartUnit_spec in Hx. apply N.eqb_neq. tauto. }
  split.
  - apply Forall_app; split; [apply Hsp, Ha|].
    constructor; [reflexivity|]. apply Forall_app; split; [apply Hsp, Hb|].
    constructor; [reflexivity | apply Hsp, Hc].
  - rewrite filter_app. simpl. rewrite filter_app. simpl.
    rewrite (Hat a Ha), (Hat b Hb), (Hat c Hc). reflexivity.
Qed.

(** X17: [EMAIL_REGEX] accepts exactly the strings made of a part, "@", a
    part, "." and a part, the parts being non-empty and free of white
    space and "@"; an accepted string has no white space and exactly one
    "@". *)
Theorem EMAIL_REGEX_accepts (s : jsstring) :
  (EMAIL_REGEX_test s = true <-> emailShape s) /\
  (EMAIL_REGEX_test s = true ->
   Forall (fun c => isSpace c = false) s /\
   List.length (filter (fun c => c =? at_sign) s) = 1%nat).
Proof.
  split; [apply EMAIL_REGEX_test_shape|].
  intros H. apply emailShape_facts, EMAIL_REGEX_test_shape, H.
Qed.

Lemma findById_app (events more : list Event) (i : N) :
  findById events i <> None -> findById (events ++ more) i <> None.
Proof.
  unfold findById. induction events as [|x l IH]; simpl; [congruence|].
  destruct (_id x =? i); [discriminate | exact IH].
Qed.

Lemma findById_replace (events : list Event) (e : Event) (i : N) :
  findById events i <> None ->
  findById (map (fun x => if _id x =? _id e then e else x) events) i <> None.
Proof.
  unfold findById. induction events as [|x l IH]; simpl; [congruence|].
  destruct (N.eqb_spec (_id x) (_id e)) as [E' | E']; simpl.
  - destruct (N.eqb_spec (_id e) i) as [E | E]; [discriminate|].
    assert (Ex : (_id x =? i) = false) by (apply N.eqb_neq; congruence).
    rewrite Ex. exact IH.
  - destruct (_id x =? i); [discriminate | exact IH].
Qed.

Section BookingMore.
Context {uc : UnicodeCase} {dh : JSDate.DateHost}.

Lemma createBooking_Ok_inv (events : list Event) (bookings bookings' : list Booking)
    (id : N) (address : jsstring) (b : Booking) :
  createBooking events bookings id address = (Ok b, bookings') ->
  b = {| eventId := id; email := trim (toLowerCase address) |} /\
  validateBooking b = true /\ findById events id <> None /\
  ~ In b bookings /\ bookings' = bookings ++ [b].
Proof.
  unfold createBooking.
  set (b0 := {| eventId := id; email := trim (toLowerCase address) |}).
  destruct (validateBooking b0) eqn:Ev; [|discriminate].
  unfold preSaveBooking. cbn [orb eventId b0].
  destruct (findById events id) eqn:Ef; [|discriminate].
  unfold insertBooking. destruct (existsb (sameBooking b0) bookings) eqn:Ee;
    [discriminate|].
  intros H. injection H as <- <-. repeat split; try assumption.
  - discriminate.
  - intros Hin. apply existsb_sameBooking in Hin. congruence.
Qed.

(** X18: a stored booking is for a stored event, its address is the
    submitted one lower-cased and trimmed, it passes [EMAIL_REGEX], has no
    upper-case letter of Basic Latin, no white space and exactly one "@",
    and the collection has grown by this one booking. *)
Theorem createBooking_stored (events : list Event)
    (bookings bookings' : list Booking) (id : N) (address : jsstring)
    (b : Booking) :
  createBooking events bookings id address = (Ok b, bookings') ->
  eventId b = id /\ findById events id <> None /\
  email b = trim (toLowerCase address) /\
  EMAIL_REGEX_test (email b) = true /\
  Forall (fun c => isUpper c = false) (email b) /\
  Forall (fun c => isSpace c = false) (email b) /\
  List.length (filter (fun c => c =? at_sign) (email b)) = 1%nat /\
  bookings' = bookings ++ [b].
Proof.
  intros H. apply createBooking_Ok_inv in H.
  destruct H as [-> [Hv [Hf [_ ->]]]].
  unfold validateBooking in Hv. apply andb_true_iff in Hv.
  destruct Hv as [_ Hv]. cbn [eventId email] in *.
  destruct (emailShape_facts _ (proj1 (EMAIL_REGEX_test_shape _) Hv))
    as [Hsp Hat].
  repeat split; try assumption.
  apply trim_Forall, toLowerCase_not_upper.
Qed.

(** X19: every booking refers to a stored event, and this stays so: when
    it holds before a booking is created or an event is saved, it holds
    afterwards, whatever other requests stored while the event was
    saved. *)
Theorem bookingsRefer_kept (events : list Event) (bookings : list Booking) :
  bookingsRefer events bookings ->
  (forall id address,
     bookingsRefer events (snd (createBooking events bookings id address))) /\
  (forall fuel others d r events',
     saveEvent fuel events others d = Some (r, events') ->
     bookingsRefer events' bookings).
Proof.
  intros Hr. split.
  - intros id address.
    destruct (createBooking events bookings id address) as [r bookings'] eqn:E.
    destruct r as [b|err].
    + apply createBooking_Ok_inv in E. destruct E as [-> [_ [Hf [_ ->]]]].
      intros b Hb. cbn [snd] in Hb. apply in_app_or in Hb.
      destruct Hb as [Hb | [<- | []]]; [apply Hr, Hb | exact Hf].
    + assert (bookings' = bookings) as ->; [|exact Hr].
      unfold createBooking in E.
      destruct (validateBooking _); [|congruence].
      destruct (preSaveBooking _ _ _ _); [|congruence].
      unfold insertBooking in E.
      destruct (existsb _ bookings); congruence.
  - intros fuel others d r events' H. apply saveEvent_cases in H.
    assert (Hr' : bookingsRefer (events ++ others) bookings)
      by (intros b Hb; apply findById_app, Hr, Hb).
    destruct H as [[_ [-> _]] | [[input [_ ->]] | [e [_ [_ Hw]]]]];
      try exact Hr'.
    destruct Hw as [[_ Hw] | [_ [-> _]]]; [|exact Hr'].
    destruct (isNew d).
    + apply insertEvent_Ok in Hw. destruct Hw as [-> _].
      intros b Hb. apply findById_app, Hr', Hb.
    + unfold replaceEvent in Hw.
      destruct (existsb _ (events ++ others)); [discriminate|].
      injection Hw as <-. intros b Hb. apply findById_replace, Hr', Hb.
Qed.
End BookingMore.

(** ** dbConnect *)

Lemma dbConnectAll_connected (u : N) (uri : jsstring) (c : N)
    (outcomes : list Settled) :
  dbConnectAll (Some (u :: uri)) outcomes
    {| conn := Some c; promise := Some (Fulfilled c) |}
  = (map (fun _ => inr c) outcomes,
     {| conn := Some c; promise := Some (Fulfilled c) |}, 0%nat).
Proof.
  induction outcomes as [|o rest IH]; [reflexivity|].
  cbn [dbConnectAll dbConnect conn]. rewrite IH. reflexivity.
Qed.

Lemma dbConnectAll_missing (uri : option jsstring) (outcomes : list Settled)
    (cached : MongooseCache) :
  uri = None \/ uri = Some [] ->
  dbConnectAll uri outcomes cached
  = (map (fun _ => inl MissingURI) outcomes, cached, 0%nat).
Proof.
  intros Hu. induction outcomes as [|o rest IH]; [reflexivity|].
  cbn [dbConnectAll]. destruct Hu as [-> | ->];
    cbn [dbConnect]; rewrite IH; reflexivity.
Qed.

Lemma dbConnectAll_empty (u : N) (uri : jsstring) (outcomes : list Settled) :
  dbConnectAll (Some (u :: uri)) outcomes emptyCache
  = (expectedResults outcomes,
     match firstConnection outcomes with
     | Some c => {| conn := Some c; promise := Some (Fulfilled c) |}
     | None => emptyCache
     end,
     attempts outcomes).
Proof.
  induction outcomes as [|o rest IH]; [reflexivity|].
  destruct o as [c | reason].
  - cbn [dbConnectAll dbConnect conn promise emptyCache expectedResults
         attempts firstConnection].
    rewrite dbConnectAll_connected. reflexivity.
  - cbn [dbConnectAll dbConnect conn promise emptyCache expectedResults
         attempts firstConnection].
    fold emptyCache. rewrite IH. reflexivity.
Qed.

(** X20: calls of [dbConnect] one after the other.  Without a connection
    string every call fails before it looks at the cache, which stays as
    it is, and [mongoose.connect] is never called.  With one, from the
    empty cache: each call up to the first connection calls
    [mongoose.connect] and, while that is rejected, fails with its
    rejection and leaves the cache empty; the first connection is cached,
    and every later call returns it without calling [mongoose.connect],
    whatever that would return. *)
Theorem dbConnectAll_from_empty (outcomes : list Settled) :
  (forall cached,
     dbConnectAll None outcomes cached
     = (map (fun _ => inl MissingURI) outcomes, cached, 0%nat) /\
     dbConnectAll (Some []) outcomes cached
     = (map (fun _ => inl MissingURI) outcomes, cached, 0%nat)) /\
  (forall u uri,
     dbConnectAll (Some (u :: uri)) outcomes emptyCache
     = (expectedResults outcomes,
        match firstConnection outcomes with
        | Some c => {| conn := Some c; promise := Some (Fulfilled c) |}
        | None => emptyCache
        end,
        attempts outcomes)).
Proof.
  split.
  - intros cached. split; apply dbConnectAll_missing; auto.
  - intros u uri. apply dbConnectAll_empty.
Qed.

(** ** The properties at concrete stores *)

Lemma generateSlug_empty_iff_witness : generateSlug (str "?! ... !?") = [].
Proof.
  apply (proj2 (@generateSlug_empty_iff basicLatin (str "?! ... !?"))).
  reflexivity.
Defined.

Lemma GET_answers_witness :
  status (GET (Err StorageUnavailable) (Some (str "   "))) = 400 /\
  status (GET (Ok [devConStored]) (Some (str "rust-fest"))) = 404.
Proof.
  split.
  - apply (proj1 (@GET_answers basicLatin (Err StorageUnavailable)
                    (Some (str "   ")))).
    reflexivity.
  - apply (proj1 (proj2 (proj2 (@GET_answers basicLatin (Ok [devConStored])
                    (Some (str "rust-fest")))))
             (str "rust-fest") [devConStored]); try reflexivity.
    + intros H. discriminate H.
    + intros x [<- | []]. discriminate.
Defined.

Lemma createEvent_then_GET_witness :
  GET (Ok [devConStored; rustFest; devConSecond]) (Some (str " DevCon-1 "))
  = {| status := 200;
       body := SuccessBody (str "Event fetched successfully") devConSecond |}.
Proof.
  refine (proj2 (@createEvent_then_GET basicLatin isoOnly 3 [devConStored]
                   [rustFest] [devConStored; rustFest; devConSecond] 2 devCon
                   devConSecond _ _)
            (str " DevCon-1 ") _).
  - vm_compute. reflexivity.
  - discriminate.
  - reflexivity.
Defined.

Lemma createEvent_empty_slug_witness :
  slug bangStored = [] /\
  forall db p, bodyEvent (@GET basicLatin db p) <> Some bangStored.
Proof.
  apply (@createEvent_empty_slug basicLatin isoOnly 3 [devConStored] []
           [devConStored; bangStored] 4 bangEvent bangStored).
  - vm_compute. reflexivity.
  - reflexivity.
  - intros x [<- | []] _. discriminate.
Defined.

Lemma sample_slugs_NoDup : NoDup (map slug [devConStored; cloudDay; rustFest]).
Proof.
  repeat constructor; simpl.
  - intros [H | [H | []]]; discriminate H.
  - intros [H | []]; discriminate H.
  - intros [].
Qed.

Lemma getSimilarEventsBySlug_symmetric_witness :
  (In cloudDay
     (getSimilarEventsBySlug (Ok [devConStored; cloudDay; rustFest])
        (slug devConStored)) <->
   In devConStored
     (getSimilarEventsBySlug (Ok [devConStored; cloudDay; rustFest])
        (slug cloudDay))) /\
  ~ In devConStored
      (getSimilarEventsBySlug (Ok [devConStored; cloudDay; rustFest])
         (slug devConStored)).
Proof.
  apply (getSimilarEventsBySlug_symmetric [devConStored; cloudDay; rustFest]
           devConStored cloudDay sample_slugs_NoDup); simpl; tauto.
Defined.

Lemma sample_slugs_NoDup' : NoDup (map slug [devConStored; cloudDay; webNight]).
Proof.
  repeat constructor; simpl.
  - intros [H | [H | []]]; discriminate H.
  - intros [H | []]; discriminate H.
  - intros [].
Qed.

Lemma page_slug_case_witness :
  EventDetailsPage (Ok [devConStored; cloudDay; webNight]) (str "DevCon")
  = PageRenders devConStored [webNight] /\
  EventDetailsPage (Ok [devConStored; cloudDay; rustFest]) (str "DevCon")
  = PageRenders devConStored [].
Proof.
  split.
  - refine (proj1 (proj2 (proj2
      (@page_slug_case basicLatin [devConStored; cloudDay; webNight]
         devConStored (str "DevCon") sample_slugs_NoDup' _ _ _ _ _)))).
    + simpl; tauto.
    + discriminate.
    + discriminate.
    + reflexivity.
    + intros x [<- | [<- | [<- | []]]]; discriminate.
  - refine (proj2 (proj2 (proj2
      (@page_slug_case basicLatin [devConStored; cloudDay; rustFest]
         devConStored (str "DevCon") sample_slugs_NoDup _ _ _ _ _))) _).
    + simpl; tauto.
    + discriminate.
    + discriminate.
    + reflexivity.
    + intros x [<- | [<- | [<- | []]]]; discriminate.
    + intros x [<- | [<- | [<- | []]]]; simpl; intuition discriminate.
Defined.

Lemma EventDetailsPage_outcomes_witness :
  EventDetailsPage (Ok [devConStored; cloudDay]) (str "rust-fest") = PageThrows.
Proof.
  apply (proj1 (@EventDetailsPage_outcomes basicLatin
                  (Ok [devConStored; cloudDay]) (str "rust-fest"))).
  vm_compute. discriminate.
Defined.

Lemma EMAIL_REGEX_accepts_witness :
  EMAIL_REGEX_test (str "ada@example.com") = true.
Proof.
  apply (proj2 (proj1 (EMAIL_REGEX_accepts (str "ada@example.com")))).
  exists (str "ada"), (str "example"), (str "com").
  repeat split; try discriminate; repeat constructor.
Defined.

Lemma createBooking_stored_witness :
  email {| eventId := 1; email := str "ada@example.com" |}
  = trim (toLowerCase (str " Ada@Example.com ")) /\
  Forall (fun c => isUpper c = false) (str "ada@example.com") /\
  List.length (filter (fun c => c =? at_sign) (str "ada@example.com")) = 1%nat.
Proof.
  destruct (@createBooking_stored basicLatin [devConStored] [] _ 1
              (str " Ada@Example.com ")
              {| eventId := 1; email := str "ada@example.com" |} eq_refl)
    as [_ [_ [He [_ [Hu [_ [Hat _]]]]]]].
  auto.
Defined.

Lemma bookingsRefer_kept_witness :
  bookingsRefer [devConStored]
    (snd (@createBooking basicLatin [devConStored]
            [{| eventId := 1; email := str "ada@example.com" |}] 7
            (str "bob@example.com"))) /\
  bookingsRefer [devConStored; rustFest; devConSecond]
    [{| eventId := 1; email := str "ada@example.com" |}].
Proof.
  assert (H : bookingsRefer [devConStored]
                [{| eventId := 1; email := str "ada@example.com" |}]).
  { intros b [<- | []]. discriminate. }
  destruct (@bookingsRefer_kept basicLatin isoOnly _ _ H) as [H1 H2].
  split; [apply H1|].
  apply (H2 3%nat [rustFest] (newEvent 2 devCon) (Ok devConSecond)).
  vm_compute. reflexivity.
Defined.
